(** * The archive storage engine of the chunk store (package nbs, archive build)

    A shallow embedding of the archive builder: [padSamples], the chunk-group
    builder, the [ChunkRelations] union structure, the archive writer
    pipeline, the verifier and the manifest swap, together with the
    properties the specification states about them. *)

From stdpp Require Import gmap strings list fin_maps sets pretty.
From Stdlib Require Import ZArith NArith Lia Permutation.

Open Scope N_scope.

(** ** Basic data *)

(** [hash.Hash] is a 20-byte digest; it is read here as the number its bytes
    spell. *)
Definition Hash : Type := N.

Definition bytes : Type := list Byte.byte.

(** Go's [uint32] arithmetic wraps around. *)
Definition u32 (n : N) : N := n mod 2 ^ 32.
Definition u32_add (a b : N) : N := u32 (a + b).
Definition u32_sub (a b : N) : N := u32 (2 ^ 32 + a - b).

Definition minSamples : N := 25.
Definition maxSamples : N := 1000.
Definition defaultDictionarySize : N := 2 ^ 12.

(** ** Errors and outcomes *)

Inductive error : Type :=
| errNotEnoughChunks                        (* the package-level sentinel *)
| errChunkNotFound (h : Hash)               (* "chunk not found in archive: %s" *)
| errNilData (h : Hash)                     (* "nil data returned from archive for expected chunk: %s" *)
| errHashMismatch (h : Hash)                (* "hash mismatch for chunk: %s" *)
| errReadingChunk (h : Hash) (e : error)    (* "error reading chunk: %s (err: %w)" *)
| errCancelled                              (* ctx.Err() *)
| errExternal (code : N).                   (* an error of a collaborator *)

(** [errors.Is(err, errNotEnoughChunks)]: the sentinel itself, or an error
    that wraps it with [%w]. *)
Fixpoint isNotEnoughChunks (e : error) : bool :=
  match e with
  | errNotEnoughChunks => true
  | errReadingChunk _ e' => isNotEnoughChunks e'
  | _ => false
  end.

(** What a call can do: return a value, return an error, panic (nil
    dereference), or never return. *)
Inductive outcome (A : Type) : Type :=
| Ok (a : A)
| Err (e : error)
| Panic
| Diverge.
Arguments Ok {A} a.
Arguments Err {A} e.
Arguments Panic {A}.
Arguments Diverge {A}.

Definition obind {A B} (m : outcome A) (k : A → outcome B) : outcome B :=
  match m with
  | Ok a => k a
  | Err e => Err e
  | Panic => Panic
  | Diverge => Diverge
  end.

Notation "'try!' x := m 'in' k" := (obind m (λ x, k))
  (at level 10, x pattern, m at level 100, k at level 200, only parsing).

(** ** Dictionary sample padding *)

Section PadSamples.
Context {A : Type}.

(** The inner [for _, c := range chks { samples = append(samples, c) }]. *)
Definition appendAll (samples chks : list A) : list A :=
  foldl (λ s c, s ++ [c]) samples chks.

(** The outer [for len(samples) < 7] loop; [fuel] bounds the number of
    passes, [None] means the bound was reached with the loop still
    running. *)
Fixpoint padSamples_loop (fuel : nat) (chks samples : list A) : option (list A) :=
  if decide (length samples < 7)%nat then
    match fuel with
    | O => None
    | S fuel' => padSamples_loop fuel' chks (appendAll samples chks)
    end
  else Some samples.

Definition padSamples_fuel (fuel : nat) (chks : list A) : option (list A) :=
  padSamples_loop fuel chks [].

(** Seven passes are enough whenever the loop stops at all (see
    [padSamples_loop_enough] and [padSamples_loop_empty]), so the pipeline
    runs the loop with that bound and reads exhaustion as divergence. *)
Definition padSamples (chks : list A) : outcome (list A) :=
  match padSamples_fuel 7 chks with
  | Some s => Ok s
  | None => Diverge
  end.

(** Number of wholesale copies needed to reach 7 samples. *)
Definition padRounds (n : nat) : nat := (Nat.div (7 + n - 1) n)%nat.
End PadSamples.

(** ** Chunks, sources and the external libraries *)

Record Chunk : Type := mkChunk { c_hash : Hash; c_data : bytes }.

(** The [tableIndex] interface, as far as the archive builder uses it. *)
Record tableIndex : Type := mkIndex {
  chunkCount : N;                       (* uint32 *)
  indexEntry : N → outcome Hash;        (* the hash written through [&h] *)
  tableFileSize : N;
}.

(** The [chunkSource] interface.  [cs_get] returns [None] for Go's nil slice.
    [cs_isArchive] is the dynamic type test [cs.(archiveChunkSource)]. *)
Record chunkSource : Type := mkSource {
  cs_hash : Hash;
  cs_index : outcome tableIndex;
  cs_get : Hash → outcome (option bytes);
  cs_isArchive : bool;
}.

(** Functions of other packages that the builder calls: hashing, Zstandard
    (gozstd), JSON, path handling, and the constants of the archive format
    that are declared outside the files at hand. *)
Record Externals : Type := mkExt {
  float64 : Type;
  f64_ratio : Z → Z → float64;           (* float64(a) / float64(b) *)
  hashOf : bytes → Hash;                 (* hash.Of *)
  hashString : Hash → string;            (* Hash.String *)
  hashIsEmpty : Hash → bool;             (* Hash.IsEmpty *)
  zBuildDict : list bytes → N → bytes;   (* gozstd.BuildDict *)
  zNewCDict : bytes → option error;      (* the error of gozstd.NewCDict, if any *)
  zCompress : bytes → bytes;             (* gozstd.Compress(nil, src) *)
  zCompressDict : bytes → bytes → bytes; (* gozstd.CompressDict(nil, src, cdict) *)
  jsonMarshal : gmap string string → outcome bytes;
  filepathJoin : string → string → string;
  doltVersion : string;
  amdkDoltVersion : string;
  amdkConversionTime : string;
  amdkOriginTableFile : string;
  ArchiveFileSuffix : string;
  archiveFormatVersion : N;
  journalAddr : Hash;
  spanFault : N → bytes → option error;  (* a failing write of a byte span *)
}.

Section Builder.
Context (E : Externals).

Definition NewChunk (b : bytes) : Chunk := mkChunk (hashOf E b) b.

Definition isJournalAddr (h : Hash) : bool := bool_decide (h = journalAddr E).

(** *** The chunk cache

    [simpleChunkSourceCache] is a 2Q cache in front of an immutable chunk
    source: a hit returns the chunk that an earlier miss built from
    [cs.get], so [get] is modelled by what a miss computes. *)
Record simpleChunkSourceCache : Type := mkCache { csc_cs : chunkSource }.

Definition newSimpleChunkSourceCache (cs : chunkSource) : outcome simpleChunkSourceCache :=
  Ok (mkCache cs).

Definition cache_get (csc : simpleChunkSourceCache) (h : Hash) : outcome (option Chunk) :=
  match cs_get (csc_cs csc) h with
  | Ok None => Ok None
  | Ok (Some b) => Ok (Some (NewChunk b))
  | Err e => Err e
  | Panic => Panic
  | Diverge => Diverge
  end.

(** [for i := uint32(0); i < n; i++] reading [idx.indexEntry(i, &h)]. *)
Fixpoint readEntries (idx : tableIndex) (i : N) (n : nat) : outcome (list Hash) :=
  match n with
  | O => Ok []
  | S n' =>
      try! h := indexEntry idx i in
      try! rest := readEntries idx (i + 1) n' in
      Ok (h :: rest)
  end.

Definition cache_addresses (csc : simpleChunkSourceCache) : outcome (gset Hash) :=
  try! idx := cs_index (csc_cs csc) in
  try! hs := readEntries idx 0 (N.to_nat (chunkCount idx)) in
  Ok (foldl (λ result h, result ∪ {[h]}) ∅ hs).

(** *** Chunk groups *)

Record chunkCmpScore : Type := mkScore {
  chunkId : Hash;
  score : option (float64 E);          (* [None] is the literal 0.0 *)
  dictCmpSize : Z;
  defaultDictCmpSize : Z;
}.

(** Go's [int] sums of slice lengths are read in [Z]: they are bounded by
    the memory the slices occupy. *)
Record chunkGroup : Type := mkGroup {
  cg_dict : bytes;
  cg_cDict : bytes;
  cg_chks : list chunkCmpScore;
  totalRatioWDict : option (float64 E);
  totalBytesSavedWDict : Z;
  totalRatioDefaultDict : option (float64 E);
  totalBytesSavedDefaultDict : Z;
  avgRawChunkSize : Z;
}.

Definition blen (b : bytes) : Z := Z.of_nat (length b).

Definition buildDictionary (chks : list Chunk) : bytes :=
  zBuildDict E (foldl (λ samples c, samples ++ [c_data c]) [] chks) defaultDictionarySize.

Definition NewCDict (dict : bytes) : outcome bytes :=
  match zNewCDict E dict with
  | Some e => Err e
  | None => Ok dict
  end.

(** The first loop of [rebuild]: fetch every member, skip the ones the
    cache does not resolve. *)
Fixpoint resolveChunks (csc : simpleChunkSourceCache) (scs : list chunkCmpScore)
    (chks : list Chunk) : outcome (list Chunk) :=
  match scs with
  | [] => Ok chks
  | cs :: scs' =>
      try! chk := cache_get csc (chunkId cs) in
      match chk with
      | None => resolveChunks csc scs' chks
      | Some c => resolveChunks csc scs' (chks ++ [c])
      end
  end.

(** The scoring loop of [rebuild]: state is
    [(scored, raw, dictCmpSize, noDictCmpSize)]. *)
Definition scoreStep (cDict defaultDict : bytes)
    (st : list chunkCmpScore * Z * Z * Z) (c : Chunk) : list chunkCmpScore * Z * Z * Z :=
  let '(scored, raw, dictSz, noDictSz) := st in
  let d := c_data c in
  let comp := zCompressDict E d cDict in
  let defaultDictComp := zCompressDict E d defaultDict in
  let ccs := mkScore (c_hash c)
               (Some (f64_ratio E (blen d - blen comp)%Z (blen d)))
               (blen comp) (blen defaultDictComp) in
  (scored ++ [ccs], raw + blen d, dictSz + dictCmpSize ccs, noDictSz + defaultDictCmpSize ccs)%Z.

Section Rebuild.
(** [sort.Slice] by descending score: the outcome among equal scores is
    not determined, so the sort is a parameter. *)
Context (sortScores : list chunkCmpScore → list chunkCmpScore).

Definition rebuild (cg : chunkGroup) (csc : simpleChunkSourceCache) (defaultDict : bytes)
    : outcome chunkGroup :=
  try! chks := resolveChunks csc (cg_chks cg) [] in
  let totalBytes := foldl (λ t c, (t + blen (c_data c))%Z) 0%Z chks in
  try! samples := padSamples chks in
  let dct := buildDictionary samples in
  try! cDict := NewCDict dct in
  let cmpDct := zCompress E dct in
  let '(scored, raw, dictSz, noDictSz) :=
    foldl (scoreStep cDict defaultDict) ([], 0%Z, blen cmpDct, 0%Z) chks in
  let scored := sortScores scored in
  if decide (length chks = 0%nat) then Panic   (* raw / len(chks) *)
  else
    Ok (mkGroup dct cDict scored
          (Some (f64_ratio E (raw - dictSz)%Z raw)) (raw - dictSz)%Z
          (Some (f64_ratio E (raw - noDictSz)%Z raw)) (raw - noDictSz)%Z
          (Z.quot raw (Z.of_nat (length chks)))).

Definition newChunkGroup (csc : simpleChunkSourceCache) (chks : list Hash)
    (defaultDict : bytes) : outcome chunkGroup :=
  let scored := (λ h, mkScore h None 0%Z 0%Z) <$> chks in
  rebuild (mkGroup [] [] scored None 0%Z None 0%Z 0%Z) csc defaultDict.
End Rebuild.
End Builder.

(** ** Chunk relations

    [manyToGroup map[hash.Hash]*hash.HashSet]: many keys share one set
    through a pointer.  The sets live in [groupHeap]; a pointer is the
    position of its set, [&newGroup] allocates at the end, and inserting
    through a pointer updates the set every key sees. *)

Record ChunkRelations : Type := mkRelations {
  manyToGroup : gmap Hash nat;
  groupHeap : list (gset Hash);
}.

Definition NewChunkRelations : ChunkRelations := mkRelations ∅ [].

Definition Count (cr : ChunkRelations) : nat := size (manyToGroup cr).

Definition Contains (cr : ChunkRelations) (h : Hash) : bool :=
  bool_decide (is_Some (manyToGroup cr !! h)).

(** [*p] *)
Definition deref (heap : list (gset Hash)) (p : nat) : gset Hash :=
  default ∅ (heap !! p).

(** [hash.NewHashSet(hs...)] *)
Definition NewHashSet (hs : list Hash) : gset Hash :=
  foldl (λ s h, s ∪ {[h]}) ∅ hs.

(** The set a hash belongs to, if it is known. *)
Definition groupOf (cr : ChunkRelations) (h : Hash) : option (gset Hash) :=
  deref (groupHeap cr) <$> manyToGroup cr !! h.

Definition Add (a b : Hash) (cr : ChunkRelations) : ChunkRelations :=
  let m := manyToGroup cr in
  let heap := groupHeap cr in
  match m !! a, m !! b with
  | None, None =>
      let p := length heap in
      mkRelations (<[b := p]> (<[a := p]> m)) (heap ++ [NewHashSet [a; b]])
  | Some pa, None =>
      mkRelations (<[b := pa]> m) (alter (λ s, s ∪ {[b]}) pa heap)
  | None, Some pb =>
      mkRelations (<[a := pb]> m) (alter (λ s, s ∪ {[a]}) pb heap)
  | Some pa, Some pb =>
      if decide (pa = pb) then cr
      else
        let merged := (NewHashSet [] ∪ deref heap pa) ∪ deref heap pb in
        let p := length heap in
        mkRelations (set_fold (λ h m', <[h := p]> m') m merged) (heap ++ [merged])
  end.

(** The loop of [groups] over the entries [kvs] of [manyToGroup], in the
    order [range] yields them; the state is [(groups, seen)]. *)
Definition groups_step (heap : list (gset Hash))
    (st : list (gset Hash) * gset nat) (kv : Hash * nat) : list (gset Hash) * gset nat :=
  let '(groups, seen) := st in
  if decide (kv.2 ∈ seen) then (groups, seen)
  else (groups ++ [deref heap kv.2], seen ∪ {[kv.2]}).

Definition groups_in (kvs : list (Hash * nat)) (heap : list (gset Hash)) : list (gset Hash) :=
  (foldl (groups_step heap) ([], ∅) kvs).1.

(** The pointers behind the sets [groups_in] returns, in the same order. *)
Definition groupPtrs_step (ps : list nat) (kv : Hash * nat) : list nat :=
  if decide (kv.2 ∈ ps) then ps else ps ++ [kv.2].

Definition groupPtrs_in (kvs : list (Hash * nat)) : list nat :=
  foldl groupPtrs_step [] kvs.

(** A sequence of calls [cr.Add(a, b)]. *)
Definition AddAll (pairs : list (Hash * Hash)) (cr : ChunkRelations) : ChunkRelations :=
  foldl (λ cr ab, Add ab.1 ab.2 cr) cr pairs.

(** Two hashes are in one group when they map to the same set. *)
Definition sameGroup (cr : ChunkRelations) (x y : Hash) : Prop :=
  ∃ p, manyToGroup cr !! x = Some p ∧ manyToGroup cr !! y = Some p.

(** The relation the calls assert: the equivalence the pairs generate on
    the hashes they mention. *)
Inductive related (pairs : list (Hash * Hash)) : Hash → Hash → Prop :=
| related_pair a b : (a, b) ∈ pairs → related pairs a b
| related_refl_l a b : (a, b) ∈ pairs → related pairs a a
| related_refl_r a b : (a, b) ∈ pairs → related pairs b b
| related_sym x y : related pairs x y → related pairs y x
| related_trans x y z : related pairs x y → related pairs y z → related pairs x z.

(** What [x] has to do with a call [Add(a, b)]: it is one of the two
    hashes or already shares a group with one of them. *)
Definition touches (cr : ChunkRelations) (a b x : Hash) : Prop :=
  x = a ∨ x = b ∨ sameGroup cr x a ∨ sameGroup cr x b.

(** The shape every [ChunkRelations] built by [Add] has: a key is a member
    of the set it points to, and all members of that set point to it. *)
Record wfRelations (cr : ChunkRelations) : Prop := mkWf {
  wf_member : ∀ h p, manyToGroup cr !! h = Some p → h ∈ deref (groupHeap cr) p;
  wf_closed : ∀ h p h', manyToGroup cr !! h = Some p → h' ∈ deref (groupHeap cr) p →
                        manyToGroup cr !! h' = Some p;
}.

(** ** Table specs and the swap lists *)

Record tableSpec : Type := mkSpec { ts_name : Hash; ts_chunkCount : N }.

(** What the swap loops do to one spec. *)
Definition replaceSpec (tf : Hash) (new : tableSpec) (spec : tableSpec) : tableSpec :=
  if decide (tf = ts_name spec) then new else spec.

Section SwapSpecs.
Context (E : Externals).

(** The loop of [archiveSingleBlockStore] that builds [newSpecs] and
    [purgeFile]. *)
Definition archiveSwapStep (path : string) (tf archiveName : Hash) (chkCnt : N)
    (purge : bool) (st : list tableSpec * string) (spec : tableSpec)
    : list tableSpec * string :=
  let '(newSpecs, purgeFile) := st in
  if decide (tf = ts_name spec) then
    (newSpecs ++ [mkSpec archiveName chkCnt],
     if purge then filepathJoin E path (hashString E tf) else purgeFile)
  else (newSpecs ++ [spec], purgeFile).

Definition archiveSwapSpecs (path : string) (tf archiveName : Hash) (chkCnt : N)
    (purge : bool) (specs : list tableSpec) : list tableSpec * string :=
  foldl (archiveSwapStep path tf archiveName chkCnt purge) ([], EmptyString) specs.

(** The same loop in [unArchiveSingleBlockStore]. *)
Definition unArchiveSwapStep (outPath : string) (id newTF : Hash) (chkCnt : N)
    (st : list tableSpec * string) (spec : tableSpec) : list tableSpec * string :=
  let '(newSpecs, purgeFile) := st in
  if decide (id = ts_name spec) then
    (newSpecs ++ [mkSpec newTF chkCnt],
     filepathJoin E outPath (hashString E id +:+ ArchiveFileSuffix E))
  else (newSpecs ++ [spec], purgeFile).

Definition unArchiveSwapSpecs (outPath : string) (id newTF : Hash) (chkCnt : N)
    (specs : list tableSpec) : list tableSpec * string :=
  foldl (unArchiveSwapStep outPath id newTF chkCnt) ([], EmptyString) specs.
End SwapSpecs.

(** ** The archive writer *)

Record stagedChunkRef : Type := mkStaged { sc_hash : Hash; sc_dict : N; sc_data : N }.

Record archiveWriter : Type := mkWriter {
  aw_spans : list bytes;              (* the payload: span [i] is at position [i - 1] *)
  aw_staged : list stagedChunkRef;    (* index entries, in staging order *)
  aw_seen : gset Hash;
  aw_index : bytes;
  aw_metadata : bytes;
  aw_name : option Hash;
  aw_finalPath : string;
}.

Definition byteOfN (n : N) : Byte.byte := default Byte.x00 (Byte.of_N (n mod 256)).

(** Big-endian, [width] bytes. *)
Fixpoint be_bytes (width : nat) (v : N) : bytes :=
  match width with
  | O => []
  | S w => be_bytes w (v / 256) ++ [byteOfN v]
  end.

(** End offsets of the spans in the payload. *)
Fixpoint spanEnds (start : N) (spans : list bytes) : list N :=
  match spans with
  | [] => []
  | b :: rest => let e := start + N.of_nat (length b) in e :: spanEnds e rest
  end.

Section Writer.
Context (E : Externals).

(** Modelled from the spec: the constructor of the archive writer, which
    is declared outside the files at hand; it starts with no span and no
    staged chunk. *)
Definition newArchiveWriter (tmpDir : string) : outcome archiveWriter :=
  Ok (mkWriter [] [] ∅ [] [] None EmptyString).

(** Modelled from the spec: [writeByteSpan(bytes) → span_id] "appends,
    returns the ID"; IDs are assigned monotonically as 32-bit numbers
    starting at 1.  A failed write is reported by [spanFault]. *)
Definition writeByteSpan (aw : archiveWriter) (b : bytes) : outcome (N * archiveWriter) :=
  let id := u32 (N.of_nat (length (aw_spans aw)) + 1) in
  match spanFault E id b with
  | Some e => Err e
  | None =>
      Ok (id, mkWriter (aw_spans aw ++ [b]) (aw_staged aw) (aw_seen aw)
                (aw_index aw) (aw_metadata aw) (aw_name aw) (aw_finalPath aw))
  end.

(** Modelled from the spec: [chunkSeen(hash)] "lets callers dedupe". *)
Definition chunkSeen (aw : archiveWriter) (h : Hash) : bool :=
  bool_decide (h ∈ aw_seen aw).

(** Modelled from the spec: [stageChunk(hash, dict_span_id, data_span_id)]
    "records an index entry in memory". *)
Definition stageZStdChunk (aw : archiveWriter) (h : Hash) (dict data : N)
    : outcome archiveWriter :=
  Ok (mkWriter (aw_spans aw) (aw_staged aw ++ [mkStaged h dict data])
        (aw_seen aw ∪ {[h]}) (aw_index aw) (aw_metadata aw) (aw_name aw)
        (aw_finalPath aw)).

(** Modelled from the spec: [finalizeByteSpans()] "freezes the span table". *)
Definition finalizeByteSpans (aw : archiveWriter) : outcome archiveWriter := Ok aw.

(** Modelled from the spec: the index region of section 4.1, a spans table
    with one u64 end offset per span followed by the chunks table with, per
    indexed chunk, the 20-byte hash, the u32 dictionary span and the u32
    data span. *)
Definition indexRegion (aw : archiveWriter) : bytes :=
  mjoin (be_bytes 8 <$> spanEnds 0 (aw_spans aw)) ++
  mjoin ((λ r, be_bytes 20 (sc_hash r) ++ be_bytes 4 (sc_dict r) ++ be_bytes 4 (sc_data r))
           <$> aw_staged aw).

Definition writeIndex (aw : archiveWriter) : outcome archiveWriter :=
  Ok (mkWriter (aw_spans aw) (aw_staged aw) (aw_seen aw)
        (indexRegion aw) (aw_metadata aw) (aw_name aw) (aw_finalPath aw)).

(** Modelled from the spec: [writeMetadata(bytes)] "emits metadata region". *)
Definition writeMetadata (aw : archiveWriter) (data : bytes) : outcome archiveWriter :=
  Ok (mkWriter (aw_spans aw) (aw_staged aw) (aw_seen aw)
        (aw_index aw) data (aw_name aw) (aw_finalPath aw)).

(** Modelled from the spec: the fixed prefix of the footer, the fields
    before the name. *)
Definition footerPrefix (aw : archiveWriter) : bytes :=
  be_bytes 4 (archiveFormatVersion E) ++
  be_bytes 4 (N.of_nat (length (aw_staged aw))) ++
  be_bytes 4 (N.of_nat (length (aw_spans aw))) ++
  be_bytes 8 (N.of_nat (length (aw_index aw))) ++
  be_bytes 8 (N.of_nat (length (aw_metadata aw))).

(** Modelled from the spec: [writeFooter()] "computes the archive name
    from the digest" over the index region, the metadata region and the
    fixed prefix of the footer. *)
Definition writeFooter (aw : archiveWriter) : outcome archiveWriter :=
  let name := hashOf E (aw_index aw ++ aw_metadata aw ++ footerPrefix aw) in
  Ok (mkWriter (aw_spans aw) (aw_staged aw) (aw_seen aw)
        (aw_index aw) (aw_metadata aw) (Some name) (aw_finalPath aw)).

(** Modelled from the spec: [getName], the name the footer recorded. *)
Definition getName (aw : archiveWriter) : outcome Hash :=
  match aw_name aw with
  | Some n => Ok n
  | None => Err (errExternal 0)
  end.

(** Modelled from the spec: [genFileName(dir)] "returns dir/<name>.darc". *)
Definition genFileName (aw : archiveWriter) (dir : string) : outcome string :=
  try! n := getName aw in
  Ok (filepathJoin E dir (hashString E n +:+ ArchiveFileSuffix E)).
End Writer.

(** ** Scheduling, the block store and the file system *)

(** The archive reader, as the verifier uses it. *)
Record archiveReader : Type := mkReader {
  ar_has : Hash → bool;
  ar_get : Hash → outcome (option bytes);
}.

(** Functions of gozstd that the reader calls. *)
Record Decoder : Type := mkDecoder {
  zDecompress : bytes → outcome bytes;             (* gozstd.Decompress(nil, src) *)
  zDecompressDict : bytes → bytes → outcome bytes; (* gozstd.DecompressDict(nil, src, ddict) *)
}.

(** Modelled from the spec: a byte span is "identified by a monotonically
    assigned 32-bit ID starting at 1 (ID 0 is reserved as none)". *)
Definition readSpan (aw : archiveWriter) (id : N) : option bytes :=
  if decide (id = 0) then None else aw_spans aw !! Nat.pred (N.to_nat id).

(** Modelled from the spec: the reader of an archive file, which is declared
    outside the files at hand.  [has(h)] looks [h] up in the chunks table;
    [get(h)] follows the "decompress chain: read data span, read dict span if
    non-zero, Zstd-decompress-with-dict", the dictionary span holding the
    compressed dictionary; a hash the table does not list gives nil. *)
Definition archiveReaderOf (D : Decoder) (aw : archiveWriter) : archiveReader := {|
  ar_has := λ h, bool_decide (h ∈ sc_hash <$> aw_staged aw);
  ar_get := λ h,
    match list_find (λ r, sc_hash r = h) (aw_staged aw) with
    | None => Ok None
    | Some (_, r) =>
        match readSpan aw (sc_data r) with
        | None => Err (errExternal 3)
        | Some data =>
            if decide (sc_dict r = 0) then
              try! b := zDecompress D data in Ok (Some b)
            else
              match readSpan aw (sc_dict r) with
              | None => Err (errExternal 3)
              | Some cmpDict =>
                  try! dict := zDecompress D cmpDict in
                  try! b := zDecompressDict D data dict in
                  Ok (Some b)
              end
        end
    end;
|}.

Inductive progressMsg : Type :=
| MsgArchiving (tf : Hash)                    (* "Archiving TableFile %s\n" *)
| MsgNotEnoughChunks (h : Hash)               (* "Not enough chunks to build archive for %s. Skipping." *)
| MsgStatFailed                               (* "Failed to stat archive file" *)
| MsgArchived (name : Hash) (orig arch : N)   (* "Archived %s (%d -> %d bytes, %.2f%% reduction)\n" *)
| MsgPurgeFailed (file : string)              (* "Failed to purge. %s" *)
| MsgDuplicates (dupes : N)                   (* "\nChunk count mismatch. Duplicate chunks: %d\n" *)
| MsgStage (stage : string) (total completed : N).   (* ArchiveBuildProgressMsg *)

(** The block store [S] and the file system [F] are collaborators; so are
    the choices the runtime makes: the order in which [range] walks a map,
    the outcome of an unstable sort among equal keys, the order in which the
    compression workers deliver, the shuffle, the clock and the moment a
    context is cancelled. *)
Record Env (E : Externals) (S F : Type) : Type := mkEnv {
  bs_Path : S → string;
  upstreamKeys : S → list Hash;                   (* [range blockStore.tables.upstream] *)
  upstreamLookup : S → Hash → option chunkSource; (* [sourceSet[tf]] *)
  toSpecs : S → outcome (list tableSpec);
  swapTables : S → list tableSpec → outcome unit * S;
  flushToFile : archiveWriter → string → F → outcome unit * F;
  os_Stat : F → string → outcome N;
  os_Remove : F → string → outcome unit * F;
  openArchive : F → string → outcome archiveReader;  (* newFileReaderAt, newArchiveReader *)
  rangeHashSet : gset Hash → list Hash;
  rangeRelations : gmap Hash nat → list (Hash * nat);
  sortScores : list (chunkCmpScore E) → list (chunkCmpScore E);
  sortGroups : list (chunkGroup E) → list (chunkGroup E);
  drainOrder : gset Hash → list Hash;
  shuffle : list Hash → list Hash;
  timeNow : string;                               (* time.Now().UTC().Format(time.RFC3339) *)
  ctxDone : N → bool;                             (* is the context done at this poll *)
}.
Arguments bs_Path {E S F}.
Arguments upstreamKeys {E S F}.
Arguments upstreamLookup {E S F}.
Arguments toSpecs {E S F}.
Arguments swapTables {E S F}.
Arguments flushToFile {E S F}.
Arguments os_Stat {E S F}.
Arguments os_Remove {E S F}.
Arguments openArchive {E S F}.
Arguments rangeHashSet {E S F}.
Arguments rangeRelations {E S F}.
Arguments sortScores {E S F}.
Arguments sortGroups {E S F}.
Arguments drainOrder {E S F}.
Arguments shuffle {E S F}.
Arguments timeNow {E S F}.
Arguments ctxDone {E S F}.

(** The runtime's choices are orderings of what they are given. *)
Record EnvOk {E S F} (V : Env E S F) : Prop := mkEnvOk {
  rangeHashSet_perm : ∀ s, rangeHashSet V s ≡ₚ elements s;
  rangeRelations_perm : ∀ m, rangeRelations V m ≡ₚ map_to_list m;
  sortScores_perm : ∀ l, sortScores V l ≡ₚ l;
  sortGroups_perm : ∀ l, sortGroups V l ≡ₚ l;
  drainOrder_perm : ∀ s, drainOrder V s ≡ₚ elements s;
  shuffle_perm : ∀ l, shuffle V l ≡ₚ l;
}.

(** The calls of [verifyAllChunks] and [swapTables] that an archival run
    makes, with the table file they are made for; [EvVerify tf None] is a
    verification that returned nil. *)
Inductive event : Type :=
| EvVerify (tf : Hash) (err : option error)
| EvSwap (tf : Hash) (newSpecs : list tableSpec).

Record world (S F : Type) : Type := mkWorld {
  w_store : S;
  w_fs : F;
  w_progress : list progressMsg;    (* what was sent on the progress channel *)
  w_trace : list event;             (* ghost: the calls made so far *)
}.
Arguments mkWorld {S F}.
Arguments w_store {S F}.
Arguments w_fs {S F}.
Arguments w_progress {S F}.
Arguments w_trace {S F}.

(** ** The build pipeline *)

Section Pipeline.
Context {E : Externals} {S F : Type} (V : Env E S F).

(** A computation over the world that can stop with an error, panic or
    hang; what was sent on the progress channel stays sent. *)
Definition M (A : Type) : Type := world S F → outcome A * world S F.

Definition ret {A} (a : A) : M A := λ w, (Ok a, w).

Definition bindM {A B} (m : M A) (k : A → M B) : M B :=
  λ w, match m w with
       | (Ok a, w') => k a w'
       | (Err e, w') => (Err e, w')
       | (Panic, w') => (Panic, w')
       | (Diverge, w') => (Diverge, w')
       end.

Definition lift {A} (o : outcome A) : M A := λ w, (o, w).

Definition fail {A} (e : error) : M A := lift (Err e).

(** [progress <- msg] *)
Definition send (msg : progressMsg) : M unit :=
  λ w, (Ok (), mkWorld (w_store w) (w_fs w) (w_progress w ++ [msg]) (w_trace w)).

Definition record (ev : event) : M unit :=
  λ w, (Ok (), mkWorld (w_store w) (w_fs w) (w_progress w) (w_trace w ++ [ev])).

Notation "'do!' x := m 'in' k" := (bindM m (λ x, k))
  (at level 10, x pattern, m at level 100, k at level 200, only parsing).

Fixpoint foldM {A B} (f : B → A → M B) (b : B) (l : list A) : M B :=
  match l with
  | [] => ret b
  | a :: l' => do! b' := f b a in foldM f b' l'
  end.

Definition gatherSample (cs : chunkSource) (idx : tableIndex) (i : N) : outcome Chunk :=
  try! h := indexEntry idx i in
  try! b := cs_get cs h in
  Ok (NewChunk E (default [] b)).

Fixpoint gatherSamples (cs : chunkSource) (idx : tableIndex) (i : N) (n : nat)
    : outcome (list Chunk) :=
  match n with
  | O => Ok []
  | Datatypes.S n' =>
      try! chk := gatherSample cs idx i in
      try! rest := gatherSamples cs idx (i + 1) n' in
      Ok (chk :: rest)
  end.

Definition gatherAllChunks (cs : chunkSource) (idx : tableIndex)
    : outcome (simpleChunkSourceCache * list Chunk) :=
  let sampleCount := N.min (chunkCount idx) maxSamples in
  try! defaultSamples := gatherSamples cs idx 0 (N.to_nat sampleCount) in
  try! chkCache := newSimpleChunkSourceCache cs in
  Ok (chkCache, defaultSamples).

(** *** Chunk groups from the relations

    One worker takes the groups off a channel in the order they were sent
    and delivers on a channel read after it has finished: the groups are
    built one after the other. *)
Definition groups (cr : ChunkRelations) : list (gset Hash) :=
  groups_in (rangeRelations V (manyToGroup cr)) (groupHeap cr).

Definition buildGroup (chks : simpleChunkSourceCache) (defaultDict : bytes) (groupCount : N)
    (st : list (chunkGroup E) * N) (hs : gset Hash) : M (list (chunkGroup E) * N) :=
  let '(result, completed) := st in
  if ctxDone V completed then fail errCancelled
  else if decide (1 < size hs)%nat then
    do! chkGrp := lift (newChunkGroup E (sortScores V) chks (rangeHashSet V hs) defaultDict) in
    let completed := u32_add completed 1 in
    do! _ := send (MsgStage "Building Chunk Group Dictionaries" groupCount completed) in
    ret (result ++ [chkGrp], completed)
  else ret (result, completed).

Definition convertToChunkGroups (cr : ChunkRelations) (chks : simpleChunkSourceCache)
    (defaultDict : bytes) : M (list (chunkGroup E)) :=
  let gs := groups cr in
  if decide (0 < length gs)%nat then
    let groupCount := u32 (N.of_nat (length gs)) in
    do! (result, _) := foldM (buildGroup chks defaultDict groupCount) ([], 0) gs in
    ret result
  else
    do! _ := send (MsgStage "Chunk Grouping Skipped" 0 0) in
    ret [].

(** *** Writing the data *)

Record writeState : Type := mkWS {
  ws_groupCount : N;
  ws_groupedChunkCount : N;
  ws_groupsCompleted : N;
  ws_allChunks : gset Hash;
  ws_arcW : archiveWriter;
}.

(** The body of [for _, cs := range cg.chks]; the state is
    [(groupedChunkCount, allChunks, arcW)]. *)
Definition writeGroupChunk (chunkCache : simpleChunkSourceCache) (cg : chunkGroup E) (dictId : N)
    (st : N * gset Hash * archiveWriter) (cs : chunkCmpScore E)
    : outcome (N * gset Hash * archiveWriter) :=
  let '(grouped, allChunks, arcW) := st in
  try! c := cache_get E chunkCache (chunkId E cs) in
  try! (grouped, arcW) :=
    (if chunkSeen arcW (chunkId E cs) then Ok (grouped, arcW)
     else
       match c with
       | None => Panic                  (* c.Data() on a nil chunk *)
       | Some c =>
           let cmpBuff := zCompressDict E (c_data c) (cg_cDict E cg) in
           try! (dataId, arcW) := writeByteSpan E arcW cmpBuff in
           try! arcW := stageZStdChunk arcW (chunkId E cs) dictId dataId in
           Ok (u32_add grouped 1, arcW)
       end) in
  Ok (grouped, allChunks ∖ {[chunkId E cs]}, arcW).

Fixpoint foldO {A B} (f : B → A → outcome B) (b : B) (l : list A) : outcome B :=
  match l with
  | [] => Ok b
  | a :: l' => try! b' := f b a in foldO f b' l'
  end.

(** The body of [for _, cg := range cgList]. *)
Definition writeGroup (chunkCache : simpleChunkSourceCache) (possibleGroupCount : N)
    (st : writeState) (cg : chunkGroup E) : M writeState :=
  if ctxDone V (ws_groupsCompleted st) then fail errCancelled
  else
    do! st := lift
      (if decide (totalBytesSavedDefaultDict E cg < totalBytesSavedWDict E cg)%Z then
         let cmpBuff := zCompress E (cg_dict E cg) in
         try! (dictId, arcW) := writeByteSpan E (ws_arcW st) cmpBuff in
         try! (grouped, allChunks, arcW) :=
           foldO (writeGroupChunk chunkCache cg dictId)
                 (ws_groupedChunkCount st, ws_allChunks st, arcW) (cg_chks E cg) in
         Ok (mkWS (u32_add (ws_groupCount st) 1) grouped (ws_groupsCompleted st) allChunks arcW)
       else Ok st) in
    let completed := u32_add (ws_groupsCompleted st) 1 in
    do! _ := send (MsgStage "Materializing Chunk Groups" possibleGroupCount completed) in
    ret (mkWS (ws_groupCount st) (ws_groupedChunkCount st) completed
              (ws_allChunks st) (ws_arcW st)).

(** The writer goroutine of [compressChunksInParallel], fed by the workers
    in the order [drainOrder] fixes; the state is [(completed, arcW)]. *)
Definition drainChunk (chunkCache : simpleChunkSourceCache) (defaultDict : bytes)
    (defaultSpanId totalChunks : N) (st : N * archiveWriter) (addr : Hash)
    : M (N * archiveWriter) :=
  let '(completed, arcW) := st in
  do! c := lift (cache_get E chunkCache addr) in
  match c with
  | None => lift Panic                  (* c.Data() on a nil chunk *)
  | Some c =>
      let cp := zCompressDict E (c_data c) defaultDict in
      do! (id, arcW) := lift (writeByteSpan E arcW cp) in
      do! arcW := lift (stageZStdChunk arcW addr defaultSpanId id) in
      let completed := u32_add completed 1 in
      do! _ := send (MsgStage "Writing Ungrouped Chunks" totalChunks completed) in
      ret (completed, arcW)
  end.

Definition compressChunksInParallel (allChunks : gset Hash)
    (chunkCache : simpleChunkSourceCache) (arcW : archiveWriter) (defaultDict : bytes)
    (defaultSpanId : N) : M (N * archiveWriter) :=
  let totalChunks := u32 (N.of_nat (size allChunks)) in
  do! (_, arcW) := foldM (drainChunk chunkCache defaultDict defaultSpanId totalChunks)
                          (0, arcW) (drainOrder V allChunks) in
  ret (totalChunks, arcW).

Definition writeDataToArchive (chunkCache : simpleChunkSourceCache)
    (cgList : list (chunkGroup E)) (defaultSpanId : N) (defaultDict : bytes)
    (arcW : archiveWriter) : M (N * N * N * archiveWriter) :=
  do! allChunks := lift (cache_addresses chunkCache) in
  let possibleGroupCount := u32 (N.of_nat (length cgList)) in
  do! st := foldM (writeGroup chunkCache possibleGroupCount)
                  (mkWS 0 0 0 allChunks arcW) cgList in
  do! (ungroupedChunks, arcW) :=
    compressChunksInParallel (ws_allChunks st) chunkCache (ws_arcW st)
                             defaultDict defaultSpanId in
  ret (ws_groupCount st, ws_groupedChunkCount st, ungroupedChunks, arcW).

(** *** Index, metadata, footer, flush *)

Definition archiveMeta (originTableFile : Hash) : gmap string string :=
  let meta : gmap string string :=
    <[amdkConversionTime E := timeNow V]> (<[amdkDoltVersion E := doltVersion E]> ∅) in
  if hashIsEmpty E originTableFile then meta
  else <[amdkOriginTableFile E := hashString E originTableFile]> meta.

Definition indexFinalize (arcW : archiveWriter) (originTableFile : Hash)
    : outcome archiveWriter :=
  try! arcW := finalizeByteSpans arcW in
  try! arcW := writeIndex arcW in
  try! jsonData := jsonMarshal E (archiveMeta originTableFile) in
  try! arcW := writeMetadata arcW jsonData in
  writeFooter E arcW.

(** [flushToFile] moves the buffered file to its path and records it as
    [finalPath]. *)
Definition flush (arcW : archiveWriter) (fileName : string) : M archiveWriter :=
  λ w, match flushToFile V arcW fileName (w_fs w) with
       | (Ok _, fs) =>
           (Ok (mkWriter (aw_spans arcW) (aw_staged arcW) (aw_seen arcW) (aw_index arcW)
                  (aw_metadata arcW) (aw_name arcW) fileName),
            mkWorld (w_store w) fs (w_progress w) (w_trace w))
       | (Err e, fs) => (Err e, mkWorld (w_store w) fs (w_progress w) (w_trace w))
       | (Panic, fs) => (Panic, mkWorld (w_store w) fs (w_progress w) (w_trace w))
       | (Diverge, fs) => (Diverge, mkWorld (w_store w) fs (w_progress w) (w_trace w))
       end.

Definition indexFinalizeFlushArchive (arcW : archiveWriter) (archivePath : string)
    (originTableFile : Hash) : M archiveWriter :=
  do! arcW := lift (indexFinalize arcW originTableFile) in
  do! fileName := lift (genFileName E arcW archivePath) in
  flush arcW fileName.

(** *** Converting one table file *)

Definition convertTableFileToArchive (cs : chunkSource) (idx : tableIndex)
    (dagGroups : ChunkRelations) (archivePath : string) : M (string * Hash * N) :=
  do! (allChunks, defaultSamples) := lift (gatherAllChunks cs idx) in
  if decide (minSamples ≤ N.of_nat (length defaultSamples)) then
    let defaultDict := buildDictionary E defaultSamples in
    do! defaultCDict := lift (NewCDict E defaultDict) in
    do! cgList := convertToChunkGroups dagGroups allChunks defaultCDict in
    let cgList := sortGroups V cgList in
    let cmpBuff := zCompress E defaultDict in
    do! arcW := lift (newArchiveWriter EmptyString) in
    do! (defaultDictByteSpanId, arcW) := lift (writeByteSpan E arcW cmpBuff) in
    do! (_, grouped, singles, arcW) :=
      writeDataToArchive allChunks cgList defaultDictByteSpanId defaultCDict arcW in
    do! arcW := indexFinalizeFlushArchive arcW archivePath (cs_hash cs) in
    let chunkCount' := u32_add grouped singles in
    do! _ := (if decide (chunkCount' ≠ chunkCount idx) then
                let dupes := u32_sub (chunkCount idx) (u32_add grouped singles) in
                send (MsgDuplicates dupes)
              else ret ()) in
    do! name := lift (getName arcW) in
    ret (aw_finalPath arcW, name, chunkCount')
  else fail errNotEnoughChunks.

(** *** The verifier *)

(** The body of [for _, h := range hashList]; the state is
    [chunkProgress]. *)
Definition verifyChunk (index : archiveReader) (chunkCount' : N) (chunkProgress : N)
    (h : Hash) : M N :=
  if negb (ar_has index h) then fail (errChunkNotFound h)
  else
    do! data := lift (match ar_get index h with
                      | Err e => Err (errReadingChunk h e)
                      | o => o
                      end) in
    match data with
    | None => fail (errNilData h)
    | Some data =>
        let chk := NewChunk E data in
        if decide (c_hash chk ≠ h) then fail (errHashMismatch h)
        else
          let chunkProgress := u32_add chunkProgress 1 in
          do! _ := send (MsgStage "Verifying Chunks" chunkCount' chunkProgress) in
          ret chunkProgress
    end.

Definition verifyAllChunks (idx : tableIndex) (archiveFile : string) : M unit :=
  do! index := (λ w, (openArchive V (w_fs w) archiveFile, w)) in
  do! hashList := lift (readEntries idx 0 (N.to_nat (chunkCount idx))) in
  let hashList := shuffle V hashList in
  do! _ := foldM (verifyChunk index (chunkCount idx)) 0 hashList in
  ret ().

(** *** Archiving a block store *)

Definition getStore : M S := λ w, (Ok (w_store w), w).

(** [blockStore.swapTables(ctx, newSpecs, chunks.GCMode_Default)], made
    for table file [tf]. *)
Definition swap (tf : Hash) (newSpecs : list tableSpec) : M unit :=
  λ w, let '(r, st) := swapTables V (w_store w) newSpecs in
       (r, mkWorld st (w_fs w) (w_progress w) (w_trace w ++ [EvSwap tf newSpecs])).

Definition stat (file : string) : M N := λ w, (os_Stat V (w_fs w) file, w).

Definition remove (file : string) : M (option error) :=
  λ w, let '(r, fs) := os_Remove V (w_fs w) file in
       let w' := mkWorld (w_store w) fs (w_progress w) (w_trace w) in
       match r with
       | Ok _ => (Ok None, w')
       | Err e => (Ok (Some e), w')
       | Panic => (Panic, w')
       | Diverge => (Diverge, w')
       end.

(** Runs [m] and hands its error, if any, to the caller as a value. *)
Definition catch {A} (m : M A) : M (error + A) :=
  λ w, match m w with
       | (Ok a, w') => (Ok (inr a), w')
       | (Err e, w') => (Ok (inl e), w')
       | (Panic, w') => (Panic, w')
       | (Diverge, w') => (Diverge, w')
       end.

(** The end of the loop body: the swap, then the purge of the old file if
    one was named. *)
Definition swapAndPurge (tf : Hash) (newSpecs : list tableSpec) (purgeFile : string)
    : M unit :=
  do! _ := swap tf newSpecs in
  if decide (0 < String.length purgeFile)%nat then
    do! err := remove purgeFile in
    match err with
    | Some _ => send (MsgPurgeFailed purgeFile)   (* failing to purge is non-fatal *)
    | None => ret ()
    end
  else ret ().

(** The body of [for _, tf := range allFiles]; returning [()] moves on to
    the next table file. *)
Definition archiveTableFile (dagGroups : ChunkRelations) (purge : bool) (path : string)
    (tf : Hash) : M unit :=
  if isJournalAddr E tf then ret ()
  else
    do! store := getStore in
    match upstreamLookup V store tf with
    | None =>
        (* the type test fails on a nil chunk source, the message is sent,
           and cs.index() panics *)
        do! _ := send (MsgArchiving tf) in
        lift Panic
    | Some cs =>
        if cs_isArchive cs then ret ()
        else
          do! _ := send (MsgArchiving tf) in
          do! idx := lift (cs_index cs) in
          let originalSize := tableFileSize idx in
          do! conv := catch (convertTableFileToArchive cs idx dagGroups path) in
          match conv with
          | inl err =>
              if isNotEnoughChunks err then send (MsgNotEnoughChunks (cs_hash cs))
              else fail err
          | inr (archivePath, archiveName, chkCnt) =>
              do! st := catch (stat archivePath) in
              match st with
              | inl err => do! _ := send MsgStatFailed in fail err
              | inr archiveSize =>
                  do! ver := catch (verifyAllChunks idx archivePath) in
                  match ver with
                  | inl err => do! _ := record (EvVerify tf (Some err)) in fail err
                  | inr _ =>
                      do! _ := record (EvVerify tf None) in
                      do! _ := send (MsgArchived archiveName originalSize archiveSize) in
                      do! store := getStore in
                      (* the error of toSpecs is overwritten unread *)
                      do! specs := lift (match toSpecs V store with
                                         | Err _ => Ok []
                                         | o => o
                                         end) in
                      let swapped :=
                        archiveSwapSpecs E path tf archiveName chkCnt purge specs in
                      swapAndPurge tf swapped.1 swapped.2
                  end
              end
          end
    end.

Definition archiveSingleBlockStore (dagGroups : ChunkRelations) (purge : bool) : M unit :=
  do! store := getStore in
  let path := bs_Path V store in
  let allFiles := upstreamKeys V store in
  foldM (λ _ tf, archiveTableFile dagGroups purge path tf) () allFiles.
End Pipeline.

Arguments gatherSample : clear implicits.
Arguments gatherSamples : clear implicits.
Arguments gatherAllChunks : clear implicits.
Arguments writeGroupChunk : clear implicits.
Arguments drainChunk E {S F} chunkCache defaultDict defaultSpanId totalChunks st addr.
Arguments verifyChunk E {S F} index chunkCount' chunkProgress h.

(** What the verifier asks of one hash. *)
Definition chunkOk (E : Externals) (index : archiveReader) (h : Hash) : Prop :=
  ar_has index h = true ∧ ∃ b, ar_get index h = Ok (Some b) ∧ hashOf E b = h.

(** The errors the verifier reports for a hash. *)
Definition verifyError (h : Hash) (e : error) : Prop :=
  e = errChunkNotFound h ∨ (∃ e', e = errReadingChunk h e') ∨ e = errNilData h
  ∨ e = errHashMismatch h.

(** A computation that leaves the block store and the call trace alone. *)
Definition keeps {S F A : Type} (m : @M S F A) : Prop :=
  ∀ w, w_store (m w).2 = w_store w ∧ w_trace (m w).2 = w_trace w.

(** Traces in which every swap directly follows a verification of the same
    table file that returned nil, and no verification failed. *)
Inductive gated : list event → Prop :=
| gated_nil : gated []
| gated_verified tr tf : gated tr → gated (tr ++ [EvVerify tf None])
| gated_swapped tr tf specs : gated tr → gated (tr ++ [EvVerify tf None; EvSwap tf specs]).

(** The world after ["Archiving TableFile %s"] was sent. *)
Definition announced {S F : Type} (tf : Hash) (w : world S F) : world S F :=
  mkWorld (w_store w) (w_fs w) (w_progress w ++ [MsgArchiving tf]) (w_trace w).

(** ** Notions used by the properties *)

(** The writer after further spans and index entries. *)
Record extends (aw aw' : archiveWriter) (spans : list bytes) (staged : list stagedChunkRef)
    : Prop := mkExtends {
  ext_spans : aw_spans aw' = aw_spans aw ++ spans;
  ext_staged : aw_staged aw' = aw_staged aw ++ staged;
  ext_seen : aw_seen aw' = aw_seen aw ∪ list_to_set (sc_hash <$> staged);
  ext_index : aw_index aw' = aw_index aw;
  ext_metadata : aw_metadata aw' = aw_metadata aw;
  ext_name : aw_name aw' = aw_name aw;
  ext_finalPath : aw_finalPath aw' = aw_finalPath aw;
}.

(** The chunk data the cache resolves a hash to. *)
Definition dataOf (E : Externals) (cache : simpleChunkSourceCache) (h : Hash) : bytes :=
  match cache_get E cache h with
  | Ok (Some c) => c_data c
  | _ => []
  end.

(** The index entries the drain adds for the hashes [l], the first span
    getting the number [next + 1]. *)
Fixpoint drained (sid : N) (next : nat) (l : list Hash) : list stagedChunkRef :=
  match l with
  | [] => []
  | h :: l' => mkStaged h sid (u32 (N.of_nat next + 1)) :: drained sid (Datatypes.S next) l'
  end.

(** The test [cg.totalBytesSavedWDict > cg.totalBytesSavedDefaultDict]. *)
Definition materialized {E : Externals} (cg : chunkGroup E) : Prop :=
  (totalBytesSavedDefaultDict E cg < totalBytesSavedWDict E cg)%Z.

#[global] Instance materialized_dec {E : Externals} (cg : chunkGroup E) :
  Decision (materialized cg) := Z_lt_dec _ _.

Definition groupIds {E : Externals} (cg : chunkGroup E) : gset Hash :=
  list_to_set (chunkId E <$> cg_chks E cg).

(** The members of the groups of [cgList] that pass the test. *)
Fixpoint materializedIds {E : Externals} (cgList : list (chunkGroup E)) : gset Hash :=
  match cgList with
  | [] => ∅
  | cg :: rest => (if decide (materialized cg) then groupIds cg else ∅) ∪ materializedIds rest
  end.

(** What holds of the counters and the writer while the groups are written:
    [A] are the addresses of the source, [mat] the members of the groups
    materialized so far. *)
Record groupInv (A mat : gset Hash) (grouped : N) (allChunks : gset Hash)
    (aw : archiveWriter) : Prop := mkGroupInv {
  gi_all : allChunks = A ∖ aw_seen aw;
  gi_count : grouped = u32 (N.of_nat (size (aw_seen aw)));
  gi_seen : aw_seen aw = list_to_set (sc_hash <$> aw_staged aw);
  gi_mat : aw_seen aw ⊆ mat;
  gi_nodup : NoDup (sc_hash <$> aw_staged aw);
}.

(** The number of groups of [cgList] that pass the test. *)
Definition materializedCount {E : Externals} (cgList : list (chunkGroup E)) : nat :=
  length (filter materialized cgList).

(** Sets that are disjoint two by two. *)
Fixpoint pairwiseDisjoint (l : list (gset Hash)) : Prop :=
  match l with
  | [] => True
  | x :: l' => (∀ y, y ∈ l' → x ## y) ∧ pairwiseDisjoint l'
  end.

Definition isOk {A} (o : outcome A) : bool :=
  match o with Ok _ => true | _ => false end.

(** A computation that only sends progress messages. *)
Definition quiet {S F A : Type} (m : @M S F A) : Prop :=
  ∀ w, ∃ msgs, (m w).2 = mkWorld (w_store w) (w_fs w) (w_progress w ++ msgs) (w_trace w).

(** The chunks the cache resolves. *)
Definition resolved (E : Externals) (cache : simpleChunkSourceCache) (c : Chunk) : Prop :=
  ∃ h, cache_get E cache h = Ok (Some c).

(** The hashes of [l] that are not in [seen], each once, in the order of
    their first occurrence. *)
Fixpoint freshIds (seen : gset Hash) (l : list Hash) : list Hash :=
  match l with
  | [] => []
  | h :: l' =>
      if decide (h ∈ seen) then freshIds seen l'
      else h :: freshIds (seen ∪ {[h]}) l'
  end.

(** An index entry written for a member of a group of [cgList] that passed
    the test: the dictionary span, written after the spans of [aw], holds the
    dictionary of the group and the data span the chunk compressed with it. *)
Definition groupEntry {E : Externals} (cache : simpleChunkSourceCache)
    (cgList : list (chunkGroup E)) (aw aw' : archiveWriter) (r : stagedChunkRef) : Prop :=
  ∃ cg, cg ∈ cgList ∧ materialized cg ∧ sc_hash r ∈ groupIds cg
        ∧ (length (aw_spans aw) < N.to_nat (sc_dict r))%nat
        ∧ (0 < sc_data r)%N
        ∧ aw_spans aw' !! Nat.pred (N.to_nat (sc_dict r)) = Some (zCompress E (cg_dict E cg))
        ∧ aw_spans aw' !! Nat.pred (N.to_nat (sc_data r))
          = Some (zCompressDict E (dataOf E cache (sc_hash r)) (cg_cDict E cg))
        ∧ ∃ ch, cache_get E cache (sc_hash r) = Ok (Some ch).

(** An index entry written by the ungrouped pass: it names the default
    dictionary span, and its data span holds the chunk compressed with the
    default dictionary. *)
Definition defaultEntry (E : Externals) (cache : simpleChunkSourceCache)
    (sid : N) (dd : bytes) (aw' : archiveWriter) (r : stagedChunkRef) : Prop :=
  sc_dict r = sid
  ∧ (0 < sc_data r)%N
  ∧ aw_spans aw' !! Nat.pred (N.to_nat (sc_data r))
    = Some (zCompressDict E (dataOf E cache (sc_hash r)) dd)
  ∧ ∃ ch, cache_get E cache (sc_hash r) = Ok (Some ch).




(** Two computations, over worlds that need not be of one type, that return
    the same value whenever both return. *)
Definition agreeM {S1 F1 S2 F2 A : Type} (m1 : @M S1 F1 A) (m2 : @M S2 F2 A) : Prop :=
  ∀ w1 w2 a1 a2 w1' w2', m1 w1 = (Ok a1, w1') → m2 w2 = (Ok a2, w2') → a1 = a2.

(** ** A small instance

    A concrete world to run the pipeline in: a polynomial digest, a
    "compression" that replaces the prefix shared with the
    dictionary by its length, a block store that is its manifest, and a file
    system that keeps the archives written to it. *)
Module Toy.
Definition digest (b : bytes) : Hash :=
  foldl (λ acc x, (acc * 257 + Byte.to_N x + 1) mod (2 ^ 89 - 1))%N 1%N b.

Fixpoint commonPrefix (src dict : bytes) : nat :=
  match src, dict with
  | x :: src', y :: dict' => if Byte.eqb x y then Datatypes.S (commonPrefix src' dict') else O
  | _, _ => O
  end.

Definition compressDict (src dict : bytes) : bytes :=
  let n := Nat.min (commonPrefix src dict) 255 in
  byteOfN (N.of_nat n) :: drop n src.

Definition decompressDict (data dict : bytes) : option bytes :=
  match data with
  | [] => None
  | x :: rest => Some (take (N.to_nat (Byte.to_N x)) dict ++ rest)
  end.

Definition marshal (m : gmap string string) : outcome bytes :=
  Ok (mjoin ((λ kv, String.list_byte_of_string kv.1 ++ String.list_byte_of_string kv.2) <$> map_to_list m)).

Definition ext : Externals := {|
  float64 := Z * Z;
  f64_ratio := pair;
  hashOf := digest;
  hashString := pretty;
  hashIsEmpty := λ h, bool_decide (h = 0%N);
  zBuildDict := λ samples size, take (N.to_nat size) (default [] (head samples));
  zNewCDict := λ _, None;
  zCompress := λ b, b;
  zCompressDict := compressDict;
  jsonMarshal := marshal;
  filepathJoin := λ dir file, dir +:+ "/" +:+ file;
  doltVersion := "1.0.0";
  amdkDoltVersion := "dolt_version";
  amdkConversionTime := "converted_at";
  amdkOriginTableFile := "origin_table_file";
  ArchiveFileSuffix := ".darc";
  archiveFormatVersion := 1%N;
  journalAddr := (2 ^ 160 - 1)%N;
  spanFault := λ _ _, None;
|}.

(** A table file holding [entries], one index entry each. *)
Definition tableFile (name : Hash) (entries : list bytes) : chunkSource := {|
  cs_hash := name;
  cs_index := Ok {|
    chunkCount := N.of_nat (length entries);
    indexEntry := λ i, match entries !! N.to_nat i with
                       | Some b => Ok (digest b)
                       | None => Err (errExternal 1)
                       end;
    tableFileSize := N.of_nat (length (mjoin entries));
  |};
  cs_get := λ h, Ok (list_find (λ b, digest b = h) entries ≫= λ ib, Some ib.2);
  cs_isArchive := false;
|}.

Record store : Type := mkStore {
  manifest : list tableSpec;
  files : list (Hash * chunkSource);
}.

Definition fileSystem : Type := list (string * archiveWriter).

Definition lookupFile (fs : fileSystem) (path : string) : option archiveWriter :=
  list_find (λ f, f.1 = path) fs ≫= λ ib, Some ib.2.2.

(** The decompression that goes with [compressDict]. *)
Definition decoder : Decoder := {|
  zDecompress := λ b, Ok b;
  zDecompressDict := λ data dict,
    match decompressDict data dict with
    | Some b => Ok b
    | None => Err (errExternal 4)
    end;
|}.

Definition reader (aw : archiveWriter) : archiveReader := archiveReaderOf decoder aw.

(** The environment; [drain] is the order in which the compression workers
    deliver and [now] the clock. *)
Definition env (drain : gset Hash → list Hash) (now : string) : Env ext store fileSystem := {|
  bs_Path := λ _, "noms";
  upstreamKeys := λ st, ts_name <$> manifest st;
  upstreamLookup := λ st h, list_find (λ f, f.1 = h) (files st) ≫= λ ib, Some ib.2.2;
  toSpecs := λ st, Ok (manifest st);
  swapTables := λ st newSpecs, (Ok (), mkStore newSpecs (files st));
  flushToFile := λ aw path fs, (Ok (), (path, aw) :: fs);
  os_Stat := λ fs path, match lookupFile fs path with
                        | Some aw => Ok (N.of_nat (length (mjoin (aw_spans aw))))
                        | None => Err (errExternal 2)
                        end;
  os_Remove := λ fs path, (Ok (), filter (λ f, f.1 ≠ path) fs);
  openArchive := λ fs path, match lookupFile fs path with
                            | Some aw => Ok (reader aw)
                            | None => Err (errExternal 2)
                            end;
  rangeHashSet := elements;
  rangeRelations := map_to_list;
  sortScores := λ l, l;
  sortGroups := λ l, l;
  drainOrder := drain;
  shuffle := reverse;
  timeNow := now;
  ctxDone := λ _, false;
|}.

Definition chunkData (i : nat) : bytes :=
  replicate (Datatypes.S (i `mod` 3)) (byteOfN (N.of_nat i)).

(** Thirty chunks, no duplicates. *)
Definition entries30 : list bytes := chunkData <$> seq 0 30.

(** Thirty index entries over five chunks. *)
Definition entriesDup : list bytes := (λ i, chunkData (i `mod` 5)) <$> seq 0 30.

(** Three chunks that share their first twenty bytes. *)
Definition sharedData (i : nat) : bytes :=
  replicate 20 (byteOfN 200) ++ [byteOfN (N.of_nat i)].

(** The thirty chunks and the three that share a prefix. *)
Definition entries33 : list bytes := entries30 ++ (sharedData <$> seq 0 3).

(** Thirty chunks, the first listed twice. *)
Definition entries31 : list bytes := chunkData 0 :: entries30.

Definition world0 (entries : list bytes) : world store fileSystem :=
  mkWorld (mkStore [mkSpec 77 (N.of_nat (length entries))] [(77%N, tableFile 77 entries)])
          [] [] [].

Definition clock : string := "2024-01-01T00:00:00Z".

Definition indexOf (entries : list bytes) : tableIndex :=
  match cs_index (tableFile 77 entries) with
  | Ok idx => idx
  | _ => mkIndex 0 (λ _, Err (errExternal 1)) 0
  end.

Definition convert (drain : gset Hash → list Hash) (entries : list bytes)
    (dag : ChunkRelations) : outcome (string * Hash * N) :=
  (convertTableFileToArchive (env drain clock) (tableFile 77 entries) (indexOf entries)
     dag "noms" (world0 entries)).1.
End Toy.


(** ** Further code of the archive builder

    The group operations the pipeline does not call, the cache in front of
    the chunk source, and the un-archive loop. *)

(** The hashes a list of pairs mentions. *)
Definition mentioned (pairs : list (Hash * Hash)) : gset Hash :=
  list_to_set (pairs.*1 ++ pairs.*2).

Section Grouping.
Context (E : Externals) (sortScores : list (chunkCmpScore E) → list (chunkCmpScore E)).

(** [cg.addChunk]: the receiver is updated in place, so the call is given
    with the group it leaves behind.  The placeholder is appended before
    [rebuild] runs and stays when [rebuild] returns early. *)
Definition addChunk (cg : chunkGroup E) (chunkCache : simpleChunkSourceCache) (c : Chunk)
    (defaultDict : bytes) : outcome unit * chunkGroup E :=
  let scored := mkScore E (c_hash c) None 0%Z 0%Z in
  let cg1 := mkGroup E (cg_dict E cg) (cg_cDict E cg) (cg_chks E cg ++ [scored])
               (totalRatioWDict E cg) (totalBytesSavedWDict E cg)
               (totalRatioDefaultDict E cg) (totalBytesSavedDefaultDict E cg)
               (avgRawChunkSize E cg) in
  match rebuild E sortScores cg1 chunkCache defaultDict with
  | Ok cg' => (Ok (), cg')
  | Err e => (Err e, cg1)
  | Panic => (Panic, cg1)
  | Diverge => (Diverge, cg1)
  end.
End Grouping.

(** The chunk the cache resolves a member to, if any. *)
Definition resolvedChunk (E : Externals) (csc : simpleChunkSourceCache)
    (sc : chunkCmpScore E) : option Chunk :=
  match cache_get E csc (chunkId E sc) with
  | Ok (Some c) => Some c
  | _ => None
  end.

(** The score [rebuild] gives a chunk under the group dictionary [cDict]. *)
Definition scoreOf (E : Externals) (cDict defaultDict : bytes) (c : Chunk) : chunkCmpScore E :=
  mkScore E (c_hash c)
    (Some (f64_ratio E (blen (c_data c) - blen (zCompressDict E (c_data c) cDict))%Z
             (blen (c_data c))))
    (blen (zCompressDict E (c_data c) cDict))
    (blen (zCompressDict E (c_data c) defaultDict)).

Definition sumZ {A} (f : A → Z) (l : list A) : Z := foldr (λ x acc, (f x + acc)%Z) 0%Z l.

(** The 2Q cache of the LRU library, as [get] uses it: [Get] and [Add] on
    a cache of type [C]. *)
Record lruCache (C : Type) : Type := mkLru {
  lru_Get : C → Hash → option Chunk * C;
  lru_Add : C → Hash → Chunk → C;
}.
Arguments lru_Get {C}.
Arguments lru_Add {C}.

Section CachedGet.
Context (E : Externals) {C : Type} (L : lruCache C).

(** [simpleChunkSourceCache.get], with the cache it reads and fills. *)
Definition csc_get (cs : chunkSource) (cache : C) (h : Hash) : outcome (option Chunk) * C :=
  match lru_Get L cache h with
  | (Some chk, cache) => (Ok (Some chk), cache)
  | (None, cache) =>
      match cs_get cs h with
      | Ok (Some b) => let chk := NewChunk E b in (Ok (Some chk), lru_Add L cache h chk)
      | Ok None => (Ok None, cache)
      | Err e => (Err e, cache)
      | Panic => (Panic, cache)
      | Diverge => (Diverge, cache)
      end
  end.

(** A sequence of calls of [get], each on the cache the one before left. *)
Fixpoint csc_gets (cs : chunkSource) (cache : C) (hs : list Hash)
    : list (outcome (option Chunk)) * C :=
  match hs with
  | [] => ([], cache)
  | h :: hs' =>
      let '(r, cache) := csc_get cs cache h in
      let '(rs, cache) := csc_gets cs cache hs' in
      (r :: rs, cache)
  end.
End CachedGet.

(** What is asked of the library: it hands out only what was added for the
    key, [contents] being what the cache holds; it may forget anything at any
    time. *)
Record lruSound {C : Type} (L : lruCache C) (contents : C → gmap Hash Chunk) : Prop := mkLruSound {
  lru_Get_sound : ∀ c h chk, (lru_Get L c h).1 = Some chk → contents c !! h = Some chk;
  lru_Get_keeps : ∀ c h, contents (lru_Get L c h).2 ⊆ contents c;
  lru_Add_only : ∀ c h chk, contents (lru_Add L c h chk) ⊆ <[h := chk]> (contents c);
}.

(** A cache that holds what the source resolves. *)
Definition coherent (E : Externals) (cs : chunkSource) (m : gmap Hash Chunk) : Prop :=
  ∀ h chk, m !! h = Some chk → cache_get E (mkCache cs) h = Ok (Some chk).

Module Toy2.
(** A cache with room for one chunk. *)
Definition oneSlot : lruCache (option (Hash * Chunk)) := {|
  lru_Get := λ c h, match c with
                    | Some (k, chk) => (if decide (k = h) then Some chk else None, c)
                    | None => (None, c)
                    end;
  lru_Add := λ _ h chk, Some (h, chk);
|}.

Definition oneSlotContents (c : option (Hash * Chunk)) : gmap Hash Chunk :=
  match c with
  | Some (k, chk) => {[k := chk]}
  | None => ∅
  end.
End Toy2.

(** The progress messages of a stage that has completed [k] of [total]
    steps, the first of them being step [from + 1]. *)
Definition stageMsgs (stage : string) (total : N) (from k : nat) : list progressMsg :=
  (λ j, MsgStage stage total (u32 (N.of_nat j))) <$> seq (Datatypes.S from) k.

(** What a recorded call does to the block store. *)
Definition applySwap {E : Externals} {S F : Type} (V : Env E S F) (st : S) (ev : event) : S :=
  match ev with
  | EvSwap _ newSpecs => (swapTables V st newSpecs).2
  | EvVerify _ _ => st
  end.

(** The file the archive loop names for the purge. *)
Definition purgeFileOf (E : Externals) (path : string) (tf : Hash) (purge : bool)
    (specs : list tableSpec) : string :=
  if purge && bool_decide (tf ∈ ts_name <$> specs)
  then filepathJoin E path (hashString E tf) else EmptyString.

(** What [unArchiveSingleBlockStore] asks of an archive chunk source and of
    the writer of classic table files, whose state is [T].  [arc_iterate] is
    given the callback and the writer the callback works on; [tw_AddChunk] is
    the callback: [ChunkToCompressedChunk], then [AddChunk]. *)
Record UnArchiveEnv (F T : Type) : Type := mkUnEnv {
  arc_count : chunkSource → outcome N;
  arc_iterate : chunkSource → (T → Chunk → outcome unit * T) → T → outcome unit * T;
  errCountFailed : Hash → error → error;   (* "failed to count chunks in archive %s: %w" *)
  NewCmpChunkTableWriter : outcome T;
  tw_AddChunk : T → Chunk → outcome unit * T;
  tw_Finish : T → outcome string * T;      (* the id of the new table file *)
  tw_FlushToFile : T → string → F → outcome unit * F;
  hashParse : string → Hash;
}.
Arguments arc_count {F T}.
Arguments arc_iterate {F T}.
Arguments errCountFailed {F T}.
Arguments NewCmpChunkTableWriter {F T}.
Arguments tw_AddChunk {F T}.
Arguments tw_Finish {F T}.
Arguments tw_FlushToFile {F T}.
Arguments hashParse {F T}.

Section UnArchive.
Context {E : Externals} {S F T : Type} (V : Env E S F) (U : UnArchiveEnv F T).
Local Abbreviation M := (@M S F).

Local Notation "'do!' x := m 'in' k" := (bindM m (λ x, k))
  (at level 10, x pattern, m at level 100, k at level 200, only parsing).

Definition flushTable (classicTable : T) (fileName : string) : M unit :=
  λ w, let '(r, fs) := tw_FlushToFile U classicTable fileName (w_fs w) in
       (r, mkWorld (w_store w) fs (w_progress w) (w_trace w)).

(** The end of the loop body: the swap, then the removal of the archive
    file, attempted whatever [purgeFile] is. *)
Definition swapAndRemove (id : Hash) (newSpecs : list tableSpec) (purgeFile : string)
    : M unit :=
  do! _ := swap V id newSpecs in
  do! err := remove V purgeFile in
  match err with
  | Some _ => send (MsgPurgeFailed purgeFile)   (* failing to purge is non-fatal *)
  | None => ret ()
  end.

(** The body of [for _, id := range allFiles]. *)
Definition unArchiveTableFile (outPath : string) (id : Hash) : M unit :=
  if isJournalAddr E id then ret ()
  else
    do! store := getStore in
    match upstreamLookup V store id with
    | None => ret ()                    (* the type assertion on nil is not ok *)
    | Some cs =>
        if negb (cs_isArchive cs) then ret ()
        else
          do! chkCnt := lift (match arc_count U cs with
                              | Err e => Err (errCountFailed U id e)
                              | o => o
                              end) in
          do! classicTable := lift (NewCmpChunkTableWriter U) in
          let iterated := arc_iterate U cs (tw_AddChunk U) classicTable in
          do! _ := lift iterated.1 in
          let finished := tw_Finish U iterated.2 in
          do! newId := lift finished.1 in
          do! _ := flushTable finished.2 (filepathJoin E outPath newId) in
          let newTF := hashParse U newId in
          do! store := getStore in
          (* the error of toSpecs is overwritten unread *)
          do! specs := lift (match toSpecs V store with
                             | Err _ => Ok []
                             | o => o
                             end) in
          let swapped := unArchiveSwapSpecs E outPath id newTF chkCnt specs in
          swapAndRemove id swapped.1 swapped.2
    end.

Definition unArchiveSingleBlockStore : M unit :=
  do! store := getStore in
  let outPath := bs_Path V store in
  let allFiles := upstreamKeys V store in
  foldM (λ _ id, unArchiveTableFile outPath id) () allFiles.
End UnArchive.

(** The file the un-archive loop names for the removal. *)
Definition archiveFileOf (E : Externals) (outPath : string) (id : Hash)
    (specs : list tableSpec) : string :=
  if bool_decide (id ∈ ts_name <$> specs)
  then filepathJoin E outPath (hashString E id +:+ ArchiveFileSuffix E) else EmptyString.

(** A computation that sends progress messages and hands at most one file
    to [flushToFile]. *)
Definition writesOnce {E : Externals} {S F A : Type} (V : Env E S F) (m : @M S F A) : Prop :=
  ∀ w, ∃ msgs fs,
    (m w).2 = mkWorld (w_store w) fs (w_progress w ++ msgs) (w_trace w)
    ∧ (fs = w_fs w ∨ ∃ arcW fileName, fs = (flushToFile V arcW fileName (w_fs w)).2).

(** The environment with another [os.Remove]. *)
Definition withRemove {E : Externals} {S F : Type} (V : Env E S F)
    (rm : F → string → outcome unit * F) : Env E S F :=
  mkEnv E S F (bs_Path V) (upstreamKeys V) (upstreamLookup V) (toSpecs V) (swapTables V)
    (flushToFile V) (os_Stat V) rm (openArchive V) (rangeHashSet V) (rangeRelations V)
    (sortScores V) (sortGroups V) (drainOrder V) (shuffle V) (timeNow V) (ctxDone V).

(** The environment with another order of [range] over a hash set. *)
Definition withRange {E : Externals} {S F : Type} (V : Env E S F)
    (range : gset Hash → list Hash) : Env E S F :=
  mkEnv E S F (bs_Path V) (upstreamKeys V) (upstreamLookup V) (toSpecs V) (swapTables V)
    (flushToFile V) (os_Stat V) (os_Remove V) (openArchive V) range (rangeRelations V)
    (sortScores V) (sortGroups V) (drainOrder V) (shuffle V) (timeNow V) (ctxDone V).

Module Toy3.
(** An archive in the block store, holding the thirty chunks. *)
Definition archivedSource : chunkSource := {|
  cs_hash := 5;
  cs_index := cs_index (Toy.tableFile 5 Toy.entries30);
  cs_get := cs_get (Toy.tableFile 5 Toy.entries30);
  cs_isArchive := true;
|}.

Definition worldArchived : world Toy.store Toy.fileSystem :=
  mkWorld (Toy.mkStore [mkSpec 5 30] [(5%N, archivedSource)])
          [("noms/5.darc", mkWriter [] [] ∅ [] [] None "noms/5.darc")] [] [].

Fixpoint iterateList {T} (cb : T → Chunk → outcome unit * T) (t : T) (l : list Chunk)
    : outcome unit * T :=
  match l with
  | [] => (Ok (), t)
  | c :: l' =>
      match cb t c with
      | (Ok _, t') => iterateList cb t' l'
      | (r, t') => (r, t')
      end
  end.

(** A writer of classic table files that keeps the chunks it is given. *)
Definition unEnv : UnArchiveEnv Toy.fileSystem (list Chunk) := {|
  arc_count := λ cs, match cs_index cs with
                     | Ok idx => Ok (chunkCount idx)
                     | Err e => Err e
                     | Panic => Panic
                     | Diverge => Diverge
                     end;
  arc_iterate := λ cs cb t, iterateList cb t (NewChunk Toy.ext <$> Toy.entries30);
  errCountFailed := λ _ e, e;
  NewCmpChunkTableWriter := Ok [];
  tw_AddChunk := λ t c, (Ok (), t ++ [c]);
  tw_Finish := λ t, (Ok (pretty (Toy.digest (mjoin (c_data <$> t)))), t);
  tw_FlushToFile := λ t path fs,
    (Ok (), (path, mkWriter (c_data <$> t) [] ∅ [] [] None path) :: fs);
  hashParse := λ s, Toy.digest (String.list_byte_of_string s);
|}.
End Toy3.


(** * Properties *)

(** ** Sample padding *)

Section PadSamplesFacts.
Context {A : Type}.
Implicit Types chks samples : list A.

Lemma appendAll_app samples chks : appendAll samples chks = samples ++ chks.
Proof.
  unfold appendAll. revert samples.
  induction chks as [|c chks IH]; intros samples; simpl.
  - by rewrite app_nil_r.
  - rewrite IH. by rewrite <- app_assoc.
Qed.

Lemma copies_snoc j chks :
  mjoin (replicate j chks) ++ chks = mjoin (replicate (Datatypes.S j) chks).
Proof.
  induction j as [|j IH]; simpl.
  - by rewrite app_nil_r.
  - simpl in IH. by rewrite <- app_assoc, IH.
Qed.

Lemma copies_length j chks :
  length (mjoin (replicate j chks)) = (j * length chks)%nat.
Proof.
  induction j as [|j IH]; simpl; [done|].
  rewrite length_app. simpl in IH. lia.
Qed.

Lemma padRounds_spec n :
  (0 < n)%nat →
  (7 ≤ padRounds n * n ∧ (padRounds n - 1) * n < 7 ∧ 1 ≤ padRounds n ≤ 7)%nat.
Proof.
  intros Hn. unfold padRounds.
  pose proof (Nat.div_mod_eq (7 + n - 1) n) as Hdm.
  pose proof (Nat.mod_upper_bound (7 + n - 1) n ltac:(lia)) as Hmod.
  set (k := ((7 + n - 1) `div` n)%nat) in *.
  set (r := ((7 + n - 1) `mod` n)%nat) in *.
  assert (1 ≤ k)%nat by (destruct k; [lia|lia]).
  split; [nia|]. split; [nia|]. split; [done|].
  destruct (decide (k ≤ 7)%nat); [done|nia].
Qed.

Lemma padRounds_large n : (7 ≤ n)%nat → padRounds n = 1%nat.
Proof.
  intros Hn. unfold padRounds.
  symmetry. apply (Nat.div_unique _ _ _ 6); lia.
Qed.

(** From [j] copies the loop runs until there are [padRounds] copies. *)
Lemma padSamples_loop_copies chks fuel j :
  chks ≠ [] →
  (j ≤ padRounds (length chks))%nat →
  (padRounds (length chks) - j ≤ fuel)%nat →
  padSamples_loop fuel chks (mjoin (replicate j chks))
  = Some (mjoin (replicate (padRounds (length chks)) chks)).
Proof.
  intros Hne.
  assert (0 < length chks)%nat as Hlen by (destruct chks; [done|simpl; lia]).
  destruct (padRounds_spec _ Hlen) as (Hk1 & Hk2 & Hk3).
  set (k := padRounds (length chks)) in *.
  revert j. induction fuel as [|fuel IH]; intros j Hj Hfuel.
  - assert (j = k) as -> by lia. simpl.
    rewrite copies_length. destruct (decide _) as [Hlt|_]; [lia|done].
  - simpl. rewrite copies_length.
    destruct (decide (j * length chks < 7)%nat) as [Hlt|Hge].
    + rewrite appendAll_app, copies_snoc.
      apply IH; [nia|lia].
    + assert (j = k) as -> by nia. done.
Qed.

Lemma padSamples_loop_enough chks fuel :
  chks ≠ [] → (7 ≤ fuel)%nat →
  padSamples_fuel fuel chks = Some (mjoin (replicate (padRounds (length chks)) chks)).
Proof.
  intros Hne Hfuel. unfold padSamples_fuel.
  assert (0 < length chks)%nat as Hlen by (destruct chks; [done|simpl; lia]).
  destruct (padRounds_spec _ Hlen) as (_ & _ & Hk).
  apply (padSamples_loop_copies chks fuel 0 Hne); lia.
Qed.

(** On the empty list no pass adds a sample: the loop outlasts every
    bound. *)
Lemma padSamples_loop_empty fuel : padSamples_fuel fuel ([] : list A) = None.
Proof. unfold padSamples_fuel. induction fuel as [|fuel IH]; simpl; done. Qed.

Lemma padSamples_nonempty chks :
  chks ≠ [] → padSamples chks = Ok (mjoin (replicate (padRounds (length chks)) chks)).
Proof.
  intros Hne. unfold padSamples. by rewrite padSamples_loop_enough.
Qed.

Lemma padSamples_empty : padSamples ([] : list A) = Diverge.
Proof. done. Qed.

Lemma copies_count `{EqDecision A} j chks (c : A) :
  count_occ (decide_rel (=)) (mjoin (replicate j chks)) c
  = (j * count_occ (decide_rel (=)) chks c)%nat.
Proof.
  induction j as [|j IH]; simpl; [done|].
  rewrite count_occ_app. simpl in IH. lia.
Qed.
End PadSamplesFacts.

(** C7. Equal replication: on a non-empty list [padSamples] returns
    [padRounds] wholesale copies of it, the least number of copies with at
    least 7 elements, so every chunk occurs [padRounds] times as often as in
    the input; a list of 7 or more chunks comes back as it is. *)
Theorem padSamples_equal_replication {A : Type} `{EqDecision A} (chks : list A) :
  chks ≠ [] →
  let k := padRounds (length chks) in
  let samples := mjoin (replicate k chks) in
  padSamples chks = Ok samples
  ∧ (7 ≤ length samples)%nat
  ∧ ((k - 1) * length chks < 7)%nat
  ∧ (∀ c, count_occ (decide_rel (=)) samples c = (k * count_occ (decide_rel (=)) chks c)%nat)
  ∧ (NoDup chks → ∀ c d, c ∈ chks → d ∈ chks →
       count_occ (decide_rel (=)) samples c = k ∧ count_occ (decide_rel (=)) samples d = k)
  ∧ ((7 ≤ length chks)%nat → padSamples chks = Ok chks).
Proof.
  intros Hne k samples.
  assert (0 < length chks)%nat as Hlen by (destruct chks; [done|simpl; lia]).
  destruct (padRounds_spec _ Hlen) as (Hk1 & Hk2 & Hk3).
  assert (∀ c, c ∈ chks → NoDup chks → count_occ (decide_rel (=)) chks c = 1%nat) as Hone.
  { intros c Hc Hnd. apply NoDup_ListNoDup in Hnd.
    apply (proj1 (List.NoDup_count_occ' (decide_rel (=)) chks) Hnd).
    by apply list_elem_of_In. }
  split; [by apply padSamples_nonempty|].
  split; [subst samples; rewrite copies_length; done|].
  split; [done|].
  split; [intros c; apply copies_count|].
  split.
  - intros Hnd c d Hc Hd. subst samples.
    rewrite !copies_count, !Hone by done. lia.
  - intros Hge. rewrite padSamples_nonempty by done.
    rewrite padRounds_large by done. simpl. by rewrite app_nil_r.
Qed.

Lemma padSamples_equal_replication_witness :
  padSamples [1%nat; 2%nat; 3%nat]
  = Ok [1%nat; 2%nat; 3%nat; 1%nat; 2%nat; 3%nat; 1%nat; 2%nat; 3%nat].
Proof.
  exact (proj1 (padSamples_equal_replication [1%nat; 2%nat; 3%nat] ltac:(discriminate))).
Defined.

(** ** Rebuilding a group needs a chunk the cache resolves *)

Section RebuildFacts.
Context (E : Externals) (sortScores : list (chunkCmpScore E) → list (chunkCmpScore E)).
Implicit Types (csc : simpleChunkSourceCache) (cg : chunkGroup E).

Lemma resolveChunks_none csc scs acc :
  (∀ cs, cs ∈ scs → cache_get E csc (chunkId E cs) = Ok None) →
  resolveChunks E csc scs acc = Ok acc.
Proof.
  revert acc. induction scs as [|cs scs IH]; intros acc Hall; simpl; [done|].
  rewrite (Hall cs) by set_solver. simpl.
  apply IH. intros cs' Hin. apply Hall. set_solver.
Qed.

Lemma resolveChunks_ok csc scs acc :
  (∀ cs, cs ∈ scs → ∃ o, cache_get E csc (chunkId E cs) = Ok o) →
  ∃ l, resolveChunks E csc scs acc = Ok (acc ++ l)
       ∧ ((∃ cs c, cs ∈ scs ∧ cache_get E csc (chunkId E cs) = Ok (Some c)) → l ≠ []).
Proof.
  revert acc. induction scs as [|cs scs IH]; intros acc Hall; simpl.
  - exists []. rewrite app_nil_r. split; [done|].
    intros (cs & c & Hin & _). set_solver.
  - destruct (Hall cs ltac:(set_solver)) as [o Ho]. rewrite Ho. simpl.
    destruct o as [c|].
    + destruct (IH (acc ++ [c]) ltac:(intros; apply Hall; set_solver)) as (l & Hl & _).
      exists (c :: l). rewrite Hl.
      split; [by rewrite <- app_assoc|done].
    + destruct (IH acc ltac:(intros; apply Hall; set_solver)) as (l & Hl & Hne).
      exists l. split; [done|].
      intros (cs' & c & Hin & Hget). apply Hne.
      apply elem_of_cons in Hin as [->|Hin]; [congruence|eauto].
Qed.

Lemma rebuild_unresolved cg csc defaultDict :
  (∀ cs, cs ∈ cg_chks E cg → cache_get E csc (chunkId E cs) = Ok None) →
  rebuild E sortScores cg csc defaultDict = Diverge.
Proof.
  intros Hall. unfold rebuild.
  by rewrite resolveChunks_none.
Qed.

Lemma rebuild_resolved cg csc defaultDict :
  (∀ cs, cs ∈ cg_chks E cg → ∃ o, cache_get E csc (chunkId E cs) = Ok o) →
  (∃ cs c, cs ∈ cg_chks E cg ∧ cache_get E csc (chunkId E cs) = Ok (Some c)) →
  (∃ cg', rebuild E sortScores cg csc defaultDict = Ok cg')
  ∨ (∃ e, rebuild E sortScores cg csc defaultDict = Err e).
Proof.
  intros Hall Hsome. unfold rebuild.
  destruct (resolveChunks_ok csc (cg_chks E cg) [] Hall) as (l & -> & Hne).
  specialize (Hne Hsome). simpl.
  rewrite padSamples_nonempty by done. simpl.
  unfold NewCDict. destruct (zNewCDict E _) as [e|]; simpl; [right; eauto|].
  destruct (foldl _ _ l) as [[[scored raw] dictSz] noDictSz].
  destruct (decide (length l = 0%nat)) as [Hz|_].
  - destruct l; [done|discriminate].
  - left. eauto.
Qed.
End RebuildFacts.

(** C10. [padSamples] terminates exactly on non-empty input: a pass over a
    non-empty list adds at least one sample and seven passes always suffice,
    while on the empty list a pass adds nothing and the loop outlasts every
    bound.  Accordingly [rebuild], which drops the members the cache does not
    resolve, hangs when no member resolves and returns when one does. *)
Theorem padSamples_terminates_iff_nonempty
    (E : Externals) (sortScores : list (chunkCmpScore E) → list (chunkCmpScore E))
    (csc : simpleChunkSourceCache) (cg : chunkGroup E) (defaultDict : bytes)
    (chks samples : list Chunk) (fuel : nat) :
  (chks ≠ [] →
     (length samples < length (appendAll samples chks))%nat
     ∧ ((7 ≤ fuel)%nat → is_Some (padSamples_fuel fuel chks))
     ∧ (∃ s, padSamples chks = Ok s))
  ∧ (appendAll samples [] = samples
     ∧ padSamples_fuel fuel ([] : list Chunk) = None
     ∧ padSamples ([] : list Chunk) = Diverge)
  ∧ ((∀ cs, cs ∈ cg_chks E cg → cache_get E csc (chunkId E cs) = Ok None) →
     rebuild E sortScores cg csc defaultDict = Diverge)
  ∧ ((∀ cs, cs ∈ cg_chks E cg → ∃ o, cache_get E csc (chunkId E cs) = Ok o) →
     (∃ cs c, cs ∈ cg_chks E cg ∧ cache_get E csc (chunkId E cs) = Ok (Some c)) →
     rebuild E sortScores cg csc defaultDict ≠ Diverge).
Proof.
  split; [|split; [|split]].
  - intros Hne. split; [|split].
    + rewrite appendAll_app, length_app.
      destruct chks; [done|simpl; lia].
    + intros Hfuel. rewrite padSamples_loop_enough by done. eauto.
    + rewrite padSamples_nonempty by done. eauto.
  - split; [done|]. split; [apply padSamples_loop_empty|done].
  - apply rebuild_unresolved.
  - intros Hall Hsome.
    destruct (rebuild_resolved E sortScores cg csc defaultDict Hall Hsome)
      as [[cg' ->]|[e ->]]; discriminate.
Qed.

(** ** The swap lists *)

Section SwapSpecsFacts.
Context (E : Externals).

Lemma archiveSwapStep_fold path tf archiveName chkCnt purge specs acc pf :
  (foldl (archiveSwapStep E path tf archiveName chkCnt purge) (acc, pf) specs).1
  = acc ++ (replaceSpec tf (mkSpec archiveName chkCnt) <$> specs).
Proof.
  revert acc pf. induction specs as [|spec specs IH]; intros acc pf; simpl.
  - by rewrite app_nil_r.
  - unfold replaceSpec at 1. destruct (decide (tf = ts_name spec));
      rewrite IH; by rewrite <- app_assoc.
Qed.

Lemma archiveSwapSpecs_map path tf archiveName chkCnt purge specs :
  (archiveSwapSpecs E path tf archiveName chkCnt purge specs).1
  = replaceSpec tf (mkSpec archiveName chkCnt) <$> specs.
Proof. apply archiveSwapStep_fold. Qed.

Lemma unArchiveSwapStep_fold outPath id newTF chkCnt specs acc pf :
  (foldl (unArchiveSwapStep E outPath id newTF chkCnt) (acc, pf) specs).1
  = acc ++ (replaceSpec id (mkSpec newTF chkCnt) <$> specs).
Proof.
  revert acc pf. induction specs as [|spec specs IH]; intros acc pf; simpl.
  - by rewrite app_nil_r.
  - unfold replaceSpec at 1. destruct (decide (id = ts_name spec));
      rewrite IH; by rewrite <- app_assoc.
Qed.

Lemma unArchiveSwapSpecs_map outPath id newTF chkCnt specs :
  (unArchiveSwapSpecs E outPath id newTF chkCnt specs).1
  = replaceSpec id (mkSpec newTF chkCnt) <$> specs.
Proof. apply unArchiveSwapStep_fold. Qed.

Lemma replaceSpec_other tf new (specs : list tableSpec) :
  tf ∉ ts_name <$> specs → replaceSpec tf new <$> specs = specs.
Proof.
  induction specs as [|spec specs IH]; intros Hnot; [done|].
  rewrite fmap_cons in Hnot. apply not_elem_of_cons in Hnot as [Hne Hnot].
  rewrite fmap_cons, IH by done.
  unfold replaceSpec. by rewrite decide_False.
Qed.

Lemma replaceSpec_split tf new (specs : list tableSpec) :
  NoDup (ts_name <$> specs) → tf ∈ ts_name <$> specs →
  ∃ before old after,
    specs = before ++ old :: after ∧ ts_name old = tf
    ∧ replaceSpec tf new <$> specs = before ++ new :: after.
Proof.
  intros Hnd Hin.
  apply list_elem_of_fmap in Hin as (old & Hname & Hin).
  apply list_elem_of_split in Hin as (before & after & ->).
  exists before, old, after. split; [done|]. split; [done|].
  rewrite fmap_app, fmap_cons in Hnd.
  apply NoDup_app in Hnd as (_ & Hdisj & Hnd).
  apply NoDup_cons in Hnd as [Hafter _].
  rewrite fmap_app, fmap_cons.
  rewrite !replaceSpec_other.
  - unfold replaceSpec. by rewrite decide_True.
  - by rewrite Hname.
  - intros Hb. apply (Hdisj _ Hb). rewrite Hname. constructor.
Qed.
End SwapSpecsFacts.

(** C8. Swap frame: when the manifest names the old container once, the new
    spec list of either swap loop is the old list with that one entry
    replaced by (new container address, new chunk count); every other spec
    keeps its value and its position. *)
Theorem swapSpecs_frame (E : Externals) (path : string) (old new : Hash) (chkCnt : N)
    (purge : bool) (specs : list tableSpec) :
  NoDup (ts_name <$> specs) →
  old ∈ ts_name <$> specs →
  ∃ before entry after,
    specs = before ++ entry :: after
    ∧ ts_name entry = old
    ∧ (archiveSwapSpecs E path old new chkCnt purge specs).1
      = before ++ mkSpec new chkCnt :: after
    ∧ (unArchiveSwapSpecs E path old new chkCnt specs).1
      = before ++ mkSpec new chkCnt :: after.
Proof.
  intros Hnd Hin.
  destruct (replaceSpec_split old (mkSpec new chkCnt) specs Hnd Hin)
    as (before & entry & after & Hspecs & Hname & Hrep).
  exists before, entry, after.
  rewrite archiveSwapSpecs_map, unArchiveSwapSpecs_map. done.
Qed.

(** ** Chunk relations *)

Lemma deref_elem_lt heap p (h : Hash) : h ∈ deref heap p → (p < length heap)%nat.
Proof.
  unfold deref. destruct (heap !! p) eqn:Hp; simpl.
  - intros _. by eapply lookup_lt_Some.
  - set_solver.
Qed.

Lemma deref_app_l heap s p : (p < length heap)%nat → deref (heap ++ [s]) p = deref heap p.
Proof. intros Hp. unfold deref. by rewrite lookup_app_l. Qed.

Lemma deref_app_new heap s : deref (heap ++ [s]) (length heap) = s.
Proof. unfold deref. by rewrite list_lookup_middle. Qed.

Lemma deref_alter_eq f heap p :
  (p < length heap)%nat → deref (alter f p heap) p = f (deref heap p).
Proof.
  intros Hp. unfold deref. rewrite list_lookup_alter_eq.
  destruct (lookup_lt_is_Some_2 heap p Hp) as [s ->]. done.
Qed.

Lemma deref_alter_ne f heap p q : p ≠ q → deref (alter f p heap) q = deref heap q.
Proof. intros Hne. unfold deref. by rewrite list_lookup_alter_ne. Qed.

Lemma lookup_repoint (p : nat) (m : gmap Hash nat) (X : gset Hash) h :
  set_fold (λ h m', <[h := p]> m') m X !! h = if decide (h ∈ X) then Some p else m !! h.
Proof.
  revert h.
  refine (set_fold_ind_L (λ r (Y : gset Hash), ∀ h, r !! h = if decide (h ∈ Y) then Some p else m !! h) _ m _ _ X).
  - intros h. rewrite decide_False; [done|set_solver].
  - intros x Y r Hx IH h. rewrite lookup_insert. 
    destruct (decide (x = h)) as [->|Hne].
    + rewrite decide_True; [done|set_solver].
    + rewrite IH. destruct (decide (h ∈ Y)).
      * rewrite decide_True; [done|set_solver].
      * rewrite decide_False; [done|set_solver].
Qed.

Lemma NewHashSet_pair (a b : Hash) : NewHashSet [a; b] = {[a; b]}.
Proof. unfold NewHashSet. simpl. set_solver. Qed.

Lemma NewHashSet_nil : NewHashSet [] = ∅.
Proof. done. Qed.

Lemma wf_ptr_lt cr h p :
  wfRelations cr → manyToGroup cr !! h = Some p → (p < length (groupHeap cr))%nat.
Proof. intros Hwf Hh. eapply deref_elem_lt. by eapply wf_member. Qed.

Lemma wf_elem_iff cr h p x :
  wfRelations cr → manyToGroup cr !! h = Some p →
  x ∈ deref (groupHeap cr) p ↔ manyToGroup cr !! x = Some p.
Proof.
  intros Hwf Hh. split.
  - by eapply wf_closed.
  - by eapply wf_member.
Qed.

Lemma wf_New : wfRelations NewChunkRelations.
Proof. split; intros h p; simpl; by rewrite lookup_empty. Qed.

Section AddCases.
Context (cr : ChunkRelations) (a b : Hash) (Hwf : wfRelations cr).
Local Abbreviation m := (manyToGroup cr).
Local Abbreviation heap := (groupHeap cr).

Lemma Add_fresh :
  m !! a = None → m !! b = None →
  Add a b cr = mkRelations (<[b := length heap]> (<[a := length heap]> m))
                           (heap ++ [{[a; b]}]).
Proof. intros Ha Hb. unfold Add. rewrite Ha, Hb. by rewrite NewHashSet_pair. Qed.

Lemma Add_left pa :
  m !! a = Some pa → m !! b = None →
  Add a b cr = mkRelations (<[b := pa]> m) (alter (λ s, s ∪ {[b]}) pa heap).
Proof. intros Ha Hb. unfold Add. by rewrite Ha, Hb. Qed.

Lemma Add_right pb :
  m !! a = None → m !! b = Some pb →
  Add a b cr = mkRelations (<[a := pb]> m) (alter (λ s, s ∪ {[a]}) pb heap).
Proof. intros Ha Hb. unfold Add. by rewrite Ha, Hb. Qed.

Lemma Add_same p :
  m !! a = Some p → m !! b = Some p → Add a b cr = cr.
Proof. intros Ha Hb. unfold Add. rewrite Ha, Hb. by rewrite decide_True. Qed.

Lemma Add_merge pa pb :
  m !! a = Some pa → m !! b = Some pb → pa ≠ pb →
  Add a b cr = mkRelations
                 (set_fold (λ h m', <[h := length heap]> m') m (deref heap pa ∪ deref heap pb))
                 (heap ++ [deref heap pa ∪ deref heap pb]).
Proof.
  intros Ha Hb Hne. unfold Add. rewrite Ha, Hb.
  rewrite decide_False by done. rewrite NewHashSet_nil.
  by rewrite (left_id_L ∅ (∪)).
Qed.

Lemma Add_wf : wfRelations (Add a b cr).
Proof.
  destruct (m !! a) as [pa|] eqn:Ha; destruct (m !! b) as [pb|] eqn:Hb.
  - destruct (decide (pa = pb)) as [->|Hne]; [by rewrite (Add_same pb)|].
    rewrite (Add_merge pa pb) by done.
    set (merged := deref heap pa ∪ deref heap pb).
    assert (∀ x, x ∈ merged ↔ m !! x = Some pa ∨ m !! x = Some pb) as Hmerged.
    { intros x. unfold merged. rewrite elem_of_union.
      by rewrite (wf_elem_iff cr a pa x), (wf_elem_iff cr b pb x). }
    split; simpl; intros h p; rewrite lookup_repoint.
    + destruct (decide (h ∈ merged)) as [Hin|Hnin]; intros Hp.
      * injection Hp as <-. by rewrite deref_app_new.
      * rewrite deref_app_l by (by eapply wf_ptr_lt). by eapply wf_member.
    + intros h'. rewrite lookup_repoint.
      destruct (decide (h ∈ merged)) as [Hin|Hnin]; intros Hp.
      * injection Hp as <-. rewrite deref_app_new. intros Hin'.
        by rewrite decide_True.
      * rewrite deref_app_l by (by eapply wf_ptr_lt). intros Hin'.
        pose proof (wf_closed cr Hwf h p h' Hp Hin') as Hh'.
        rewrite decide_False; [done|].
        rewrite Hmerged. rewrite Hh'.
        intros [[= ->]|[= ->]]; apply Hnin, Hmerged; eauto.
  - rewrite (Add_left pa) by done.
    assert (pa < length heap)%nat as Hlt by (by eapply wf_ptr_lt).
    split; simpl; intros h p.
    + rewrite lookup_insert. destruct (decide (b = h)) as [<-|Hne]; intros Hp.
      * injection Hp as <-. rewrite deref_alter_eq by done. set_solver.
      * destruct (decide (pa = p)) as [->|Hpp].
        -- rewrite deref_alter_eq by done. apply elem_of_union_l. by eapply wf_member.
        -- rewrite deref_alter_ne by done. by eapply wf_member.
    + intros h'. rewrite !lookup_insert.
      destruct (decide (b = h)) as [<-|Hne]; intros Hp.
      * injection Hp as <-. rewrite deref_alter_eq by done.
        intros [Hin| ->%elem_of_singleton]%elem_of_union.
        -- destruct (decide (b = h')); [done|]. by eapply wf_closed.
        -- by rewrite decide_True.
      * destruct (decide (pa = p)) as [->|Hpp].
        -- rewrite deref_alter_eq by done.
           intros [Hin| ->%elem_of_singleton]%elem_of_union.
           ++ destruct (decide (b = h')); [done|]. by eapply wf_closed.
           ++ by rewrite decide_True.
        -- rewrite deref_alter_ne by done. intros Hin.
           pose proof (wf_closed cr Hwf h p h' Hp Hin) as Hh'.
           destruct (decide (b = h')) as [<-|]; [|done].
           congruence.
  - rewrite (Add_right pb) by done.
    assert (pb < length heap)%nat as Hlt by (by eapply wf_ptr_lt).
    split; simpl; intros h p.
    + rewrite lookup_insert. destruct (decide (a = h)) as [<-|Hne]; intros Hp.
      * injection Hp as <-. rewrite deref_alter_eq by done. set_solver.
      * destruct (decide (pb = p)) as [->|Hpp].
        -- rewrite deref_alter_eq by done. apply elem_of_union_l. by eapply wf_member.
        -- rewrite deref_alter_ne by done. by eapply wf_member.
    + intros h'. rewrite !lookup_insert.
      destruct (decide (a = h)) as [<-|Hne]; intros Hp.
      * injection Hp as <-. rewrite deref_alter_eq by done.
        intros [Hin| ->%elem_of_singleton]%elem_of_union.
        -- destruct (decide (a = h')); [done|]. by eapply wf_closed.
        -- by rewrite decide_True.
      * destruct (decide (pb = p)) as [->|Hpp].
        -- rewrite deref_alter_eq by done.
           intros [Hin| ->%elem_of_singleton]%elem_of_union.
           ++ destruct (decide (a = h')); [done|]. by eapply wf_closed.
           ++ by rewrite decide_True.
        -- rewrite deref_alter_ne by done. intros Hin.
           pose proof (wf_closed cr Hwf h p h' Hp Hin) as Hh'.
           destruct (decide (a = h')) as [<-|]; [|done].
           congruence.
  - rewrite Add_fresh by done.
    split; simpl; intros h p.
    + rewrite !lookup_insert.
      destruct (decide (b = h)) as [<-|Hnb]; [|destruct (decide (a = h)) as [<-|Hna]];
        intros Hp.
      * injection Hp as <-. rewrite deref_app_new. set_solver.
      * injection Hp as <-. rewrite deref_app_new. set_solver.
      * rewrite deref_app_l by (by eapply wf_ptr_lt). by eapply wf_member.
    + intros h'. rewrite !lookup_insert.
      assert (∀ q, m !! h = Some q → h' ∈ deref (heap ++ [{[a; b]}]) q →
                   (if decide (b = h') then Some (length heap)
                    else if decide (a = h') then Some (length heap) else m !! h') = Some q)
        as Hold.
      { intros q Hq. rewrite deref_app_l by (by eapply wf_ptr_lt). intros Hin.
        pose proof (wf_closed cr Hwf h q h' Hq Hin) as Hh'.
        destruct (decide (b = h')) as [<-|]; [congruence|].
        destruct (decide (a = h')) as [<-|]; [congruence|done]. }
      assert (h' ∈ deref (heap ++ [{[a; b]}]) (length heap) →
              (if decide (b = h') then Some (length heap)
               else if decide (a = h') then Some (length heap) else m !! h')
              = Some (length heap)) as Hnew.
      { rewrite deref_app_new. intros Hin.
        destruct (decide (b = h')); [done|]. destruct (decide (a = h')); [done|].
        set_solver. }
      destruct (decide (b = h)) as [<-|Hnb]; [|destruct (decide (a = h)) as [<-|Hna]];
        intros Hp.
      * injection Hp as <-. apply Hnew.
      * injection Hp as <-. apply Hnew.
      * by apply Hold.
Qed.
End AddCases.

Lemma AddAll_snoc pairs a b cr : AddAll (pairs ++ [(a, b)]) cr = Add a b (AddAll pairs cr).
Proof. unfold AddAll. by rewrite foldl_app. Qed.

Lemma AddAll_wf pairs : wfRelations (AddAll pairs NewChunkRelations).
Proof.
  induction pairs as [|[a b] pairs IH] using rev_ind.
  - apply wf_New.
  - rewrite AddAll_snoc. by apply Add_wf.
Qed.

Lemma sameGroup_known cr x a pa :
  manyToGroup cr !! a = Some pa → sameGroup cr x a ↔ manyToGroup cr !! x = Some pa.
Proof.
  intros Ha. unfold sameGroup. split.
  - intros (p & Hx & Ha'). congruence.
  - intros Hx. eauto.
Qed.

Lemma sameGroup_unknown cr x a :
  manyToGroup cr !! a = None → ¬ sameGroup cr x a.
Proof. intros Ha (p & _ & Ha'). congruence. Qed.

Lemma sameGroup_sym cr x y : sameGroup cr x y → sameGroup cr y x.
Proof. intros (p & Hx & Hy). exists p. done. Qed.

Lemma sameGroup_trans cr x y z : sameGroup cr x y → sameGroup cr y z → sameGroup cr x z.
Proof. intros (p & Hx & Hy) (q & Hy' & Hz). exists p. split; congruence. Qed.

Lemma sameGroup_Add cr a b x y :
  wfRelations cr →
  sameGroup (Add a b cr) x y ↔ sameGroup cr x y ∨ (touches cr a b x ∧ touches cr a b y).
Proof.
  intros Hwf. unfold touches.
  destruct (manyToGroup cr !! a) as [pa|] eqn:Ha;
    destruct (manyToGroup cr !! b) as [pb|] eqn:Hb.
  - destruct (decide (pa = pb)) as [->|Hne].
    + rewrite (Add_same cr a b pb) by done.
      split; [by left|]. intros [H|[Hx Hy]]; [done|].
      assert (∀ z, z = a ∨ z = b ∨ sameGroup cr z a ∨ sameGroup cr z b →
                   manyToGroup cr !! z = Some pb) as Hz.
      { intros z [->|[->|[H|H]]]; [done|done| |].
        - by apply (sameGroup_known cr z a pb).
        - by apply (sameGroup_known cr z b pb). }
      exists pb. split; by apply Hz.
    + rewrite (Add_merge cr a b pa pb) by done. unfold sameGroup at 1. simpl.
      set (merged := deref (groupHeap cr) pa ∪ deref (groupHeap cr) pb).
      assert (∀ z, z ∈ merged ↔ z = a ∨ z = b ∨ sameGroup cr z a ∨ sameGroup cr z b)
        as Hmerged.
      { intros z. unfold merged. rewrite elem_of_union.
        rewrite (wf_elem_iff cr a pa z), (wf_elem_iff cr b pb z) by done.
        rewrite (sameGroup_known cr z a pa), (sameGroup_known cr z b pb) by done.
        split; [tauto|]. intros [->|[->|[H|H]]]; tauto. }
      split.
      * intros (p & Hx & Hy). rewrite lookup_repoint in Hx, Hy.
        destruct (decide (x ∈ merged)) as [Hxm|Hxm];
          destruct (decide (y ∈ merged)) as [Hym|Hym].
        -- right. split; by apply Hmerged.
        -- injection Hx as <-. apply (wf_ptr_lt cr y _ Hwf) in Hy. lia.
        -- injection Hy as <-. apply (wf_ptr_lt cr x _ Hwf) in Hx. lia.
        -- left. by exists p.
      * intros [(p & Hx & Hy)|[Hx Hy]].
        -- destruct (decide (x ∈ merged)) as [Hxm|Hxm].
           ++ exists (length (groupHeap cr)). rewrite !lookup_repoint.
              rewrite decide_True by done. rewrite decide_True; [done|].
              apply Hmerged. apply Hmerged in Hxm.
              destruct Hxm as [->|[->|[H|H]]].
              ** right; right; left. apply sameGroup_sym. by exists p.
              ** right; right; right. apply sameGroup_sym. by exists p.
              ** right; right; left. apply sameGroup_trans with x; [|done].
                 apply sameGroup_sym. by exists p.
              ** right; right; right. apply sameGroup_trans with x; [|done].
                 apply sameGroup_sym. by exists p.
           ++ exists p. rewrite !lookup_repoint.
              rewrite decide_False by done. rewrite decide_False; [done|].
              intros Hym. apply Hxm. apply Hmerged. apply Hmerged in Hym.
              destruct Hym as [->|[->|[H|H]]].
              ** right; right; left. by exists p.
              ** right; right; right. by exists p.
              ** right; right; left. apply sameGroup_trans with y; [|done]. by exists p.
              ** right; right; right. apply sameGroup_trans with y; [|done]. by exists p.
        -- exists (length (groupHeap cr)). rewrite !lookup_repoint.
           rewrite !decide_True; [done| |]; by apply Hmerged.
  - rewrite (Add_left cr a b pa) by done. unfold sameGroup at 1. simpl.
    assert (a ≠ b) as Hab by congruence.
    assert (∀ z, z = a ∨ z = b ∨ sameGroup cr z a ∨ sameGroup cr z b →
                 <[b := pa]> (manyToGroup cr) !! z = Some pa) as Hz.
    { intros z [->|[->|[H|H]]].
      - by rewrite lookup_insert_ne.
      - by rewrite lookup_insert_eq.
      - apply (sameGroup_known cr z a pa) in H; [|done].
        rewrite lookup_insert_ne; [done|congruence].
      - by apply sameGroup_unknown in H. }
    split.
    + intros (p & Hx & Hy). rewrite lookup_insert in Hx, Hy.
      destruct (decide (b = x)) as [<-|Hbx]; destruct (decide (b = y)) as [<-|Hby].
      * right. tauto.
      * injection Hx as <-. right. split; [tauto|].
        right; right; left. by apply (sameGroup_known cr y a pa).
      * injection Hy as <-. right. split; [|tauto].
        right; right; left. by apply (sameGroup_known cr x a pa).
      * left. by exists p.
    + intros [(p & Hx & Hy)|[Hx Hy]].
      * exists p. rewrite !lookup_insert_ne by congruence. done.
      * exists pa. split; by apply Hz.
  - rewrite (Add_right cr a b pb) by done. unfold sameGroup at 1. simpl.
    assert (a ≠ b) as Hab by congruence.
    assert (∀ z, z = a ∨ z = b ∨ sameGroup cr z a ∨ sameGroup cr z b →
                 <[a := pb]> (manyToGroup cr) !! z = Some pb) as Hz.
    { intros z [->|[->|[H|H]]].
      - by rewrite lookup_insert_eq.
      - by rewrite lookup_insert_ne.
      - by apply sameGroup_unknown in H.
      - apply (sameGroup_known cr z b pb) in H; [|done].
        rewrite lookup_insert_ne; [done|congruence]. }
    split.
    + intros (p & Hx & Hy). rewrite lookup_insert in Hx, Hy.
      destruct (decide (a = x)) as [<-|Hbx]; destruct (decide (a = y)) as [<-|Hby].
      * right. tauto.
      * injection Hx as <-. right. split; [tauto|].
        right; right; right. by apply (sameGroup_known cr y b pb).
      * injection Hy as <-. right. split; [|tauto].
        right; right; right. by apply (sameGroup_known cr x b pb).
      * left. by exists p.
    + intros [(p & Hx & Hy)|[Hx Hy]].
      * exists p. rewrite !lookup_insert_ne by congruence. done.
      * exists pb. split; by apply Hz.
  - rewrite (Add_fresh cr a b) by done. unfold sameGroup at 1. simpl.
    assert (∀ z, z = a ∨ z = b ∨ sameGroup cr z a ∨ sameGroup cr z b →
                 <[b := length (groupHeap cr)]> (<[a := length (groupHeap cr)]> (manyToGroup cr)) !! z
                 = Some (length (groupHeap cr))) as Hz.
    { intros z [->|[->|[H|H]]].
      - rewrite lookup_insert. destruct (decide (b = a)); [done|]. by rewrite lookup_insert_eq.
      - by rewrite lookup_insert_eq.
      - by apply sameGroup_unknown in H.
      - by apply sameGroup_unknown in H. }
    assert (∀ z p, <[b := length (groupHeap cr)]> (<[a := length (groupHeap cr)]> (manyToGroup cr)) !! z = Some p →
                   (z = a ∨ z = b) ∧ p = length (groupHeap cr)
                   ∨ (z ≠ a ∧ z ≠ b ∧ manyToGroup cr !! z = Some p ∧ p ≠ length (groupHeap cr)))
      as Hinv.
    { intros z p. rewrite !lookup_insert.
      destruct (decide (b = z)) as [<-|Hbz]; [intros [= <-]; left; tauto|].
      destruct (decide (a = z)) as [<-|Haz]; [intros [= <-]; left; tauto|].
      intros Hp. right. split; [done|]. split; [done|]. split; [done|].
      apply (wf_ptr_lt cr z p Hwf) in Hp. lia. }
    split.
    + intros (p & Hx & Hy).
      apply Hinv in Hx as [[Hx ->]|(Hxa & Hxb & Hx & Hp)];
        apply Hinv in Hy as [[Hy Hq]|(Hya & Hyb & Hy & Hq)]; try done.
      * right. split; tauto.
      * left. by exists p.
    + intros [(p & Hx & Hy)|[Hx Hy]].
      * exists p. rewrite !lookup_insert_ne by congruence. done.
      * exists (length (groupHeap cr)). split; by apply Hz.
Qed.

Lemma related_snoc_mono pairs ab x y :
  related pairs x y → related (pairs ++ [ab]) x y.
Proof.
  induction 1.
  - apply related_pair, elem_of_app. by left.
  - eapply related_refl_l, elem_of_app. left. done.
  - eapply related_refl_r, elem_of_app. left. done.
  - by apply related_sym.
  - by eapply related_trans.
Qed.

Lemma sameGroup_related pairs x y :
  sameGroup (AddAll pairs NewChunkRelations) x y ↔ related pairs x y.
Proof.
  revert x y. induction pairs as [|[a b] pairs IH] using rev_ind; intros x y.
  - split.
    + intros (p & Hx & _). simpl in Hx. by rewrite lookup_empty in Hx.
    + induction 1; try (by apply elem_of_nil in H).
      * by apply sameGroup_sym.
      * by eapply sameGroup_trans.
  - rewrite AddAll_snoc, sameGroup_Add by apply AddAll_wf.
    unfold touches. rewrite !IH.
    assert (related (pairs ++ [(a, b)]) a b) as Hab by (apply related_pair, elem_of_app; right; constructor).
    assert (related (pairs ++ [(a, b)]) a a) as Haa by (eapply related_refl_l, elem_of_app; right; constructor).
    assert (related (pairs ++ [(a, b)]) b b) as Hbb by (eapply related_refl_r, elem_of_app; right; constructor).
    assert (∀ z, z = a ∨ z = b ∨ related pairs z a ∨ related pairs z b →
                 related (pairs ++ [(a, b)]) z a) as Hz.
    { intros z [->|[->|[H|H]]].
      - done.
      - by apply related_sym.
      - by apply related_snoc_mono.
      - eapply related_trans; [by apply related_snoc_mono|by apply related_sym]. }
    split.
    + intros [H|[Hx Hy]].
      * by apply related_snoc_mono.
      * eapply related_trans; [by apply Hz|apply related_sym; by apply Hz].
    + induction 1 as [c d Hin|c d Hin|c d Hin|c d H1 IH1|c d e H1 IH1 H2 IH2].
      * apply elem_of_app in Hin as [Hin|Hin].
        -- left. by apply related_pair.
        -- apply list_elem_of_singleton in Hin as [= -> ->]. right. tauto.
      * apply elem_of_app in Hin as [Hin|Hin].
        -- left. by eapply related_refl_l.
        -- apply list_elem_of_singleton in Hin as [= -> ->]. right. tauto.
      * apply elem_of_app in Hin as [Hin|Hin].
        -- left. by eapply related_refl_r.
        -- apply list_elem_of_singleton in Hin as [= -> ->]. right. tauto.
      * destruct IH1 as [H|[Hc Hd]]; [left; by apply related_sym|right; tauto].
      * assert (∀ u v, related pairs u v →
                  u = a ∨ u = b ∨ related pairs u a ∨ related pairs u b →
                  v = a ∨ v = b ∨ related pairs v a ∨ related pairs v b) as Hmove.
        { intros u v Huv [->|[->|[H|H]]].
          - right; right; left. by apply related_sym.
          - right; right; right. by apply related_sym.
          - right; right; left. eapply related_trans; [by apply related_sym|done].
          - right; right; right. eapply related_trans; [by apply related_sym|done]. }
        destruct IH1 as [Hcd|[Hc Hd]]; destruct IH2 as [Hde|[Hd' He]].
        -- left. by eapply related_trans.
        -- right. split; [|done]. eapply Hmove; [apply related_sym, Hcd|done].
        -- right. split; [done|]. eapply Hmove; [apply Hde|done].
        -- right. tauto.
Qed.

Lemma groups_fold heap kvs ps :
  foldl (groups_step heap) (deref heap <$> ps, list_to_set ps) kvs
  = (deref heap <$> foldl groupPtrs_step ps kvs, list_to_set (foldl groupPtrs_step ps kvs)).
Proof.
  revert ps. induction kvs as [|[h p] kvs IH]; intros ps; simpl; [done|].
  unfold groupPtrs_step at 2 4. simpl.
  destruct (decide (p ∈ ps)) as [Hin|Hnin].
  - rewrite decide_True by (by apply elem_of_list_to_set). apply IH.
  - rewrite decide_False by (by rewrite elem_of_list_to_set).
    rewrite <- IH. f_equal. rewrite fmap_app. f_equal.
    rewrite list_to_set_app_L. simpl. by rewrite (right_id_L ∅ (∪)).
Qed.

Lemma groupPtrs_fold_elem kvs ps p :
  p ∈ foldl groupPtrs_step ps kvs ↔ p ∈ ps ∨ p ∈ kvs.*2.
Proof.
  revert ps. induction kvs as [|[h q] kvs IH]; intros ps; simpl.
  - rewrite elem_of_nil. tauto.
  - rewrite IH, elem_of_cons. unfold groupPtrs_step. simpl.
    destruct (decide (q ∈ ps)) as [Hin|Hnin].
    + split; [tauto|]. intros [H|[->|H]]; tauto.
    + rewrite elem_of_app, list_elem_of_singleton. tauto.
Qed.

Lemma groupPtrs_fold_NoDup kvs ps : NoDup ps → NoDup (foldl groupPtrs_step ps kvs).
Proof.
  revert ps. induction kvs as [|[h q] kvs IH]; intros ps Hnd; simpl; [done|].
  apply IH. unfold groupPtrs_step. simpl.
  destruct (decide (q ∈ ps)) as [Hin|Hnin]; [done|].
  apply NoDup_app. split; [done|]. split.
  - intros x Hx ->%list_elem_of_singleton. done.
  - apply NoDup_singleton.
Qed.

Lemma groups_in_ptrs kvs heap : groups_in kvs heap = deref heap <$> groupPtrs_in kvs.
Proof.
  unfold groups_in, groupPtrs_in.
  pose proof (groups_fold heap kvs []) as H. simpl in H. by rewrite H.
Qed.

Lemma groupPtrs_range (m : gmap Hash nat) kvs p :
  kvs ≡ₚ map_to_list m →
  p ∈ groupPtrs_in kvs ↔ ∃ h, m !! h = Some p.
Proof.
  intros Hperm. unfold groupPtrs_in. rewrite groupPtrs_fold_elem, elem_of_nil.
  rewrite list_elem_of_fmap. split.
  - intros [[]|([h q] & -> & Hin)]. rewrite Hperm in Hin.
    apply elem_of_map_to_list in Hin. eauto.
  - intros [h Hh]. right. exists (h, p). split; [done|].
    rewrite Hperm. by apply elem_of_map_to_list.
Qed.

Lemma wf_disjoint cr h1 h2 p q :
  wfRelations cr → manyToGroup cr !! h1 = Some p → manyToGroup cr !! h2 = Some q →
  p ≠ q → deref (groupHeap cr) p ## deref (groupHeap cr) q.
Proof.
  intros Hwf H1 H2 Hne x Hx1 Hx2.
  apply (wf_closed cr Hwf h1 p x H1) in Hx1.
  apply (wf_closed cr Hwf h2 q x H2) in Hx2. congruence.
Qed.

Lemma pairwiseDisjoint_perm l1 l2 : l1 ≡ₚ l2 → pairwiseDisjoint l1 → pairwiseDisjoint l2.
Proof.
  induction 1 as [|x l1 l2 Hp IH|x y l|l1 l2 l3 _ IH1 _ IH2]; simpl.
  - done.
  - intros [Hx Hl]. split; [|by apply IH]. intros z Hz. apply Hx. by rewrite Hp.
  - intros [Hy [Hx Hl]]. split; [|split; [|done]].
    + intros z [->|Hz]%elem_of_cons; [|by apply Hx].
      symmetry. apply Hy. constructor.
    + intros z Hz. apply Hy. by constructor.
  - auto.
Qed.

Lemma pairwiseDisjoint_sublist l1 l2 :
  sublist l1 l2 → pairwiseDisjoint l2 → pairwiseDisjoint l1.
Proof.
  induction 1 as [|x l1 l2 Hs IH|x l1 l2 Hs IH]; simpl.
  - done.
  - intros [Hx Hl]. split; [|by apply IH]. intros z Hz. apply Hx.
    by eapply elem_of_sublist.
  - intros [_ Hl]. by apply IH.
Qed.

Lemma pairwiseDisjoint_subsets l1 l2 :
  Forall2 (⊆) l1 l2 → pairwiseDisjoint l2 → pairwiseDisjoint l1.
Proof.
  induction 1 as [|x y l1 l2 Hxy Hl IH]; simpl; [done|].
  intros [Hy Hpd]. split; [|by apply IH].
  intros z Hz. apply list_elem_of_lookup in Hz as [i Hi].
  destruct (Forall2_lookup_l _ _ _ _ _ Hl Hi) as (z' & Hi' & Hzz').
  apply list_elem_of_lookup_2 in Hi'. specialize (Hy z' Hi'). set_solver.
Qed.

Lemma groups_pairwiseDisjoint {E S F} (V : Env E S F) cr :
  wfRelations cr → (∀ m, rangeRelations V m ≡ₚ map_to_list m) →
  pairwiseDisjoint (groups V cr).
Proof.
  intros Hwf Hperm. unfold groups. rewrite groups_in_ptrs.
  assert (NoDup (groupPtrs_in (rangeRelations V (manyToGroup cr)))) as Hnd.
  { apply groupPtrs_fold_NoDup. constructor. }
  assert (∀ p, p ∈ groupPtrs_in (rangeRelations V (manyToGroup cr)) →
               ∃ h, manyToGroup cr !! h = Some p) as Hrange.
  { intros p Hp. by apply (groupPtrs_range (manyToGroup cr) _ p (Hperm _)). }
  induction (groupPtrs_in _) as [|p ps IH]; simpl; [done|].
  apply NoDup_cons in Hnd as [Hp Hnd].
  split.
  - intros y (q & -> & Hq)%list_elem_of_fmap.
    destruct (Hrange p) as [h1 H1]; [constructor|].
    destruct (Hrange q) as [h2 H2]; [by constructor|].
    eapply wf_disjoint; [done..|]. by intros ->.
  - apply IH; [done|]. intros q Hq. apply Hrange. by constructor.
Qed.

Lemma groupOf_None cr h : groupOf cr h = None ↔ manyToGroup cr !! h = None.
Proof. unfold groupOf. by rewrite fmap_None. Qed.

Lemma groupOf_Some cr h g :
  groupOf cr h = Some g ↔ ∃ p, manyToGroup cr !! h = Some p ∧ g = deref (groupHeap cr) p.
Proof. unfold groupOf. rewrite fmap_Some. naive_solver. Qed.

Lemma Add_fresh_groups cr a b :
  wfRelations cr → groupOf cr a = None → groupOf cr b = None →
  ∀ h, groupOf (Add a b cr) h
       = if decide (h ∈ ({[a; b]} : gset Hash)) then Some {[a; b]} else groupOf cr h.
Proof.
  intros Hwf Ha%groupOf_None Hb%groupOf_None h.
  rewrite (Add_fresh cr a b) by done. unfold groupOf. simpl.
  rewrite !lookup_insert.
  destruct (decide (b = h)) as [<-|Hbh].
  { simpl. rewrite deref_app_new. rewrite decide_True; [done|set_solver]. }
  destruct (decide (a = h)) as [<-|Hah].
  { simpl. rewrite deref_app_new. rewrite decide_True; [done|set_solver]. }
  rewrite decide_False by set_solver.
  destruct (manyToGroup cr !! h) as [p|] eqn:Hh; [|done]. simpl.
  rewrite deref_app_l; [done|]. by eapply wf_ptr_lt.
Qed.

Lemma Add_left_groups cr a b g :
  wfRelations cr → groupOf cr a = Some g → groupOf cr b = None →
  ∀ h, groupOf (Add a b cr) h
       = if decide (h ∈ g ∪ {[b]}) then Some (g ∪ {[b]}) else groupOf cr h.
Proof.
  intros Hwf (pa & Ha & ->)%groupOf_Some Hb%groupOf_None h.
  rewrite (Add_left cr a b pa) by done. unfold groupOf. simpl.
  assert (pa < length (groupHeap cr))%nat as Hlt by (by eapply wf_ptr_lt).
  rewrite lookup_insert.
  destruct (decide (b = h)) as [<-|Hbh].
  { simpl. rewrite deref_alter_eq by done. rewrite decide_True; [done|set_solver]. }
  destruct (decide (h ∈ deref (groupHeap cr) pa ∪ {[b]})) as [Hin|Hnin].
  - apply elem_of_union in Hin as [Hin|Hin%elem_of_singleton]; [|congruence].
    rewrite (wf_closed cr Hwf a pa h Ha Hin). simpl. by rewrite deref_alter_eq.
  - destruct (manyToGroup cr !! h) as [p|] eqn:Hh; [|done]. simpl.
    rewrite deref_alter_ne; [done|]. intros <-. apply Hnin, elem_of_union_l.
    by eapply wf_member.
Qed.

Lemma Add_right_groups cr a b g :
  wfRelations cr → groupOf cr a = None → groupOf cr b = Some g →
  ∀ h, groupOf (Add a b cr) h
       = if decide (h ∈ g ∪ {[a]}) then Some (g ∪ {[a]}) else groupOf cr h.
Proof.
  intros Hwf Ha%groupOf_None (pb & Hb & ->)%groupOf_Some h.
  rewrite (Add_right cr a b pb) by done. unfold groupOf. simpl.
  assert (pb < length (groupHeap cr))%nat as Hlt by (by eapply wf_ptr_lt).
  rewrite lookup_insert.
  destruct (decide (a = h)) as [<-|Hah].
  { simpl. rewrite deref_alter_eq by done. rewrite decide_True; [done|set_solver]. }
  destruct (decide (h ∈ deref (groupHeap cr) pb ∪ {[a]})) as [Hin|Hnin].
  - apply elem_of_union in Hin as [Hin|Hin%elem_of_singleton]; [|congruence].
    rewrite (wf_closed cr Hwf b pb h Hb Hin). simpl. by rewrite deref_alter_eq.
  - destruct (manyToGroup cr !! h) as [p|] eqn:Hh; [|done]. simpl.
    rewrite deref_alter_ne; [done|]. intros <-. apply Hnin, elem_of_union_l.
    by eapply wf_member.
Qed.

Lemma Add_merge_groups cr a b ga gb :
  wfRelations cr → groupOf cr a = Some ga → groupOf cr b = Some gb →
  manyToGroup cr !! a ≠ manyToGroup cr !! b →
  ∀ h, (groupOf (Add a b cr) h
        = if decide (h ∈ ga ∪ gb) then Some (ga ∪ gb) else groupOf cr h)
       ∧ (h ∈ ga ∪ gb → manyToGroup (Add a b cr) !! h = Some (length (groupHeap cr))).
Proof.
  intros Hwf (pa & Ha & ->)%groupOf_Some (pb & Hb & ->)%groupOf_Some Hne h.
  rewrite (Add_merge cr a b pa pb) by congruence. unfold groupOf. simpl.
  rewrite lookup_repoint.
  destruct (decide (h ∈ deref (groupHeap cr) pa ∪ deref (groupHeap cr) pb)) as [Hin|Hnin].
  - simpl. by rewrite deref_app_new.
  - split; [|done].
    destruct (manyToGroup cr !! h) as [p|] eqn:Hh; [|done]. simpl.
    rewrite deref_app_l; [done|]. by eapply wf_ptr_lt.
Qed.

(** C6. Union semantics of [Add] on a relation built by [Add] calls: a
    fresh group [{a, b}] when neither hash is known, the unknown hash joins
    the known one's group when exactly one is known, two different groups
    are merged into one fresh set every member points to, and a pair already
    in one group changes nothing.  Two hashes share a group exactly when the
    pairs added so far relate them, and [groups] returns the set behind each
    pointer in use once, whatever the order the map is walked in. *)
Theorem chunkRelations_union_semantics
    (pairs : list (Hash * Hash)) (a b : Hash) (kvs : list (Hash * nat)) :
  let cr := AddAll pairs NewChunkRelations in
  (groupOf cr a = None → groupOf cr b = None →
     manyToGroup (Add a b cr) !! a = Some (length (groupHeap cr))
     ∧ ∀ h, groupOf (Add a b cr) h
            = if decide (h ∈ ({[a; b]} : gset Hash)) then Some {[a; b]} else groupOf cr h)
  ∧ (∀ g, groupOf cr a = Some g → groupOf cr b = None →
       manyToGroup (Add a b cr) !! b = manyToGroup cr !! a
       ∧ ∀ h, groupOf (Add a b cr) h
              = if decide (h ∈ g ∪ {[b]}) then Some (g ∪ {[b]}) else groupOf cr h)
  ∧ (∀ g, groupOf cr a = None → groupOf cr b = Some g →
       manyToGroup (Add a b cr) !! a = manyToGroup cr !! b
       ∧ ∀ h, groupOf (Add a b cr) h
              = if decide (h ∈ g ∪ {[a]}) then Some (g ∪ {[a]}) else groupOf cr h)
  ∧ (∀ ga gb, groupOf cr a = Some ga → groupOf cr b = Some gb →
       manyToGroup cr !! a ≠ manyToGroup cr !! b →
       ∀ h, (groupOf (Add a b cr) h
             = if decide (h ∈ ga ∪ gb) then Some (ga ∪ gb) else groupOf cr h)
            ∧ (h ∈ ga ∪ gb →
               manyToGroup (Add a b cr) !! h = Some (length (groupHeap cr))))
  ∧ (is_Some (manyToGroup cr !! a) → manyToGroup cr !! a = manyToGroup cr !! b →
       Add a b cr = cr)
  ∧ (∀ x y, sameGroup cr x y ↔ related pairs x y)
  ∧ (∀ x y, sameGroup cr x y →
       ∃ g, groupOf cr x = Some g ∧ groupOf cr y = Some g ∧ x ∈ g ∧ y ∈ g)
  ∧ (kvs ≡ₚ map_to_list (manyToGroup cr) →
       groups_in kvs (groupHeap cr) = deref (groupHeap cr) <$> groupPtrs_in kvs
       ∧ NoDup (groupPtrs_in kvs)
       ∧ (∀ p, p ∈ groupPtrs_in kvs ↔ ∃ h, manyToGroup cr !! h = Some p)
       ∧ (∀ p q, p ∈ groupPtrs_in kvs → q ∈ groupPtrs_in kvs → p ≠ q →
            deref (groupHeap cr) p ## deref (groupHeap cr) q)).
Proof.
  intros cr.
  assert (wfRelations cr) as Hwf by apply AddAll_wf.
  split; [|split; [|split; [|split; [|split; [|split; [|split]]]]]].
  - intros Ha Hb. split; [|by apply Add_fresh_groups].
    apply groupOf_None in Ha, Hb. rewrite (Add_fresh cr a b) by done. simpl.
    rewrite lookup_insert. destruct (decide (b = a)); [done|].
    by rewrite lookup_insert_eq.
  - intros g Ha Hb. split; [|by apply Add_left_groups].
    apply groupOf_Some in Ha as (pa & Ha & _). apply groupOf_None in Hb.
    rewrite (Add_left cr a b pa) by done. simpl. by rewrite lookup_insert_eq.
  - intros g Ha Hb. split; [|by apply Add_right_groups].
    apply groupOf_Some in Hb as (pb & Hb & _). apply groupOf_None in Ha.
    rewrite (Add_right cr a b pb) by done. simpl. by rewrite lookup_insert_eq.
  - intros ga gb Ha Hb Hne h. by apply Add_merge_groups.
  - intros [p Hp] Heq. apply (Add_same cr a b p); congruence.
  - intros x y. apply sameGroup_related.
  - intros x y (p & Hx & Hy). exists (deref (groupHeap cr) p).
    unfold groupOf. rewrite Hx, Hy. simpl.
    split; [done|]. split; [done|]. split; by eapply wf_member.
  - intros Hperm. split; [apply groups_in_ptrs|].
    split; [apply groupPtrs_fold_NoDup, NoDup_nil_2|].
    split; [intros p; by apply groupPtrs_range|].
    intros p q Hp Hq Hne.
    apply (groupPtrs_range (manyToGroup cr) kvs p Hperm) in Hp as [h1 H1].
    apply (groupPtrs_range (manyToGroup cr) kvs q Hperm) in Hq as [h2 H2].
    by eapply wf_disjoint.
Qed.

Lemma chunkRelations_union_semantics_witness :
  sameGroup (AddAll [(1, 2); (3, 4); (2, 3)] NewChunkRelations) 1 4.
Proof.
  apply (proj1 (proj2 (proj2 (proj2 (proj2 (proj2
           (chunkRelations_union_semantics [(1, 2); (3, 4); (2, 3)] 0 0 [])))))) 1 4).
  apply related_trans with 2; [apply related_pair; repeat constructor|].
  apply related_trans with 3; apply related_pair; repeat constructor.
Defined.

(** ** The verifier *)

Section VerifierFacts.
Context (E : Externals) {S F : Type}.

Lemma verifyChunk_ok index cc n h (w : world S F) :
  chunkOk E index h →
  verifyChunk E index cc n h w
  = (Ok (u32_add n 1),
     mkWorld (w_store w) (w_fs w)
       (w_progress w ++ [MsgStage "Verifying Chunks" cc (u32_add n 1)]) (w_trace w)).
Proof.
  intros (Hhas & b & Hget & Hhash). unfold verifyChunk.
  rewrite Hhas. simpl. unfold bindM, lift. rewrite Hget. simpl.
  rewrite decide_False by (intros Hne; by apply Hne).
  done.
Qed.

Lemma verifyChunk_bad index cc n h (w : world S F) :
  ¬ chunkOk E index h →
  ∃ r, verifyChunk E index cc n h w = (r, w)
       ∧ (∀ n', r ≠ Ok n')
       ∧ ((∃ o, ar_get index h = Ok o) ∨ (∃ e, ar_get index h = Err e) →
          ∃ e, r = Err e ∧ verifyError h e).
Proof.
  intros Hbad. unfold verifyChunk, chunkOk, verifyError in *.
  destruct (ar_has index h) eqn:Hhas; simpl.
  - unfold bindM, lift, fail.
    destruct (ar_get index h) as [[b|]|e| |] eqn:Hget; simpl.
    + destruct (decide (hashOf E b ≠ h)) as [Hne|Heq].
      * eexists. split; [done|]. split; [done|]. intros _. eauto 10.
      * exfalso. apply Hbad. split; [done|]. exists b. split; [done|].
        by apply dec_stable.
    + eexists. split; [done|]. split; [done|]. intros _. eauto 10.
    + eexists. split; [done|]. split; [done|]. intros _. eauto 10.
    + eexists. split; [done|]. split; [done|].
      intros [[o Ho]|[e He]]; discriminate.
    + eexists. split; [done|]. split; [done|].
      intros [[o Ho]|[e He]]; discriminate.
  - unfold fail, lift. eexists. split; [done|]. split; [done|]. intros _. eauto 10.
Qed.




End VerifierFacts.

(** ** Archiving a block store *)

Section Keeps.
Context {E : Externals} {S F : Type} (V : Env E S F).
Local Abbreviation M := (@M S F).

Lemma keeps_ret {A} (a : A) : keeps (ret a : M A).
Proof. done. Qed.

Lemma keeps_lift {A} (o : outcome A) : keeps (lift o : M A).
Proof. done. Qed.

Lemma keeps_fail {A} e : keeps (fail e : M A).
Proof. done. Qed.

Lemma keeps_send msg : keeps (send msg : M ()).
Proof. done. Qed.

Lemma keeps_bind {A B} (m : M A) (k : A → M B) :
  keeps m → (∀ a, keeps (k a)) → keeps (bindM m k).
Proof.
  intros Hm Hk w. unfold bindM. specialize (Hm w).
  destruct (m w) as [[a|e| |] w1]; simpl in *; [|done..].
  destruct (Hk a w1) as [-> ->]. done.
Qed.

Lemma keeps_foldM {A B} (f : B → A → M B) b l :
  (∀ b a, keeps (f b a)) → keeps (foldM f b l).
Proof.
  intros Hf. revert b. induction l as [|a l IH]; intros b; simpl.
  - apply keeps_ret.
  - apply keeps_bind; [apply Hf|apply IH].
Qed.

Lemma keeps_catch {A} (m : M A) : keeps m → keeps (catch m).
Proof.
  intros Hm w. unfold catch. specialize (Hm w).
  by destruct (m w) as [[a|e| |] w1].
Qed.

Lemma keeps_flush arcW fileName : keeps (flush V arcW fileName).
Proof. intros w. unfold flush. by destruct (flushToFile V _ _ _) as [[| | |] fs]. Qed.

Lemma keeps_stat file : keeps (stat V file).
Proof. done. Qed.

Lemma keeps_remove file : keeps (remove V file).
Proof. intros w. unfold remove. by destruct (os_Remove V _ _) as [[| | |] fs]. Qed.

Lemma keeps_buildGroup chks dd gc st hs : keeps (buildGroup V chks dd gc st hs).
Proof.
  unfold buildGroup. destruct st as [result completed].
  destruct (ctxDone V completed); [apply keeps_fail|].
  destruct (decide _); [|apply keeps_ret].
  apply keeps_bind; [apply keeps_lift|intros chkGrp].
  apply keeps_bind; [apply keeps_send|intros _]. apply keeps_ret.
Qed.

Lemma keeps_convertToChunkGroups cr chks dd : keeps (convertToChunkGroups V cr chks dd).
Proof.
  unfold convertToChunkGroups. destruct (decide _).
  - apply keeps_bind; [apply keeps_foldM; intros; apply keeps_buildGroup|].
    intros [result n]. apply keeps_ret.
  - apply keeps_bind; [apply keeps_send|intros _; apply keeps_ret].
Qed.

Lemma keeps_writeGroup cache n st cg : keeps (writeGroup V cache n st cg).
Proof.
  unfold writeGroup. destruct (ctxDone V _); [apply keeps_fail|].
  apply keeps_bind; [apply keeps_lift|intros st'].
  apply keeps_bind; [apply keeps_send|intros _]. apply keeps_ret.
Qed.

Lemma keeps_drainChunk cache dd sid total st addr :
  keeps (drainChunk E cache dd sid total st addr : M _).
Proof.
  unfold drainChunk. destruct st as [completed arcW].
  apply keeps_bind; [apply keeps_lift|intros [c|]; [|apply keeps_lift]].
  apply keeps_bind; [apply keeps_lift|intros [id arcW']].
  apply keeps_bind; [apply keeps_lift|intros arcW''].
  apply keeps_bind; [apply keeps_send|intros _]. apply keeps_ret.
Qed.

Lemma keeps_compress all cache arcW dd sid :
  keeps (compressChunksInParallel V all cache arcW dd sid).
Proof.
  unfold compressChunksInParallel.
  apply keeps_bind; [apply keeps_foldM; intros; apply keeps_drainChunk|].
  intros [n arcW']. apply keeps_ret.
Qed.

Lemma keeps_writeData cache cgList sid dd arcW :
  keeps (writeDataToArchive V cache cgList sid dd arcW).
Proof.
  unfold writeDataToArchive.
  apply keeps_bind; [apply keeps_lift|intros allChunks].
  apply keeps_bind; [apply keeps_foldM; intros; apply keeps_writeGroup|intros st].
  apply keeps_bind; [apply keeps_compress|intros [n arcW']]. apply keeps_ret.
Qed.

Lemma keeps_indexFinalizeFlush arcW path origin :
  keeps (indexFinalizeFlushArchive V arcW path origin).
Proof.
  unfold indexFinalizeFlushArchive.
  apply keeps_bind; [apply keeps_lift|intros arcW'].
  apply keeps_bind; [apply keeps_lift|intros fileName]. apply keeps_flush.
Qed.

Lemma keeps_convert cs idx dag path : keeps (convertTableFileToArchive V cs idx dag path).
Proof.
  unfold convertTableFileToArchive.
  apply keeps_bind; [apply keeps_lift|intros [allChunks defaultSamples]].
  destruct (decide _); [|apply keeps_fail].
  apply keeps_bind; [apply keeps_lift|intros defaultCDict].
  apply keeps_bind; [apply keeps_convertToChunkGroups|intros cgList].
  apply keeps_bind; [apply keeps_lift|intros arcW].
  apply keeps_bind; [apply keeps_lift|intros [sid arcW']].
  apply keeps_bind; [apply keeps_writeData|intros [[[gc grouped] singles] arcW'']].
  apply keeps_bind; [apply keeps_indexFinalizeFlush|intros arcW3].
  apply keeps_bind; [destruct (decide _); [apply keeps_send|apply keeps_ret]|intros _].
  apply keeps_bind; [apply keeps_lift|intros name]. apply keeps_ret.
Qed.

Lemma keeps_verifyChunk index cc n h : keeps (verifyChunk E index cc n h : M _).
Proof.
  unfold verifyChunk. destruct (negb _); [apply keeps_fail|].
  apply keeps_bind; [apply keeps_lift|intros [data|]; [|apply keeps_fail]].
  destruct (decide _); [apply keeps_fail|].
  apply keeps_bind; [apply keeps_send|intros _]. apply keeps_ret.
Qed.

Lemma keeps_verify idx file : keeps (verifyAllChunks V idx file).
Proof.
  unfold verifyAllChunks.
  apply keeps_bind; [done|intros index].
  apply keeps_bind; [apply keeps_lift|intros hashList].
  apply keeps_bind; [apply keeps_foldM; intros; apply keeps_verifyChunk|intros _].
  apply keeps_ret.
Qed.
End Keeps.

Section ArchiveFacts.
Context {E : Externals} {S F : Type} (V : Env E S F).

Lemma archiveTableFile_step dag purge path tf (w : world S F) r w' :
  archiveTableFile V dag purge path tf w = (r, w') →
  (w_trace w' = w_trace w ∧ w_store w' = w_store w)
  ∨ (∃ e, w_trace w' = w_trace w ++ [EvVerify tf (Some e)]
          ∧ w_store w' = w_store w ∧ r = Err e)
  ∨ (w_trace w' = w_trace w ++ [EvVerify tf None] ∧ w_store w' = w_store w
     ∧ (r = Panic ∨ r = Diverge))
  ∨ (∃ specs, w_trace w' = w_trace w ++ [EvVerify tf None; EvSwap tf specs]).
Proof.
  unfold archiveTableFile.
  destruct (isJournalAddr E tf); [intros [= <- <-]; by left|].
  unfold bindM at 1. unfold getStore at 1.
  destruct (upstreamLookup V (w_store w) tf) as [cs|]; [|intros [= <- <-]; by left].
  destruct (cs_isArchive cs); [intros [= <- <-]; by left|].
  unfold bindM at 1. unfold send at 1.
  set (w0 := mkWorld (w_store w) (w_fs w) (w_progress w ++ [MsgArchiving tf]) (w_trace w)).
  unfold bindM at 1. unfold lift at 1.
  destruct (cs_index cs) as [idx|e| |]; try (intros [= <- <-]; by left).
  unfold bindM at 1. unfold catch at 1.
  pose proof (keeps_convert V cs idx dag path w0) as [Hs1 Ht1].
  destruct (convertTableFileToArchive V cs idx dag path w0) as [[[[apath aname] cnt]|e| |] w1];
    simpl in Hs1, Ht1; try (intros [= <- <-]; by left).
  2:{ destruct (isNotEnoughChunks e); intros [= <- <-]; by left. }
  unfold bindM at 1. unfold catch at 1. unfold stat at 1.
  destruct (os_Stat V (w_fs w1) apath) as [size|e| |]; try (intros [= <- <-]; by left).
  unfold bindM at 1. unfold catch at 1.
  pose proof (keeps_verify V idx apath w1) as [Hs2 Ht2].
  destruct (verifyAllChunks V idx apath w1) as [[[]|e| |] w2];
    simpl in Hs2, Ht2; try (intros [= <- <-]; left; split; congruence).
  2:{ intros [= <- <-]. right; left. exists e. simpl. split; [congruence|].
      split; [congruence|done]. }
  unfold bindM at 1. unfold record at 1.
  unfold bindM at 1. unfold send at 1.
  unfold bindM at 1. unfold getStore at 1. simpl.
  unfold bindM at 1. unfold lift at 1.
  assert (∀ newSpecs purgeFile (w3 : world S F),
            w_trace w3 = w_trace w ++ [EvVerify tf None] →
            swapAndPurge V tf newSpecs purgeFile w3 = (r, w') →
            ∃ specs', w_trace w' = w_trace w ++ [EvVerify tf None; EvSwap tf specs'])
    as Hswap.
  { intros newSpecs purgeFile w3 Ht3. unfold swapAndPurge.
    unfold bindM at 1. unfold swap at 1.
    destruct (swapTables V (w_store w3) newSpecs) as [rs st].
    assert (w_trace w3 ++ [EvSwap tf newSpecs]
            = w_trace w ++ [EvVerify tf None; EvSwap tf newSpecs]) as Htr.
    { rewrite Ht3. by rewrite <- app_assoc. }
    destruct rs as [[]|e| |]; try (intros [= <- <-]; exists newSpecs; done).
    destruct (decide _); [|intros [= <- <-]; exists newSpecs; done].
    unfold bindM, remove. simpl.
    destruct (os_Remove V (w_fs w3) purgeFile) as [[[]|e| |] fs];
      intros [= <- <-]; exists newSpecs; done. }
  destruct (toSpecs V (w_store w2)) as [specs|e| |].
  - intros Hrun. right; right; right. refine (Hswap _ _ _ _ Hrun). simpl. congruence.
  - intros Hrun. right; right; right. refine (Hswap _ _ _ _ Hrun). simpl. congruence.
  - intros [= <- <-]. right; right; left. simpl. split; [congruence|]. split; [congruence|tauto].
  - intros [= <- <-]. right; right; left. simpl. split; [congruence|]. split; [congruence|tauto].
Qed.
End ArchiveFacts.

Lemma snoc_eq_middle {A} (tr pre post : list A) x y :
  tr ++ [x] = pre ++ y :: post →
  (post = [] ∧ pre = tr ∧ x = y) ∨ (∃ post', post = post' ++ [x] ∧ tr = pre ++ y :: post').
Proof.
  destruct post as [|z post _] using rev_ind; intros Heq.
  - apply app_inj_tail in Heq as [-> ->]. by left.
  - right. rewrite app_comm_cons, app_assoc in Heq.
    apply app_inj_tail in Heq as [-> ->]. eauto.
Qed.

Lemma gated_swap_after_verify tr :
  gated tr →
  ∀ pre tf specs post, tr = pre ++ EvSwap tf specs :: post →
                       ∃ pre', pre = pre' ++ [EvVerify tf None].
Proof.
  induction 1 as [|tr tf0 Hg IH|tr tf0 specs0 Hg IH]; intros pre tf specs post Heq.
  - by destruct pre.
  - apply snoc_eq_middle in Heq as [(_ & _ & [=])|(post' & _ & Heq)]. by eapply IH.
  - change (tr ++ [EvVerify tf0 None; EvSwap tf0 specs0])
      with (tr ++ [EvVerify tf0 None] ++ [EvSwap tf0 specs0]) in Heq.
    rewrite app_assoc in Heq.
    apply snoc_eq_middle in Heq as [(_ & -> & [= <- <-])|(post' & _ & Heq)]; [eauto|].
    apply snoc_eq_middle in Heq as [(_ & _ & [=])|(post'' & _ & Heq)]. by eapply IH.
Qed.

Lemma gated_no_failure tr tf e : gated tr → EvVerify tf (Some e) ∉ tr.
Proof.
  induction 1 as [|tr tf0 Hg IH|tr tf0 specs0 Hg IH].
  - apply not_elem_of_nil.
  - rewrite elem_of_app, list_elem_of_singleton. intros [?|[=]]; done.
  - rewrite elem_of_app, !elem_of_cons, elem_of_nil. intros [?|[[=]|[[=]|[]]]]; done.
Qed.

Section LoopFacts.
Context {E : Externals} {S F : Type} (V : Env E S F).

Lemma archiveLoop_gated dag purge path allFiles (w : world S F) r w' :
  foldM (λ _ tf, archiveTableFile V dag purge path tf) () allFiles w = (r, w') →
  gated (w_trace w) →
  gated (w_trace w')
  ∨ (∃ tf e pre, w_trace w' = pre ++ [EvVerify tf (Some e)] ∧ gated pre ∧ r = Err e).
Proof.
  revert w. induction allFiles as [|tf allFiles IH]; intros w; simpl.
  - intros [= <- <-] Hg. by left.
  - unfold bindM at 1.
    destruct (archiveTableFile V dag purge path tf w) as [rb wb] eqn:Hbody.
    apply archiveTableFile_step in Hbody.
    intros Hrun Hg.
    assert (gated (w_trace wb) → gated (w_trace w')
            ∨ (∃ tf e pre, w_trace w' = pre ++ [EvVerify tf (Some e)] ∧ gated pre ∧ r = Err e))
      as Hnext.
    { intros Hgb. destruct rb as [[]|e| |].
      - by eapply IH.
      - injection Hrun as <- <-. by left.
      - injection Hrun as <- <-. by left.
      - injection Hrun as <- <-. by left. }
    destruct Hbody as [[Ht _]|[(e & Ht & _ & ->)|[(Ht & _)|[specs Ht]]]].
    + apply Hnext. by rewrite Ht.
    + injection Hrun as <- <-. right. by exists tf, e, (w_trace w).
    + apply Hnext. rewrite Ht. by constructor.
    + apply Hnext. rewrite Ht. by constructor.
Qed.
End LoopFacts.

Section BodyFacts.
Context {E : Externals} {S F : Type} (V : Env E S F).

Lemma archiveTableFile_verify_fail dag purge path tf cs idx apath aname cnt size e
    (w w1 w2 : world S F) :
  isJournalAddr E tf = false →
  upstreamLookup V (w_store w) tf = Some cs →
  cs_isArchive cs = false →
  cs_index cs = Ok idx →
  convertTableFileToArchive V cs idx dag path (announced tf w) = (Ok (apath, aname, cnt), w1) →
  os_Stat V (w_fs w1) apath = Ok size →
  verifyAllChunks V idx apath w1 = (Err e, w2) →
  archiveTableFile V dag purge path tf w
  = (Err e, mkWorld (w_store w) (w_fs w2) (w_progress w2) (w_trace w ++ [EvVerify tf (Some e)])).
Proof.
  intros Hj Hlook Harc Hidx Hconv Hstat Hver.
  pose proof (keeps_convert V cs idx dag path (announced tf w)) as [Hs1 Ht1].
  rewrite Hconv in Hs1, Ht1. simpl in Hs1, Ht1.
  pose proof (keeps_verify V idx apath w1) as [Hs2 Ht2].
  rewrite Hver in Hs2, Ht2. simpl in Hs2, Ht2.
  unfold archiveTableFile. rewrite Hj.
  unfold bindM at 1. unfold getStore at 1. rewrite Hlook, Harc.
  unfold bindM at 1. unfold send at 1. fold (announced tf w).
  unfold bindM at 1. unfold lift at 1. rewrite Hidx.
  unfold bindM at 1. unfold catch at 1. rewrite Hconv.
  unfold bindM at 1. unfold catch at 1. unfold stat at 1. rewrite Hstat.
  unfold bindM at 1. unfold catch at 1. rewrite Hver.
  unfold bindM, record, fail, lift. simpl.
  rewrite Hs2, Hs1, Ht2, Ht1. done.
Qed.

Lemma gatherSamples_length cs idx i n l :
  gatherSamples E cs idx i n = Ok l → length l = n.
Proof.
  revert i l. induction n as [|n IH]; intros i l; simpl.
  - by intros [= <-].
  - destruct (gatherSample E cs idx i) as [chk| | |]; simpl; try done.
    destruct (gatherSamples E cs idx (i + 1) n) as [rest| | |] eqn:Hrest; simpl; try done.
    intros [= <-]. simpl. f_equal. by eapply IH.
Qed.

Lemma gatherSamples_ok cs idx i n :
  (∀ j, (i ≤ j < i + N.of_nat n)%N →
        ∃ h o, indexEntry idx j = Ok h ∧ cs_get cs h = Ok o) →
  ∃ l, gatherSamples E cs idx i n = Ok l.
Proof.
  revert i. induction n as [|n IH]; intros i Hall; simpl; [eauto|].
  destruct (Hall i ltac:(lia)) as (h & o & Hh & Ho).
  unfold gatherSample. rewrite Hh. simpl. rewrite Ho. simpl.
  destruct (IH (i + 1)%N) as [rest ->]; [|simpl; eauto].
  intros j Hj. apply Hall. lia.
Qed.

Lemma convert_notEnoughChunks cs idx dag path (w : world S F) :
  (chunkCount idx < minSamples)%N →
  (∀ j, (j < chunkCount idx)%N → ∃ h o, indexEntry idx j = Ok h ∧ cs_get cs h = Ok o) →
  convertTableFileToArchive V cs idx dag path w = (Err errNotEnoughChunks, w).
Proof.
  intros Hlt Hread. unfold convertTableFileToArchive, gatherAllChunks.
  assert (N.min (chunkCount idx) maxSamples = chunkCount idx) as ->.
  { unfold minSamples, maxSamples in *. lia. }
  destruct (gatherSamples_ok cs idx 0 (N.to_nat (chunkCount idx))) as [l Hl].
  { intros j Hj. apply Hread. lia. }
  unfold bindM at 1. unfold lift at 1. rewrite Hl. simpl.
  apply gatherSamples_length in Hl.
  rewrite decide_False; [done|]. rewrite Hl. lia.
Qed.

Lemma archiveTableFile_notEnoughChunks dag purge path tf cs idx (w : world S F) :
  isJournalAddr E tf = false →
  upstreamLookup V (w_store w) tf = Some cs →
  cs_isArchive cs = false →
  cs_index cs = Ok idx →
  (chunkCount idx < minSamples)%N →
  (∀ j, (j < chunkCount idx)%N → ∃ h o, indexEntry idx j = Ok h ∧ cs_get cs h = Ok o) →
  archiveTableFile V dag purge path tf w
  = (Ok (), mkWorld (w_store w) (w_fs w)
              (w_progress w ++ [MsgArchiving tf; MsgNotEnoughChunks (cs_hash cs)])
              (w_trace w)).
Proof.
  intros Hj Hlook Harc Hidx Hlt Hread.
  unfold archiveTableFile. rewrite Hj.
  unfold bindM at 1. unfold getStore at 1. rewrite Hlook, Harc.
  unfold bindM at 1. unfold send at 1.
  unfold bindM at 1. unfold lift at 1. rewrite Hidx.
  unfold bindM at 1. unfold catch at 1.
  rewrite convert_notEnoughChunks by done. simpl.
  unfold send. simpl. by rewrite <- app_assoc.
Qed.
End BodyFacts.

(** C2. Verification gates the swap: in a run of [archiveSingleBlockStore]
    every call of [swapTables] directly follows a call of [verifyAllChunks]
    for the same table file that returned nil; a verification that fails is
    the last call of the run and its error is what the run returns; and when
    [verifyAllChunks] fails on the archive just written for a table file, the
    loop stops with that error, the block store being what it was before the
    table file was taken up. *)
Theorem verification_gates_swap {E : Externals} {S F : Type} (V : Env E S F)
    (dagGroups : ChunkRelations) (purge : bool) (w : world S F) :
  w_trace w = [] →
  let r := (archiveSingleBlockStore V dagGroups purge w).1 in
  let w' := (archiveSingleBlockStore V dagGroups purge w).2 in
  (∀ pre tf newSpecs post,
     w_trace w' = pre ++ EvSwap tf newSpecs :: post →
     ∃ pre', pre = pre' ++ [EvVerify tf None])
  ∧ (∀ tf e, EvVerify tf (Some e) ∈ w_trace w' →
       r = Err e ∧ ∃ pre, w_trace w' = pre ++ [EvVerify tf (Some e)]
                          ∧ ∀ newSpecs, EvSwap tf newSpecs ∉ drop (length pre) (w_trace w'))
  ∧ (∀ path tf cs idx apath aname cnt size e (w0 w1 w2 : world S F) rest,
       isJournalAddr E tf = false →
       upstreamLookup V (w_store w0) tf = Some cs →
       cs_isArchive cs = false →
       cs_index cs = Ok idx →
       convertTableFileToArchive V cs idx dagGroups path (announced tf w0)
       = (Ok (apath, aname, cnt), w1) →
       os_Stat V (w_fs w1) apath = Ok size →
       verifyAllChunks V idx apath w1 = (Err e, w2) →
       ∃ wf, foldM (λ _ tf, archiveTableFile V dagGroups purge path tf) () (tf :: rest) w0
             = (Err e, wf)
             ∧ w_store wf = w_store w0
             ∧ w_trace wf = w_trace w0 ++ [EvVerify tf (Some e)]).
Proof.
  intros Hempty r w'.
  assert (gated (w_trace w') ∨
          ∃ tf e pre, w_trace w' = pre ++ [EvVerify tf (Some e)] ∧ gated pre ∧ r = Err e)
    as Hloop.
  { subst r w'. unfold archiveSingleBlockStore, bindM, getStore.
    destruct (foldM _ _ _ w) as [r w'] eqn:Hrun.
    apply archiveLoop_gated in Hrun; [done|]. rewrite Hempty. constructor. }
  split; [|split].
  - intros pre tf newSpecs post Heq.
    destruct Hloop as [Hg|(tf' & e & pre0 & Htr & Hg & _)].
    + by eapply gated_swap_after_verify.
    + rewrite Htr in Heq.
      apply snoc_eq_middle in Heq as [(_ & _ & [=])|(post' & _ & Heq)].
      by eapply gated_swap_after_verify.
  - intros tf e Hin.
    destruct Hloop as [Hg|(tf' & e' & pre0 & Htr & Hg & Hr)].
    + by apply gated_no_failure in Hin.
    + rewrite Htr in Hin. apply elem_of_app in Hin as [Hin|Hin].
      * by apply gated_no_failure in Hin.
      * apply list_elem_of_singleton in Hin as [= <- <-].
        split; [done|]. exists pre0. split; [done|].
        intros newSpecs. rewrite Htr, drop_app_length.
        rewrite list_elem_of_singleton. done.
  - intros path tf cs idx apath aname cnt size e w0 w1 w2 rest Hj Hl Ha Hi Hc Hs Hv.
    eexists. split; [|split].
    + simpl. unfold bindM at 1.
      erewrite archiveTableFile_verify_fail by done. done.
    + done.
    + done.
Qed.

(** ** Writing the data *)

Lemma obind_Ok {A B} (m : outcome A) (k : A → outcome B) b :
  obind m k = Ok b → ∃ a, m = Ok a ∧ k a = Ok b.
Proof. destruct m as [a| | |]; simpl; [eauto|done..]. Qed.

Lemma bindM_Ok {S F A B} (m : @M S F A) (k : A → @M S F B) w b w' :
  bindM m k w = (Ok b, w') → ∃ a w1, m w = (Ok a, w1) ∧ k a w1 = (Ok b, w').
Proof.
  unfold bindM. destruct (m w) as [[a|e| |] w1]; [eauto|done..].
Qed.

Lemma lift_Ok {S F A} (o : outcome A) (w : world S F) a w' :
  lift o w = (Ok a, w') → o = Ok a ∧ w' = w.
Proof. unfold lift. by intros [= -> ->]. Qed.

Lemma u32_small n : (n < 2 ^ 32)%N → u32 n = n.
Proof. intros Hn. unfold u32. by apply N.mod_small. Qed.

Lemma u32_add_u32 a b : u32_add (u32 a) b = u32 (a + b).
Proof.
  unfold u32_add, u32.
  rewrite N.Div0.add_mod_idemp_l. done.
Qed.

Ltac seen_solve :=
  rewrite ?fmap_nil, ?fmap_cons; simpl;
  rewrite ?app_nil_r, ?(right_id_L ∅ (∪)); done.

Lemma extends_refl aw : extends aw aw [] [].
Proof.
  split; try done; seen_solve.
Qed.

Lemma extends_trans aw1 aw2 aw3 s1 s2 r1 r2 :
  extends aw1 aw2 s1 r1 → extends aw2 aw3 s2 r2 → extends aw1 aw3 (s1 ++ s2) (r1 ++ r2).
Proof.
  intros [] []. split; try congruence.
  - rewrite ext_spans1, ext_spans0. by rewrite app_assoc.
  - rewrite ext_staged1, ext_staged0. by rewrite app_assoc.
  - rewrite ext_seen1, ext_seen0. rewrite fmap_app, list_to_set_app_L.
    by rewrite (assoc_L (∪)).
Qed.

Section WriterFacts.
Context (E : Externals).

Lemma writeByteSpan_Ok aw b id aw' :
  writeByteSpan E aw b = Ok (id, aw') →
  id = u32 (N.of_nat (length (aw_spans aw)) + 1) ∧ extends aw aw' [b] [].
Proof.
  unfold writeByteSpan. destruct (spanFault E _ _); [done|].
  intros [= <- <-]. split; [done|].
  split; simpl; try done; seen_solve.
Qed.

Lemma stageZStdChunk_Ok aw h dict data aw' :
  stageZStdChunk aw h dict data = Ok aw' → extends aw aw' [] [mkStaged h dict data].
Proof.
  unfold stageZStdChunk. intros [= <-].
  split; simpl; try done; seen_solve.
Qed.

Lemma drained_hashes sid next l : sc_hash <$> drained sid next l = l.
Proof. revert next. induction l as [|h l IH]; intros next; simpl; [done|]. by rewrite IH. Qed.

Lemma drained_elem sid next l r :
  r ∈ drained sid next l →
  ∃ i h, l !! i = Some h ∧ r = mkStaged h sid (u32 (N.of_nat (next + i) + 1)).
Proof.
  revert next. induction l as [|h l IH]; intros next; simpl.
  - intros Hin. by apply elem_of_nil in Hin.
  - intros [->|Hin]%elem_of_cons.
    + exists 0%nat, h. split; [done|]. by rewrite Nat.add_0_r.
    + apply IH in Hin as (i & h' & Hl & ->).
      exists (Datatypes.S i), h'. split; [done|]. do 3 f_equal. lia.
Qed.

Lemma drained_lookup sid next l i h :
  l !! i = Some h →
  mkStaged h sid (u32 (N.of_nat (next + i) + 1)) ∈ drained sid next l.
Proof.
  revert next i. induction l as [|h' l IH]; intros next i; [done|].
  destruct i as [|i]; simpl.
  - intros [= ->]. rewrite Nat.add_0_r. constructor.
  - intros Hl. apply elem_of_cons; right.
    replace (next + Datatypes.S i)%nat with (Datatypes.S next + i)%nat by lia.
    by apply IH.
Qed.

Context {S F : Type}.

Lemma drainChunk_Ok cache dd sid total c aw addr (w : world S F) c' aw' w' :
  drainChunk E cache dd sid total (c, aw) addr w = (Ok (c', aw'), w') →
  (∃ ch, cache_get E cache addr = Ok (Some ch))
  ∧ extends aw aw' [zCompressDict E (dataOf E cache addr) dd]
      [mkStaged addr sid (u32 (N.of_nat (length (aw_spans aw)) + 1))]
  ∧ c' = u32_add c 1
  ∧ w_progress w' = w_progress w ++ [MsgStage "Writing Ungrouped Chunks" total c'].
Proof.
  unfold drainChunk.
  intros (ch & w1 & [Hget ->]%lift_Ok & Hrest)%bindM_Ok.
  destruct ch as [ch|]; [|done].
  apply bindM_Ok in Hrest as ([id aw1] & w1 & [Hspan ->]%lift_Ok & Hrest).
  apply writeByteSpan_Ok in Hspan as [-> Hext1].
  apply bindM_Ok in Hrest as (aw2 & w1 & [Hstage ->]%lift_Ok & Hrest).
  apply stageZStdChunk_Ok in Hstage.
  apply bindM_Ok in Hrest as ([] & w1 & Hsend & Hret).
  injection Hsend as <-. injection Hret as <- <- <-.
  split; [eauto|]. split; [|done].
  unfold dataOf. rewrite Hget.
  by apply (extends_trans _ _ _ _ _ _ _ Hext1 Hstage).
Qed.

Lemma drainFold_Ok cache dd sid total l c aw (w : world S F) c' aw' w' :
  foldM (drainChunk E cache dd sid total) (c, aw) l w = (Ok (c', aw'), w') →
  (∀ h, h ∈ l → ∃ ch, cache_get E cache h = Ok (Some ch))
  ∧ extends aw aw' ((λ h, zCompressDict E (dataOf E cache h) dd) <$> l)
      (drained sid (length (aw_spans aw)) l).
Proof.
  revert c aw w. induction l as [|h l IH]; intros c aw w; simpl.
  - intros [= <- <- <-]. split; [|apply extends_refl].
    intros h Hin. by apply elem_of_nil in Hin.
  - intros ([c1 aw1] & w1 & Hstep & Hrest)%bindM_Ok.
    apply drainChunk_Ok in Hstep as (Hget & Hext & _ & _).
    apply IH in Hrest as [Hall Hext'].
    split.
    + intros h' [->|Hin]%elem_of_cons; [done|by apply Hall].
    + replace (length (aw_spans aw1)) with (Datatypes.S (length (aw_spans aw))) in Hext'.
      * apply (extends_trans _ _ _ _ _ _ _ Hext Hext').
      * rewrite (ext_spans _ _ _ _ Hext), length_app. simpl. lia.
Qed.
End WriterFacts.

Section GroupFacts.
Context {E : Externals}.

Lemma groupInv_mono A mat mat' g all aw :
  mat ⊆ mat' → groupInv A mat g all aw → groupInv A mat' g all aw.
Proof. intros Hsub []. split; try done. set_solver. Qed.

Lemma groupInv_span A mat g all aw aw' b :
  extends aw aw' [b] [] → groupInv A mat g all aw → groupInv A mat g all aw'.
Proof.
  intros Hext [].
  assert (aw_seen aw' = aw_seen aw) as Hseen.
  { rewrite (ext_seen _ _ _ _ Hext). seen_solve. }
  assert (aw_staged aw' = aw_staged aw) as Hst.
  { rewrite (ext_staged _ _ _ _ Hext). by rewrite app_nil_r. }
  split; rewrite ?Hseen, ?Hst; done.
Qed.

Lemma writeGroupChunk_Ok cache cg dictId A mat g all aw cs g' all' aw' :
  writeGroupChunk E cache cg dictId (g, all, aw) cs = Ok (g', all', aw') →
  groupInv A mat g all aw →
  groupInv A (mat ∪ {[chunkId E cs]}) g' all' aw'
  ∧ ∃ spans staged,
      extends aw aw' spans staged
      ∧ ∀ r, r ∈ staged → sc_hash r = chunkId E cs ∧ sc_dict r = dictId.
Proof.
  unfold writeGroupChunk.
  intros (c & Hget & Hrest)%obind_Ok.
  apply obind_Ok in Hrest as ([g1 aw1] & Hwrite & [= <- <- <-]).
  intros Hinv. destruct Hinv as [Hall Hcount Hseen Hmat Hnd].
  unfold chunkSeen in Hwrite.
  destruct (decide (chunkId E cs ∈ aw_seen aw)) as [Hin|Hnin].
  - rewrite bool_decide_eq_true_2 in Hwrite by done. injection Hwrite as <- <-.
    split.
    + split; try done; set_solver.
    + exists [], []. split; [apply extends_refl|].
      intros r Hr. by apply elem_of_nil in Hr.
  - rewrite bool_decide_eq_false_2 in Hwrite by done.
    destruct c as [c|]; [|done].
    apply obind_Ok in Hwrite as ([dataId aw2] & Hspan & Hwrite).
    apply writeByteSpan_Ok in Hspan as [-> Hext1].
    apply obind_Ok in Hwrite as (aw3 & Hstage & [= <- <-]).
    apply stageZStdChunk_Ok in Hstage.
    pose proof (extends_trans _ _ _ _ _ _ _ Hext1 Hstage) as Hext. simpl in Hext.
    assert (aw_seen aw3 = aw_seen aw ∪ {[chunkId E cs]}) as Hseen3.
    { rewrite (ext_seen _ _ _ _ Hext). seen_solve. }
    split.
    + split.
      * rewrite Hseen3, Hall. set_solver.
      * rewrite Hseen3, Hcount, u32_add_u32. f_equal.
        rewrite size_union by set_solver. rewrite size_singleton. lia.
      * rewrite Hseen3, (ext_staged _ _ _ _ Hext), fmap_app, list_to_set_app_L.
        rewrite <- Hseen. seen_solve.
      * rewrite Hseen3. set_solver.
      * rewrite (ext_staged _ _ _ _ Hext), fmap_app. apply NoDup_app.
        split; [done|]. split; [|apply NoDup_singleton].
        intros x Hx ->%list_elem_of_singleton. apply Hnin.
        rewrite Hseen. by apply elem_of_list_to_set.
    + eexists _, _. split; [exact Hext|].
      by intros r ->%list_elem_of_singleton.
Qed.

Lemma writeGroupChunks_Ok cache cg dictId A chks mat g all aw g' all' aw' :
  foldO (writeGroupChunk E cache cg dictId) (g, all, aw) chks = Ok (g', all', aw') →
  groupInv A mat g all aw →
  groupInv A (mat ∪ list_to_set (chunkId E <$> chks)) g' all' aw'
  ∧ ∃ spans staged,
      extends aw aw' spans staged
      ∧ ∀ r, r ∈ staged → sc_hash r ∈ chunkId E <$> chks ∧ sc_dict r = dictId.
Proof.
  revert mat g all aw. induction chks as [|cs chks IH]; intros mat g all aw; simpl.
  - intros [= <- <- <-] Hinv. split.
    + eapply groupInv_mono; [|done]. set_solver.
    + exists [], []. split; [apply extends_refl|].
      intros r Hr. by apply elem_of_nil in Hr.
  - intros ([[g1 all1] aw1] & Hstep & Hrest)%obind_Ok Hinv.
    destruct (writeGroupChunk_Ok _ _ _ _ _ _ _ _ _ _ _ _ Hstep Hinv)
      as (Hinv1 & spans1 & staged1 & Hext1 & Hst1).
    destruct (IH _ _ _ _ Hrest Hinv1) as (Hinv2 & spans2 & staged2 & Hext2 & Hst2).
    split.
    + eapply groupInv_mono; [|done]. rewrite ?fmap_cons. simpl. set_solver.
    + exists (spans1 ++ spans2), (staged1 ++ staged2).
      split; [by eapply extends_trans|].
      intros r [Hr|Hr]%elem_of_app; rewrite ?fmap_cons, elem_of_cons.
      * destruct (Hst1 r Hr) as [-> ->]. tauto.
      * destruct (Hst2 r Hr) as [? ->]. tauto.
Qed.
End GroupFacts.

Section GroupLoop.
Context {E : Externals} {S F : Type} (V : Env E S F).

Lemma writeGroup_Ok cache n A mat st cg (w : world S F) st' w' :
  writeGroup V cache n st cg w = (Ok st', w') →
  groupInv A mat (ws_groupedChunkCount st) (ws_allChunks st) (ws_arcW st) →
  groupInv A (mat ∪ (if decide (materialized cg) then groupIds cg else ∅))
    (ws_groupedChunkCount st') (ws_allChunks st') (ws_arcW st')
  ∧ (¬ materialized cg →
     ws_arcW st' = ws_arcW st ∧ ws_allChunks st' = ws_allChunks st
     ∧ ws_groupCount st' = ws_groupCount st
     ∧ ws_groupedChunkCount st' = ws_groupedChunkCount st)
  ∧ (materialized cg →
     ws_groupCount st' = u32_add (ws_groupCount st) 1
     ∧ ∃ spans staged,
         extends (ws_arcW st) (ws_arcW st') (zCompress E (cg_dict E cg) :: spans) staged
         ∧ ∀ r, r ∈ staged →
                sc_hash r ∈ chunkId E <$> cg_chks E cg
                ∧ sc_dict r = u32 (N.of_nat (length (aw_spans (ws_arcW st))) + 1)).
Proof.
  unfold writeGroup. destruct (ctxDone V _); [done|].
  intros (st1 & w1 & [Hbody ->]%lift_Ok & Hrest)%bindM_Ok Hinv.
  apply bindM_Ok in Hrest as ([] & w1 & _ & [= <- <-]). simpl.
  destruct (decide (totalBytesSavedDefaultDict E cg < totalBytesSavedWDict E cg)%Z)
    as [Hmat|Hnmat].
  - rewrite decide_True by done.
    apply obind_Ok in Hbody as ([dictId aw1] & Hspan & Hbody).
    apply writeByteSpan_Ok in Hspan as [-> Hext1].
    apply obind_Ok in Hbody as ([[g2 all2] aw2] & Hchunks & [= <-]). simpl.
    eapply groupInv_span in Hinv; [|done].
    destruct (writeGroupChunks_Ok _ _ _ _ _ _ _ _ _ _ _ _ Hchunks Hinv)
      as (Hinv2 & spans & staged & Hext2 & Hst).
    split; [done|]. split; [done|]. intros _. split; [done|].
    exists spans, staged. split; [|done].
    apply (extends_trans _ _ _ _ _ _ _ Hext1 Hext2).
  - rewrite decide_False by done. injection Hbody as <-.
    split; [|split; [done|done]].
    eapply groupInv_mono; [|done]. set_solver.
Qed.

Lemma writeGroups_Ok cache n A cgList mat k st (w : world S F) st' w' :
  foldM (writeGroup V cache n) st cgList w = (Ok st', w') →
  groupInv A mat (ws_groupedChunkCount st) (ws_allChunks st) (ws_arcW st) →
  ws_groupCount st = u32 k →
  groupInv A (mat ∪ materializedIds cgList)
    (ws_groupedChunkCount st') (ws_allChunks st') (ws_arcW st')
  ∧ ws_groupCount st' = u32 (k + N.of_nat (materializedCount cgList))
  ∧ ∃ spans staged, extends (ws_arcW st) (ws_arcW st') spans staged.
Proof.
  revert mat k st w. induction cgList as [|cg cgList IH]; intros mat k st w; simpl.
  - intros [= <- <-] Hinv Hk. split; [|split].
    + eapply groupInv_mono; [|done]. set_solver.
    + rewrite Hk. f_equal. unfold materializedCount. simpl. lia.
    + exists [], []. apply extends_refl.
  - intros (st1 & w1 & Hstep & Hrest)%bindM_Ok Hinv Hk.
    destruct (writeGroup_Ok _ _ _ _ _ _ _ _ _ Hstep Hinv) as (Hinv1 & Hno & Hyes).
    unfold materializedCount. rewrite filter_cons.
    destruct (decide (materialized cg)) as [Hmat|Hnmat].
    + destruct (Hyes Hmat) as (Hgc & spans & staged & Hext & _).
      destruct (IH _ (k + 1)%N _ _ Hrest Hinv1) as (Hinv2 & Hgc2 & spans2 & staged2 & Hext2).
      { rewrite Hgc, Hk. apply u32_add_u32. }
      split; [|split].
      * eapply groupInv_mono; [|done]. set_solver.
      * rewrite Hgc2. f_equal. unfold materializedCount. simpl. lia.
      * eexists _, _. by eapply extends_trans.
    + destruct (Hno Hnmat) as (Haw & _ & Hgc & _).
      destruct (IH _ k _ _ Hrest Hinv1) as (Hinv2 & Hgc2 & spans2 & staged2 & Hext2).
      { by rewrite Hgc. }
      split; [|split].
      * eapply groupInv_mono; [|done]. set_solver.
      * rewrite Hgc2. f_equal.
      * rewrite Haw in Hext2. eauto.
Qed.

(** What a successful [writeDataToArchive] has done, from a writer with
    nothing staged. *)
Lemma writeDataToArchive_Ok cache cgList sid dd arcW (w : world S F)
    gc grouped singles arcW' w' :
  writeDataToArchive V cache cgList sid dd arcW w = (Ok (gc, grouped, singles, arcW'), w') →
  aw_seen arcW = ∅ → aw_staged arcW = [] →
  ∃ A awg spans,
    cache_addresses cache = Ok A
    ∧ groupInv A (materializedIds cgList) grouped (A ∖ aw_seen awg) awg
    ∧ gc = u32 (N.of_nat (materializedCount cgList))
    ∧ singles = u32 (N.of_nat (size (A ∖ aw_seen awg)))
    ∧ aw_spans awg = aw_spans arcW ++ spans
    ∧ (∀ h, h ∈ drainOrder V (A ∖ aw_seen awg) →
            ∃ ch, cache_get E cache h = Ok (Some ch))
    ∧ extends awg arcW'
        ((λ h, zCompressDict E (dataOf E cache h) dd) <$> drainOrder V (A ∖ aw_seen awg))
        (drained sid (length (aw_spans awg)) (drainOrder V (A ∖ aw_seen awg))).
Proof.
  unfold writeDataToArchive.
  intros (A & w1 & [Haddr ->]%lift_Ok & Hrest)%bindM_Ok Hseen Hstaged.
  apply bindM_Ok in Hrest as (st & w1 & Hgroups & Hrest).
  apply bindM_Ok in Hrest as ([ungrouped aw2] & w2 & Hdrain & [= <- <- <- <- <-]).
  unfold compressChunksInParallel in Hdrain.
  apply bindM_Ok in Hdrain as ([c aw3] & w3 & Hfold & [= <- <- <-]).
  apply drainFold_Ok in Hfold as [Hres Hext].
  destruct (writeGroups_Ok _ _ A _ ∅ 0%N _ _ _ _ Hgroups) as (Hinv & Hgc & spans & staged & Hextg).
  { simpl. split; rewrite ?Hseen, ?Hstaged.
    - set_solver.
    - by rewrite size_empty.
    - done.
    - done.
    - apply NoDup_nil_2. }
  { done. }
  rewrite (left_id_L ∅ (∪)) in Hinv.
  pose proof (gi_all _ _ _ _ _ Hinv) as Hall. rewrite Hall in *.
  exists A, (ws_arcW st), spans.
  split; [done|]. split; [done|]. split; [done|]. split; [done|].
  split; [apply (ext_spans _ _ _ _ Hextg)|]. done.
Qed.
End GroupLoop.

Section Budget.
Context {E : Externals} {S F : Type} (V : Env E S F).

Lemma writeGroupChunks_spans cache cg dictId chks g all aw g' all' aw' :
  foldO (writeGroupChunk E cache cg dictId) (g, all, aw) chks = Ok (g', all', aw') →
  ∃ spans, aw_spans aw' = aw_spans aw ++ spans.
Proof.
  revert g all aw. induction chks as [|cs chks IH]; intros g all aw; simpl.
  - intros [= <- <- <-]. exists []. by rewrite app_nil_r.
  - intros ([[g1 all1] aw1] & Hstep & Hrest)%obind_Ok.
    apply IH in Hrest as [spans2 Hs2].
    unfold writeGroupChunk in Hstep.
    apply obind_Ok in Hstep as (c & _ & Hstep).
    apply obind_Ok in Hstep as ([g2 aw2] & Hwrite & [= <- <- <-]).
    destruct (chunkSeen aw (chunkId E cs)).
    + injection Hwrite as <- <-. eauto.
    + destruct c as [c|]; [|done].
      apply obind_Ok in Hwrite as ([dataId aw3] & Hspan & Hwrite).
      apply writeByteSpan_Ok in Hspan as [_ Hext1].
      injection Hwrite as <- <-.
      exists ([zCompressDict E (c_data c) (cg_cDict E cg)] ++ spans2).
      rewrite Hs2. simpl. rewrite (ext_spans _ _ _ _ Hext1).
      by rewrite <- app_assoc.
Qed.

Lemma writeGroup_budget cache n st cg (w : world S F) st' w' :
  writeGroup V cache n st cg w = (Ok st', w') →
  (materialized cg →
     ws_groupCount st' = u32_add (ws_groupCount st) 1
     ∧ ∃ spans, aw_spans (ws_arcW st')
                = aw_spans (ws_arcW st) ++ zCompress E (cg_dict E cg) :: spans)
  ∧ (¬ materialized cg →
     ws_arcW st' = ws_arcW st ∧ ws_allChunks st' = ws_allChunks st
     ∧ ws_groupCount st' = ws_groupCount st
     ∧ ws_groupedChunkCount st' = ws_groupedChunkCount st).
Proof.
  unfold writeGroup. destruct (ctxDone V _); [done|].
  intros (st1 & w1 & [Hbody ->]%lift_Ok & Hrest)%bindM_Ok.
  apply bindM_Ok in Hrest as ([] & w1 & _ & [= <- <-]). simpl.
  unfold materialized.
  destruct (decide (totalBytesSavedDefaultDict E cg < totalBytesSavedWDict E cg)%Z)
    as [Hmat|Hnmat].
  - split; [intros _|done].
    apply obind_Ok in Hbody as ([dictId aw1] & Hspan & Hbody).
    apply writeByteSpan_Ok in Hspan as [-> Hext1].
    apply obind_Ok in Hbody as ([[g2 all2] aw2] & Hchunks & [= <-]). simpl.
    split; [done|].
    apply writeGroupChunks_spans in Hchunks as [spans Hs].
    exists spans. rewrite Hs, (ext_spans _ _ _ _ Hext1). by rewrite <- app_assoc.
  - injection Hbody as <-. split; [done|]. by intros _.
Qed.
End Budget.

Section Quiet.
Context {E : Externals} {S F : Type} (V : Env E S F).
Local Abbreviation M := (@M S F).

Lemma quiet_keeps {A} (m : M A) : quiet m → keeps m.
Proof. intros Hq w. destruct (Hq w) as [msgs ->]. done. Qed.

Lemma quiet_ret {A} (a : A) : quiet (ret a : M A).
Proof. intros w. exists []. simpl. rewrite app_nil_r. by destruct w. Qed.

Lemma quiet_lift {A} (o : outcome A) : quiet (lift o : M A).
Proof. intros w. exists []. simpl. rewrite app_nil_r. by destruct w. Qed.

Lemma quiet_fail {A} e : quiet (fail e : M A).
Proof. apply quiet_lift. Qed.

Lemma quiet_send msg : quiet (send msg : M ()).
Proof. intros w. by exists [msg]. Qed.

Lemma quiet_bind {A B} (m : M A) (k : A → M B) :
  quiet m → (∀ a, quiet (k a)) → quiet (bindM m k).
Proof.
  intros Hm Hk w. unfold bindM. destruct (Hm w) as [msgs Hw].
  destruct (m w) as [[a|e| |] w1]; simpl in *; try (by exists msgs).
  destruct (Hk a w1) as [msgs' ->]. subst w1. simpl.
  exists (msgs ++ msgs'). by rewrite app_assoc.
Qed.

Lemma quiet_foldM {A B} (f : B → A → M B) b l :
  (∀ b a, quiet (f b a)) → quiet (foldM f b l).
Proof.
  intros Hf. revert b. induction l as [|a l IH]; intros b; simpl.
  - apply quiet_ret.
  - apply quiet_bind; [apply Hf|apply IH].
Qed.

Lemma quiet_buildGroup chks dd gc st hs : quiet (buildGroup V chks dd gc st hs).
Proof.
  unfold buildGroup. destruct st as [result completed].
  destruct (ctxDone V completed); [apply quiet_fail|].
  destruct (decide _); [|apply quiet_ret].
  apply quiet_bind; [apply quiet_lift|intros chkGrp].
  apply quiet_bind; [apply quiet_send|intros _]. apply quiet_ret.
Qed.

Lemma quiet_convertToChunkGroups cr chks dd : quiet (convertToChunkGroups V cr chks dd).
Proof.
  unfold convertToChunkGroups. destruct (decide _).
  - apply quiet_bind; [apply quiet_foldM; intros; apply quiet_buildGroup|].
    intros [result n]. apply quiet_ret.
  - apply quiet_bind; [apply quiet_send|intros _; apply quiet_ret].
Qed.

Lemma quiet_writeGroup cache n st cg : quiet (writeGroup V cache n st cg).
Proof.
  unfold writeGroup. destruct (ctxDone V _); [apply quiet_fail|].
  apply quiet_bind; [apply quiet_lift|intros st'].
  apply quiet_bind; [apply quiet_send|intros _]. apply quiet_ret.
Qed.

Lemma quiet_drainChunk cache dd sid total st addr :
  quiet (drainChunk E cache dd sid total st addr : M _).
Proof.
  unfold drainChunk. destruct st as [completed arcW].
  apply quiet_bind; [apply quiet_lift|intros [c|]; [|apply quiet_lift]].
  apply quiet_bind; [apply quiet_lift|intros [id arcW']].
  apply quiet_bind; [apply quiet_lift|intros arcW''].
  apply quiet_bind; [apply quiet_send|intros _]. apply quiet_ret.
Qed.

Lemma quiet_compress all cache arcW dd sid :
  quiet (compressChunksInParallel V all cache arcW dd sid).
Proof.
  unfold compressChunksInParallel.
  apply quiet_bind; [apply quiet_foldM; intros; apply quiet_drainChunk|].
  intros [n arcW']. apply quiet_ret.
Qed.

Lemma quiet_writeData cache cgList sid dd arcW :
  quiet (writeDataToArchive V cache cgList sid dd arcW).
Proof.
  unfold writeDataToArchive.
  apply quiet_bind; [apply quiet_lift|intros allChunks].
  apply quiet_bind; [apply quiet_foldM; intros; apply quiet_writeGroup|intros st].
  apply quiet_bind; [apply quiet_compress|intros [n arcW']]. apply quiet_ret.
Qed.

Lemma quiet_verifyChunk index cc n h : quiet (verifyChunk E index cc n h : M _).
Proof.
  unfold verifyChunk. destruct (negb _); [apply quiet_fail|].
  apply quiet_bind; [apply quiet_lift|intros [data|]; [|apply quiet_fail]].
  destruct (decide _); [apply quiet_fail|].
  apply quiet_bind; [apply quiet_send|intros _]. apply quiet_ret.
Qed.

Lemma quiet_verify idx file : quiet (verifyAllChunks V idx file).
Proof.
  unfold verifyAllChunks.
  apply quiet_bind; [|intros index].
  { intros w. exists []. simpl. rewrite app_nil_r. by destruct w. }
  apply quiet_bind; [apply quiet_lift|intros hashList].
  apply quiet_bind; [apply quiet_foldM; intros; apply quiet_verifyChunk|intros _].
  apply quiet_ret.
Qed.
End Quiet.

Lemma readEntries_length idx i n l : readEntries idx i n = Ok l → length l = n.
Proof.
  revert i l. induction n as [|n IH]; intros i l; simpl.
  - by intros [= <-].
  - intros (h & _ & Hrest)%obind_Ok.
    apply obind_Ok in Hrest as (rest & Hrest & [= <-]).
    simpl. f_equal. by eapply IH.
Qed.

Lemma insertAll_set (hs : list Hash) (acc : gset Hash) :
  foldl (λ result h, result ∪ {[h]}) acc hs = acc ∪ list_to_set hs.
Proof.
  revert acc. induction hs as [|h hs IH]; intros acc; simpl.
  - by rewrite (right_id_L ∅ (∪)).
  - rewrite IH. set_solver.
Qed.

Lemma size_list_to_set_le (hs : list Hash) :
  (size (list_to_set hs : gset Hash) ≤ length hs)%nat
  ∧ (size (list_to_set hs : gset Hash) = length hs ↔ NoDup hs).
Proof.
  induction hs as [|h hs [IHle IHeq]].
  - rewrite list_to_set_nil, size_empty. split; [done|].
    split; [intros _; apply NoDup_nil_2|done].
  - rewrite list_to_set_cons, length_cons.
    destruct (decide (h ∈ hs)) as [Hin|Hnin].
    + assert ({[h]} ∪ list_to_set hs = (list_to_set hs : gset Hash)) as ->.
      { apply (elem_of_list_to_set (C:=gset Hash)) in Hin. set_solver. }
      split; [lia|]. split; [lia|].
      intros [Hn _]%NoDup_cons. done.
    + rewrite size_union by (rewrite disjoint_singleton_l, elem_of_list_to_set; done).
      rewrite size_singleton. split; [lia|]. rewrite NoDup_cons. split.
      * intros Hs. split; [done|]. apply IHeq. lia.
      * intros [_ Hnd]. apply IHeq in Hnd. lia.
Qed.

Section GroupIds.
Context {E : Externals}.

Lemma resolveChunks_resolved cache scs acc chks :
  resolveChunks E cache scs acc = Ok chks →
  (∀ c, c ∈ acc → resolved E cache c) → ∀ c, c ∈ chks → resolved E cache c.
Proof.
  revert acc. induction scs as [|cs scs IH]; intros acc; simpl.
  - by intros [= <-].
  - intros (chk & Hget & Hrest)%obind_Ok Hacc.
    destruct chk as [c|]; eapply IH; try done.
    intros c' [Hc'| ->%list_elem_of_singleton]%elem_of_app; [by apply Hacc|].
    by exists (chunkId E cs).
Qed.

Lemma scoreFold_ids cDict dd chks scored raw ds nds :
  (foldl (scoreStep E cDict dd) (scored, raw, ds, nds) chks).1.1.1
  = scored ++ ((λ c, mkScore E (c_hash c)
                       (Some (f64_ratio E (blen (c_data c) - blen (zCompressDict E (c_data c) cDict))%Z
                                (blen (c_data c))))
                       (blen (zCompressDict E (c_data c) cDict))
                       (blen (zCompressDict E (c_data c) dd))) <$> chks).
Proof.
  revert scored raw ds nds. induction chks as [|c chks IH]; intros scored raw ds nds; simpl.
  - by rewrite app_nil_r.
  - rewrite IH. by rewrite <- app_assoc.
Qed.

Lemma rebuild_ids sortScores cg cache dd cg' :
  (∀ l, sortScores l ≡ₚ l) →
  rebuild E sortScores cg cache dd = Ok cg' →
  ∀ sc, sc ∈ cg_chks E cg' → ∃ c, resolved E cache c ∧ chunkId E sc = c_hash c.
Proof.
  intros Hperm. unfold rebuild.
  intros (chks & Hres & Hrest)%obind_Ok.
  apply obind_Ok in Hrest as (samples & _ & Hrest).
  apply obind_Ok in Hrest as (cDict & _ & Hrest).
  pose proof (scoreFold_ids cDict dd chks [] 0%Z (blen (zCompress E (buildDictionary E samples))) 0%Z)
    as Hids.
  destruct (foldl _ _ chks) as [[[scored raw] dictSz] noDictSz]. simpl in Hids.
  destruct (decide _); [done|]. injection Hrest as <-. simpl.
  intros sc Hsc. rewrite Hperm, Hids in Hsc.
  apply list_elem_of_fmap in Hsc as (c & -> & Hc). exists c. split; [|done].
  eapply resolveChunks_resolved; [done| |done].
  intros c' Hc'. by apply elem_of_nil in Hc'.
Qed.
End GroupIds.

Section ConvertGroups.
Context {E : Externals} {S F : Type} (V : Env E S F).

Lemma buildGroups_ids cache dd gc gs result n (w : world S F) result' n' w' :
  (∀ l, sortScores V l ≡ₚ l) →
  foldM (buildGroup V cache dd gc) (result, n) gs w = (Ok (result', n'), w') →
  (∀ cg sc, cg ∈ result → sc ∈ cg_chks E cg → ∃ c, resolved E cache c ∧ chunkId E sc = c_hash c) →
  ∀ cg sc, cg ∈ result' → sc ∈ cg_chks E cg → ∃ c, resolved E cache c ∧ chunkId E sc = c_hash c.
Proof.
  intros Hperm. revert result n w. induction gs as [|hs gs IH]; intros result n w; simpl.
  - by intros [= <- <- <-].
  - intros ([result1 n1] & w1 & Hstep & Hrest)%bindM_Ok Hres.
    eapply IH; [done|]. unfold buildGroup in Hstep.
    destruct (ctxDone V n); [done|]. destruct (decide _).
    + apply bindM_Ok in Hstep as (chkGrp & w2 & [Hnew ->]%lift_Ok & Hstep).
      apply bindM_Ok in Hstep as ([] & w2 & _ & [= <- <- <-]).
      intros cg sc [Hcg| ->%list_elem_of_singleton]%elem_of_app Hsc; [by eapply Hres|].
      unfold newChunkGroup in Hnew. by eapply rebuild_ids.
    + injection Hstep as <- <- <-. done.
Qed.

Lemma convertToChunkGroups_ids cr cache dd (w : world S F) cgList w' :
  (∀ l, sortScores V l ≡ₚ l) →
  convertToChunkGroups V cr cache dd w = (Ok cgList, w') →
  ∀ cg sc, cg ∈ cgList → sc ∈ cg_chks E cg → ∃ c, resolved E cache c ∧ chunkId E sc = c_hash c.
Proof.
  intros Hperm. unfold convertToChunkGroups. destruct (decide _).
  - intros ([result n] & w1 & Hfold & [= <- <-])%bindM_Ok.
    eapply buildGroups_ids; [done..|].
    intros cg sc Hcg. by apply elem_of_nil in Hcg.
  - intros ([] & w1 & _ & [= <- <-])%bindM_Ok.
    intros cg sc Hcg. by apply elem_of_nil in Hcg.
Qed.

Lemma materializedIds_subseteq (A : gset Hash) (cgList : list (chunkGroup E)) :
  (∀ cg sc, cg ∈ cgList → sc ∈ cg_chks E cg → chunkId E sc ∈ A) →
  materializedIds cgList ⊆ A.
Proof.
  induction cgList as [|cg cgList IH]; intros Hall; simpl; [set_solver|].
  apply union_subseteq. split.
  - destruct (decide _); [|set_solver].
    intros h Hh. unfold groupIds in Hh. apply elem_of_list_to_set in Hh.
    apply list_elem_of_fmap in Hh as (sc & -> & Hsc).
    eapply Hall; [|done]. constructor.
  - apply IH. intros cg' sc Hcg. apply Hall. by constructor.
Qed.
End ConvertGroups.

Section Members.
Context {E : Externals}.

Lemma resolveChunks_from cache scs acc chks :
  resolveChunks E cache scs acc = Ok chks →
  ∀ c, c ∈ chks → c ∈ acc ∨ ∃ sc, sc ∈ scs ∧ cache_get E cache (chunkId E sc) = Ok (Some c).
Proof.
  revert acc. induction scs as [|cs scs IH]; intros acc; simpl.
  - intros [= <-] c Hc. by left.
  - intros (chk & Hget & Hrest)%obind_Ok c Hc.
    destruct chk as [c0|].
    + destruct (IH _ Hrest c Hc) as [[Hacc| ->%list_elem_of_singleton]%elem_of_app|(sc & Hsc & Hg)].
      * by left.
      * right. exists cs. split; [constructor|done].
      * right. exists sc. split; [by constructor|done].
    + destruct (IH _ Hrest c Hc) as [Hacc|(sc & Hsc & Hg)]; [by left|].
      right. exists sc. split; [by constructor|done].
Qed.

Lemma newChunkGroup_ids sortScores cache (l : list Hash) dd cg :
  (∀ l, sortScores l ≡ₚ l) →
  (∀ h b, cs_get (csc_cs cache) h = Ok (Some b) → hashOf E b = h) →
  newChunkGroup E sortScores cache l dd = Ok cg →
  ∀ sc, sc ∈ cg_chks E cg → chunkId E sc ∈ l.
Proof.
  intros Hperm Haddr. unfold newChunkGroup, rebuild. cbn [cg_chks].
  intros (chks & Hres & Hrest)%obind_Ok.
  apply obind_Ok in Hrest as (samples & _ & Hrest).
  apply obind_Ok in Hrest as (cDict & _ & Hrest).
  pose proof (scoreFold_ids (E:=E) cDict dd chks [] 0%Z (blen (zCompress E (buildDictionary E samples))) 0%Z)
    as Hids.
  destruct (foldl _ _ chks) as [[[scored raw] dictSz] noDictSz]. simpl in Hids.
  destruct (decide _); [done|]. injection Hrest as <-. simpl.
  intros sc Hsc. rewrite Hperm, Hids in Hsc.
  apply list_elem_of_fmap in Hsc as (c & -> & Hc). simpl.
  destruct (resolveChunks_from _ _ _ _ Hres c Hc) as [Hnil|(sc & Hsc & Hget)].
  { by apply elem_of_nil in Hnil. }
  apply list_elem_of_fmap in Hsc as (h & -> & Hh). simpl in Hget.
  unfold cache_get in Hget.
  destruct (cs_get (csc_cs cache) h) as [[b|]| | |] eqn:Hb; try done.
  injection Hget as <-. simpl. by rewrite (Haddr _ _ Hb).
Qed.
End Members.

Section Disjoint.
Context {E : Externals} {S F : Type} (V : Env E S F).

Lemma buildGroups_from cache dd gc gs result n (w : world S F) result' n' w' :
  (∀ l, sortScores V l ≡ₚ l) →
  (∀ s, rangeHashSet V s ≡ₚ elements s) →
  (∀ h b, cs_get (csc_cs cache) h = Ok (Some b) → hashOf E b = h) →
  foldM (buildGroup V cache dd gc) (result, n) gs w = (Ok (result', n'), w') →
  ∃ new gs', result' = result ++ new ∧ sublist gs' gs
             ∧ Forall2 (⊆) (groupIds <$> new) gs'.
Proof.
  intros HsortS Hrange Haddr.
  revert result n w. induction gs as [|hs gs IH]; intros result n w; simpl.
  - intros [= <- <- <-]. exists [], []. rewrite app_nil_r. by repeat constructor.
  - intros ([result1 n1] & w1 & Hstep & Hrest)%bindM_Ok.
    destruct (IH _ _ _ Hrest) as (new & gs' & -> & Hsub & Hall).
    unfold buildGroup in Hstep.
    destruct (ctxDone V n); [done|]. destruct (decide _).
    + apply bindM_Ok in Hstep as (chkGrp & w2 & [Hnew ->]%lift_Ok & Hstep).
      apply bindM_Ok in Hstep as ([] & w2 & _ & [= <- <- <-]).
      exists (chkGrp :: new), (hs :: gs'). rewrite <- app_assoc. split; [done|].
      split; [by constructor|]. simpl. constructor; [|done].
      intros h Hh. unfold groupIds in Hh. apply elem_of_list_to_set in Hh.
      apply list_elem_of_fmap in Hh as (sc & -> & Hsc).
      pose proof (newChunkGroup_ids _ _ _ _ _ HsortS Haddr Hnew sc Hsc) as Hin.
      rewrite Hrange in Hin. by apply elem_of_elements in Hin.
    + injection Hstep as <- <- <-. exists new, gs'. split; [done|]. split; [|done].
      by constructor.
Qed.

Lemma convertToChunkGroups_disjoint cr cache dd (w : world S F) cgList w' :
  wfRelations cr →
  (∀ m, rangeRelations V m ≡ₚ map_to_list m) →
  (∀ l, sortScores V l ≡ₚ l) →
  (∀ s, rangeHashSet V s ≡ₚ elements s) →
  (∀ h b, cs_get (csc_cs cache) h = Ok (Some b) → hashOf E b = h) →
  convertToChunkGroups V cr cache dd w = (Ok cgList, w') →
  pairwiseDisjoint (groupIds <$> cgList).
Proof.
  intros Hwf HrangeR HsortS HrangeH Haddr. unfold convertToChunkGroups.
  destruct (decide _).
  - intros ([result n] & w1 & Hfold & [= <- <-])%bindM_Ok.
    destruct (buildGroups_from _ _ _ _ _ _ _ _ _ _ HsortS HrangeH Haddr Hfold)
      as (new & gs' & -> & Hsub & Hall). simpl.
    eapply pairwiseDisjoint_subsets; [done|].
    eapply pairwiseDisjoint_sublist; [done|].
    by apply groups_pairwiseDisjoint.
  - intros ([] & w1 & _ & [= <- <-])%bindM_Ok. done.
Qed.
End Disjoint.

Lemma materializedIds_elem {E : Externals} (cgList : list (chunkGroup E)) h :
  h ∈ materializedIds cgList → ∃ cg, cg ∈ cgList ∧ materialized cg ∧ h ∈ groupIds cg.
Proof.
  induction cgList as [|cg cgList IH]; simpl; [set_solver|].
  intros [Hh|Hh]%elem_of_union.
  - destruct (decide (materialized cg)); [|set_solver].
    exists cg. split; [constructor|done].
  - destruct (IH Hh) as (cg' & Hcg' & Hm & Hin). exists cg'. split; [by constructor|done].
Qed.

Lemma abandoned_not_materialized {E : Externals} (cgList : list (chunkGroup E)) cg h :
  pairwiseDisjoint (groupIds <$> cgList) →
  cg ∈ cgList → ¬ materialized cg → h ∈ groupIds cg → h ∉ materializedIds cgList.
Proof.
  induction cgList as [|c0 cgList IH]; simpl; [by intros _ ?%elem_of_nil|].
  intros [Hc0 Hpd] Hcg Hn Hh [Hm|Hm]%elem_of_union.
  - destruct (decide (materialized c0)) as [Hm0|]; [|set_solver].
    apply elem_of_cons in Hcg as [->|Hcg]; [done|].
    apply (Hc0 (groupIds cg) (list_elem_of_fmap_2 _ _ _ Hcg) h); done.
  - apply elem_of_cons in Hcg as [->|Hcg]; [|by apply IH].
    apply materializedIds_elem in Hm as (cg' & Hcg' & _ & Hin).
    apply (Hc0 (groupIds cg') (list_elem_of_fmap_2 _ _ _ Hcg') h); done.
Qed.

(** ** The group budget *)

Lemma pairwiseDisjoint_lookup l i j (x y : gset Hash) :
  pairwiseDisjoint l → i ≠ j → l !! i = Some x → l !! j = Some y → x ## y.
Proof.
  revert i j. induction l as [|z l IH]; intros i j; simpl; [done|].
  intros [Hz Hl] Hne Hi Hj.
  destruct i as [|i], j as [|j]; simpl in *; try done.
  - injection Hi as ->. apply Hz. by eapply list_elem_of_lookup_2.
  - injection Hj as ->. symmetry. apply Hz. by eapply list_elem_of_lookup_2.
  - eapply (IH i j); [done|lia|done..].
Qed.

Lemma freshIds_subseteq seen l h : h ∈ freshIds seen l → h ∈ l ∧ h ∉ seen.
Proof.
  revert seen. induction l as [|x l IH]; intros seen; simpl.
  - by intros ?%elem_of_nil.
  - destruct (decide (x ∈ seen)) as [Hin|Hnin].
    + intros [? ?]%IH. split; [by constructor|done].
    + intros [->|[? ?]%IH]%elem_of_cons; [split; [constructor|done]|].
      split; [by constructor|set_solver].
Qed.

Lemma freshIds_seen seen l :
  seen ∪ list_to_set (freshIds seen l) = seen ∪ list_to_set l.
Proof.
  revert seen. induction l as [|x l IH]; intros seen; simpl; [done|].
  destruct (decide (x ∈ seen)) as [Hin|Hnin].
  - rewrite IH. set_solver.
  - simpl. rewrite !(assoc_L (∪)). apply IH.
Qed.

Lemma freshIds_NoDup seen l : NoDup (freshIds seen l).
Proof.
  revert seen. induction l as [|x l IH]; intros seen; simpl; [constructor|].
  destruct (decide (x ∈ seen)) as [Hin|Hnin]; [apply IH|].
  constructor; [|apply IH].
  intros [_ Hn]%freshIds_subseteq. set_solver.
Qed.

Section GroupExact.
Context {E : Externals}.

Lemma writeGroupChunks_exact cache (cg : chunkGroup E) dictId chks g all aw g' all' aw' :
  foldO (writeGroupChunk E cache cg dictId) (g, all, aw) chks = Ok (g', all', aw') →
  let fresh := freshIds (aw_seen aw) (chunkId E <$> chks) in
  extends aw aw'
    ((λ h, zCompressDict E (dataOf E cache h) (cg_cDict E cg)) <$> fresh)
    (drained dictId (length (aw_spans aw)) fresh)
  ∧ all' = all ∖ list_to_set (chunkId E <$> chks)
  ∧ g' = Nat.iter (length fresh) (λ g, u32_add g 1) g
  ∧ ∀ h, h ∈ fresh → ∃ ch, cache_get E cache h = Ok (Some ch).
Proof.
  revert g all aw. induction chks as [|cs chks IH]; intros g all aw; simpl.
  - intros [= <- <- <-]. split; [apply extends_refl|]. split; [set_solver|].
    split; [done|]. by intros h ?%elem_of_nil.
  - intros ([[g1 all1] aw1] & Hstep & Hrest)%obind_Ok.
    apply IH in Hrest as (Hext2 & -> & -> & Hres2).
    unfold writeGroupChunk in Hstep.
    apply obind_Ok in Hstep as (c & Hget & Hstep).
    apply obind_Ok in Hstep as ([g2 aw2] & Hwrite & [= <- <- <-]).
    unfold chunkSeen in Hwrite.
    destruct (decide (chunkId E cs ∈ aw_seen aw)) as [Hin|Hnin].
    + rewrite bool_decide_eq_true_2 in Hwrite by done. injection Hwrite as <- <-.
      split; [done|]. split; [set_solver|]. done.
    + rewrite bool_decide_eq_false_2 in Hwrite by done.
      destruct c as [c|]; [|done].
      apply obind_Ok in Hwrite as ([dataId aw3] & Hspan & Hwrite).
      apply writeByteSpan_Ok in Hspan as [-> Hext1].
      assert (∃ aw4, stageZStdChunk aw3 (chunkId E cs) dictId
                       (u32 (N.of_nat (length (aw_spans aw)) + 1)) = Ok aw4
                     ∧ Ok (u32_add g 1, aw4) = Ok (g2, aw2)) as (aw4 & Hstage & [= <- <-])
        by (eexists; split; [reflexivity|exact Hwrite]).
      apply stageZStdChunk_Ok in Hstage.
      pose proof (extends_trans _ _ _ _ _ _ _ Hext1 Hstage) as Hext. simpl in Hext.
      assert (aw_seen aw4 = aw_seen aw ∪ {[chunkId E cs]}) as Hseen.
      { rewrite (ext_seen _ _ _ _ Hext). simpl. set_solver. }
      assert (length (aw_spans aw4) = Datatypes.S (length (aw_spans aw))) as Hlen.
      { rewrite (ext_spans _ _ _ _ Hext), length_app. simpl. lia. }
      rewrite Hseen, Hlen in Hext2. rewrite Hseen in Hres2. rewrite ?Hseen.
      split; [|split; [set_solver|split]].
      * simpl.
        replace (dataOf E cache (chunkId E cs)) with (c_data c)
          by (unfold dataOf; by rewrite Hget).
        apply (extends_trans _ _ _ _ _ _ _ Hext Hext2).
      * cbn [length]. by rewrite Nat.iter_succ_r.
      * intros h [->|Hh]%elem_of_cons; [eauto|by apply Hres2].
Qed.
End GroupExact.

Section GroupLoopExact.
Context {E : Externals} {S F : Type} (V : Env E S F).

Lemma writeGroup_exact cache n st (cg : chunkGroup E) (w : world S F) st' w' :
  writeGroup V cache n st cg w = (Ok st', w') →
  materialized cg →
  let dictId := u32 (N.of_nat (length (aw_spans (ws_arcW st))) + 1) in
  let fresh := freshIds (aw_seen (ws_arcW st)) (chunkId E <$> cg_chks E cg) in
  extends (ws_arcW st) (ws_arcW st')
    (zCompress E (cg_dict E cg)
     :: ((λ h, zCompressDict E (dataOf E cache h) (cg_cDict E cg)) <$> fresh))
    (drained dictId (Datatypes.S (length (aw_spans (ws_arcW st)))) fresh)
  ∧ ws_allChunks st' = ws_allChunks st ∖ groupIds cg
  ∧ ws_groupedChunkCount st'
    = Nat.iter (length fresh) (λ g, u32_add g 1) (ws_groupedChunkCount st)
  ∧ ∀ h, h ∈ fresh → ∃ ch, cache_get E cache h = Ok (Some ch).
Proof.
  unfold writeGroup. destruct (ctxDone V _); [done|].
  intros (st1 & w1 & [Hbody ->]%lift_Ok & Hrest)%bindM_Ok Hmat.
  apply bindM_Ok in Hrest as ([] & w1 & _ & [= <- <-]). simpl.
  rewrite decide_True in Hbody by done.
  apply obind_Ok in Hbody as ([dictId aw1] & Hspan & Hbody).
  apply writeByteSpan_Ok in Hspan as [-> Hext1].
  apply obind_Ok in Hbody as ([[g2 all2] aw2] & Hchunks & [= <-]). simpl.
  apply writeGroupChunks_exact in Hchunks as (Hext2 & -> & -> & Hres).
  assert (aw_seen aw1 = aw_seen (ws_arcW st)) as Hseen.
  { rewrite (ext_seen _ _ _ _ Hext1). simpl. set_solver. }
  assert (length (aw_spans aw1) = Datatypes.S (length (aw_spans (ws_arcW st)))) as Hlen.
  { rewrite (ext_spans _ _ _ _ Hext1), length_app. simpl. lia. }
  rewrite Hseen, Hlen in Hext2. rewrite Hseen in Hres. rewrite Hseen.
  split; [|done].
  apply (extends_trans _ _ _ _ _ _ _ Hext1 Hext2).
Qed.
End GroupLoopExact.

Lemma NoDup_fmap_eq {A B} (f : A → B) (l : list A) x y :
  NoDup (f <$> l) → x ∈ l → y ∈ l → f x = f y → x = y.
Proof.
  intros Hnd [i Hi]%list_elem_of_lookup [j Hj]%list_elem_of_lookup Heq.
  assert (i = j) as ->.
  { eapply NoDup_lookup; [exact Hnd|..]; rewrite list_lookup_fmap.
    - by rewrite Hi.
    - rewrite Hj. simpl. by rewrite Heq. }
  congruence.
Qed.

Lemma pairwiseDisjoint_same {E : Externals} (l : list (chunkGroup E)) cg cg' h :
  pairwiseDisjoint (groupIds <$> l) → cg ∈ l → cg' ∈ l →
  h ∈ groupIds cg → h ∈ groupIds cg' → cg = cg'.
Proof.
  intros Hpd [i Hi]%list_elem_of_lookup [j Hj]%list_elem_of_lookup Hh Hh'.
  destruct (decide (i = j)) as [->|Hne]; [congruence|].
  exfalso.
  apply (pairwiseDisjoint_lookup _ i j (groupIds cg) (groupIds cg') Hpd Hne
           ltac:(by rewrite list_lookup_fmap, Hi) ltac:(by rewrite list_lookup_fmap, Hj) h);
    done.
Qed.

Section GroupEntries.
Context {E : Externals} {S F : Type} (V : Env E S F).

Lemma groupEntry_mono cache (cgs cgs' : list (chunkGroup E)) aw0 aw0' aw aw' r spans :
  groupEntry cache cgs aw0 aw r →
  aw_spans aw' = aw_spans aw ++ spans →
  (length (aw_spans aw0') ≤ length (aw_spans aw0))%nat →
  (∀ cg, cg ∈ cgs → cg ∈ cgs') →
  groupEntry cache cgs' aw0' aw' r.
Proof.
  intros (cg & Hcg & Hmat & Hh & Hbase & Hpos & Hd & Hdata & Hres) Hsp Hlen Hsub.
  exists cg. split; [by apply Hsub|]. split; [done|]. split; [done|].
  split; [lia|]. split; [done|].
  rewrite Hsp. split; [by apply lookup_app_l_Some|]. split; [by apply lookup_app_l_Some|done].
Qed.

Lemma writeGroups_seen cache n (cgList : list (chunkGroup E)) st (w : world S F) st' w' :
  foldM (writeGroup V cache n) st cgList w = (Ok st', w') →
  aw_seen (ws_arcW st) ⊆ aw_seen (ws_arcW st')
  ∧ ∀ cg, cg ∈ cgList → materialized cg → groupIds cg ⊆ aw_seen (ws_arcW st').
Proof.
  revert st w. induction cgList as [|cg cgList IH]; intros st w; simpl.
  - intros [= <- <-]. split; [done|]. by intros cg ?%elem_of_nil.
  - intros (st1 & w1 & Hstep & Hrest)%bindM_Ok.
    destruct (IH _ _ Hrest) as [Hsub Hall].
    assert (aw_seen (ws_arcW st) ⊆ aw_seen (ws_arcW st1)
            ∧ (materialized cg → groupIds cg ⊆ aw_seen (ws_arcW st1))) as [Hsub1 Hcg].
    { destruct (decide (materialized cg)) as [Hmat|Hn].
      - destruct (writeGroup_exact V _ _ _ _ _ _ _ Hstep Hmat) as (Hext & _).
        rewrite (ext_seen _ _ _ _ Hext), drained_hashes, freshIds_seen.
        unfold groupIds. set_solver.
      - destruct (writeGroup_budget V _ _ _ _ _ _ _ Hstep) as [_ Hno].
        destruct (Hno Hn) as (-> & _). done. }
    split; [set_solver|].
    intros cg' [->|Hin]%elem_of_cons Hmat; [|by apply Hall].
    specialize (Hcg Hmat). set_solver.
Qed.

Lemma writeGroups_entries cache n (cgList : list (chunkGroup E)) st (w : world S F) st' w' :
  foldM (writeGroup V cache n) st cgList w = (Ok st', w') →
  (N.of_nat (length (aw_spans (ws_arcW st'))) < 2 ^ 32)%N →
  ∃ spans staged,
    extends (ws_arcW st) (ws_arcW st') spans staged
    ∧ ∀ r, r ∈ staged → groupEntry cache cgList (ws_arcW st) (ws_arcW st') r.
Proof.
  revert st w. induction cgList as [|cg cgList IH]; intros st w; simpl.
  - intros [= <- <-] _. exists [], []. split; [apply extends_refl|].
    by intros r ?%elem_of_nil.
  - intros (st1 & w1 & Hstep & Hrest)%bindM_Ok Hbound.
    destruct (IH _ _ Hrest Hbound) as (spans2 & staged2 & Hext2 & Hent2).
    destruct (decide (materialized cg)) as [Hmat|Hn].
    + destruct (writeGroup_exact V _ _ _ _ _ _ _ Hstep Hmat) as (Hext1 & _ & _ & Hres).
      set (len := length (aw_spans (ws_arcW st))) in *.
      set (fresh := freshIds (aw_seen (ws_arcW st)) (chunkId E <$> cg_chks E cg)) in *.
      pose proof (extends_trans _ _ _ _ _ _ _ Hext1 Hext2) as Hext.
      pose proof (ext_spans _ _ _ _ Hext) as Hsp.
      assert (length (aw_spans (ws_arcW st'))
              = (len + Datatypes.S (length fresh) + length spans2)%nat) as Hlen'.
      { rewrite Hsp. rewrite !length_app. simpl. rewrite length_fmap.
        unfold len. lia. }
      eexists _, _. split; [exact Hext|].
      intros r [Hr|Hr]%elem_of_app.
      * apply drained_elem in Hr as (i & h & Hi & ->).
        apply lookup_lt_Some in Hi as Hlt.
        match goal with
        | |- groupEntry _ _ _ _ (mkStaged _ ?d ?x) =>
            remember x as dat eqn:Hdat; remember d as did eqn:Hdid
        end.
        rewrite u32_small in Hdat, Hdid by lia.
        assert (Nat.pred (N.to_nat did) = (len + 0)%nat) as Hpd by lia.
        assert (Nat.pred (N.to_nat dat) = (len + Datatypes.S i)%nat) as Hpx by lia.
        exists cg. cbn [sc_hash sc_dict sc_data]. rewrite Hpd, Hpx.
        split; [constructor|]. split; [done|].
        split.
        { unfold groupIds. apply elem_of_list_to_set.
          pose proof (list_elem_of_lookup_2 _ _ _ Hi) as Hin.
          by apply freshIds_subseteq in Hin as [Hin _]. }
        split; [unfold len; lia|]. split; [lia|].
        rewrite Hsp. split.
        { rewrite lookup_app_r by (unfold len; lia).
          by replace (len + 0 - length (aw_spans (ws_arcW st)))%nat with 0%nat
            by (unfold len; lia). }
        split.
        { rewrite lookup_app_r by (unfold len; lia).
          replace (len + Datatypes.S i - length (aw_spans (ws_arcW st)))%nat
            with (Datatypes.S i) by (unfold len; lia).
          rewrite lookup_app_l by (rewrite length_cons, length_fmap; lia).
          rewrite lookup_cons_ne_0 by lia. cbn [Nat.pred].
          apply list_lookup_fmap_Some. by exists h. }
        apply Hres. by eapply list_elem_of_lookup_2.
      * eapply groupEntry_mono; [by apply Hent2|by rewrite app_nil_r| |].
        -- rewrite (ext_spans _ _ _ _ Hext1), length_app. lia.
        -- intros cg' ?. by constructor.
    + destruct (writeGroup_budget V _ _ _ _ _ _ _ Hstep) as [_ Hno].
      destruct (Hno Hn) as (Haw & _). rewrite Haw in *.
      exists spans2, staged2. split; [done|].
      intros r Hr. eapply groupEntry_mono; [by apply Hent2|by rewrite app_nil_r|done|].
      intros cg' Hcg'. by constructor.
Qed.
End GroupEntries.

Section DataEntries.
Context {E : Externals} {S F : Type} (V : Env E S F).

Lemma writeDataToArchive_entries cache (cgList : list (chunkGroup E)) sid dd arcW
    (w : world S F) gc grouped singles arcW' w' :
  writeDataToArchive V cache cgList sid dd arcW w = (Ok (gc, grouped, singles, arcW'), w') →
  aw_seen arcW = ∅ → aw_staged arcW = [] →
  (N.of_nat (length (aw_spans arcW')) < 2 ^ 32)%N →
  (∀ r, r ∈ aw_staged arcW' →
        groupEntry cache cgList arcW arcW' r ∨ defaultEntry E cache sid dd arcW' r)
  ∧ (∀ cg h, cg ∈ cgList → materialized cg → h ∈ groupIds cg →
       ∃ r, r ∈ aw_staged arcW' ∧ sc_hash r = h ∧ groupEntry cache cgList arcW arcW' r).
Proof.
  unfold writeDataToArchive.
  intros (A & w1 & [Haddr ->]%lift_Ok & Hrest)%bindM_Ok Hseen Hstaged Hbound.
  apply bindM_Ok in Hrest as (st & w1 & Hgroups & Hrest).
  apply bindM_Ok in Hrest as ([ungrouped aw2] & w2 & Hdrain & [= <- <- <- <- <-]).
  unfold compressChunksInParallel in Hdrain.
  apply bindM_Ok in Hdrain as ([c aw3] & w3 & Hfold & [= <- <- <-]).
  apply drainFold_Ok in Hfold as [Hres Hext].
  set (awg := ws_arcW st) in *.
  set (l := drainOrder V (ws_allChunks st)) in *.
  pose proof (ext_spans _ _ _ _ Hext) as Hsp.
  assert (length (aw_spans aw3) = (length (aw_spans awg) + length l)%nat) as Hlen.
  { by rewrite Hsp, length_app, length_fmap. }
  destruct (writeGroups_entries V cache _ cgList _ _ _ _ Hgroups) as (spans & staged & Hextg & Hent).
  { fold awg. lia. }
  simpl in Hextg. fold awg in Hextg, Hent.
  assert (∀ r, r ∈ staged → groupEntry cache cgList arcW aw3 r) as Hent'.
  { intros r Hr. eapply groupEntry_mono; [by apply Hent|exact Hsp|done|done]. }
  split.
  - intros r. rewrite (ext_staged _ _ _ _ Hext), (ext_staged _ _ _ _ Hextg), Hstaged.
    simpl. intros [Hr|Hr]%elem_of_app; [left; by apply Hent'|right].
    apply drained_elem in Hr as (i & h & Hi & ->).
    apply lookup_lt_Some in Hi as Hlt.
    match goal with
    | |- defaultEntry _ _ _ _ _ (mkStaged _ _ ?x) => remember x as dat eqn:Hdat
    end.
    rewrite u32_small in Hdat by lia.
    assert (Nat.pred (N.to_nat dat) = (length (aw_spans awg) + i)%nat) as Hpx by lia.
    unfold defaultEntry. cbn [sc_hash sc_dict sc_data]. rewrite Hpx.
    split; [done|]. split; [lia|]. split.
    + rewrite Hsp, lookup_app_r by lia.
      replace (length (aw_spans awg) + i - length (aw_spans awg))%nat with i by lia.
      apply list_lookup_fmap_Some. by exists h.
    + apply Hres. by eapply list_elem_of_lookup_2.
  - intros cg h Hcg Hmat Hh.
    destruct (writeGroups_seen V _ _ _ _ _ _ _ Hgroups) as [_ Hall].
    specialize (Hall cg Hcg Hmat h Hh). simpl in Hall. fold awg in Hall.
    rewrite (ext_seen _ _ _ _ Hextg), Hseen, (left_id_L ∅ (∪)) in Hall.
    apply elem_of_list_to_set, list_elem_of_fmap in Hall as (r & -> & Hr).
    exists r. split; [|split; [done|by apply Hent']].
    rewrite (ext_staged _ _ _ _ Hext), (ext_staged _ _ _ _ Hextg), Hstaged.
    apply elem_of_app. by left.
Qed.

(** The index entries of a successful [writeDataToArchive]: every address
    of the source is staged, and no hash twice. *)
Lemma writeDataToArchive_staged cache (cgList : list (chunkGroup E)) sid dd arcW
    (w : world S F) gc grouped singles arcW' w' A :
  writeDataToArchive V cache cgList sid dd arcW w = (Ok (gc, grouped, singles, arcW'), w') →
  aw_seen arcW = ∅ → aw_staged arcW = [] →
  cache_addresses cache = Ok A →
  (∀ s, drainOrder V s ≡ₚ elements s) →
  NoDup (sc_hash <$> aw_staged arcW')
  ∧ ∀ h, h ∈ A → h ∈ sc_hash <$> aw_staged arcW'.
Proof.
  intros Hrun Hseen Hstaged Haddr Hdrain.
  destruct (writeDataToArchive_Ok V _ _ _ _ _ _ _ _ _ _ _ Hrun Hseen Hstaged)
    as (A' & awg & spans & Haddr' & Hinv & _ & _ & _ & _ & Hext).
  assert (A' = A) as -> by congruence.
  pose proof (gi_seen _ _ _ _ _ Hinv) as Hsg.
  pose proof (gi_nodup _ _ _ _ _ Hinv) as Hnd.
  rewrite (ext_staged _ _ _ _ Hext), fmap_app, drained_hashes.
  split.
  - apply NoDup_app. split; [done|]. split.
    + intros h Hh. rewrite Hdrain, elem_of_elements.
      apply (elem_of_list_to_set (C:=gset Hash)) in Hh. rewrite <- Hsg in Hh. set_solver.
    + rewrite Hdrain. apply NoDup_elements.
  - intros h Hh. rewrite elem_of_app, Hdrain, elem_of_elements.
    rewrite <- (elem_of_list_to_set (C:=gset Hash) h (sc_hash <$> aw_staged awg)), <- Hsg.
    destruct (decide (h ∈ aw_seen awg)); [by left|right; set_solver].
Qed.
End DataEntries.

(** C4. Group budget: the loop body writes a dictionary span for a group
    exactly when [totalBytesSavedWDict > totalBytesSavedDefaultDict], and the
    group count returned is the number of such groups.  For a group that
    passes the test the body appends the compressed dictionary of the group
    and then, for each member not staged before, in order, the chunk
    compressed with the dictionary of the group, staging the member against
    the new dictionary span; it appends nothing else, counts one grouped chunk
    per entry and takes all members out of the ungrouped set.  A group that
    fails the test leaves the writer and the ungrouped set as they were, and
    each of its members that is an address of the source and belongs to no
    materialized group is staged exactly once, against the default dictionary
    span, its data span holding the chunk compressed with the default
    dictionary.  In the archive, every member of a group that passed the test
    has exactly one index entry; when the groups share no member, its
    dictionary span is one written in this run and holds the dictionary of its
    group, and its data span holds the chunk compressed with that dictionary.
    What the spans hold is stated for an archive of fewer than 2^32 spans,
    and the statement is about a run that returns, from a writer with nothing
    staged, with a delivery order that lists the ungrouped set.  When the
    groups are the ones [convertToChunkGroups] builds from relations
    made by [Add], over a source that resolves a hash to a chunk of that hash
    and lists it, the groups share no member and every member of every group
    that fails the test is an address that belongs to no materialized
    group. *)
Theorem group_budget_correctness {E : Externals} {S F : Type} (V : Env E S F)
    (chunkCache : simpleChunkSourceCache) (cgList : list (chunkGroup E))
    (defaultSpanId : N) (defaultDict : bytes) (arcW : archiveWriter) (w : world S F)
    (groupCount grouped singles : N) (arcW' : archiveWriter) (w' : world S F)
    (A : gset Hash) :
  writeDataToArchive V chunkCache cgList defaultSpanId defaultDict arcW w
  = (Ok (groupCount, grouped, singles, arcW'), w') →
  aw_seen arcW = ∅ → aw_staged arcW = [] →
  cache_addresses chunkCache = Ok A →
  (∀ s, drainOrder V s ≡ₚ elements s) →
  (∀ n st cg (w0 : world S F) st' w0',
     writeGroup V chunkCache n st cg w0 = (Ok st', w0') →
     (materialized cg ↔
        ∃ spans, aw_spans (ws_arcW st')
                 = aw_spans (ws_arcW st) ++ zCompress E (cg_dict E cg) :: spans)
     ∧ (¬ materialized cg →
        ws_arcW st' = ws_arcW st ∧ ws_allChunks st' = ws_allChunks st)
     ∧ (materialized cg →
        let dictId := u32 (N.of_nat (length (aw_spans (ws_arcW st))) + 1) in
        let fresh := freshIds (aw_seen (ws_arcW st)) (chunkId E <$> cg_chks E cg) in
        extends (ws_arcW st) (ws_arcW st')
          (zCompress E (cg_dict E cg)
           :: ((λ h, zCompressDict E (dataOf E chunkCache h) (cg_cDict E cg)) <$> fresh))
          (drained dictId (Datatypes.S (length (aw_spans (ws_arcW st)))) fresh)
        ∧ ws_allChunks st' = ws_allChunks st ∖ groupIds cg
        ∧ ws_groupedChunkCount st'
          = Nat.iter (length fresh) (λ g, u32_add g 1) (ws_groupedChunkCount st)))
  ∧ groupCount = u32 (N.of_nat (materializedCount cgList))
  ∧ (∀ cg cs,
       cg ∈ cgList → ¬ materialized cg → cs ∈ cg_chks E cg →
       chunkId E cs ∈ A → chunkId E cs ∉ materializedIds cgList →
       ∃ dataId,
         mkStaged (chunkId E cs) defaultSpanId dataId ∈ aw_staged arcW'
         ∧ (∀ r, r ∈ aw_staged arcW' → sc_hash r = chunkId E cs →
                 r = mkStaged (chunkId E cs) defaultSpanId dataId)
         ∧ ((N.of_nat (length (aw_spans arcW')) < 2 ^ 32)%N →
            aw_spans arcW' !! Nat.pred (N.to_nat dataId)
            = Some (zCompressDict E (dataOf E chunkCache (chunkId E cs)) defaultDict)))
  ∧ (∀ cg cs,
       cg ∈ cgList → materialized cg → cs ∈ cg_chks E cg →
       ∃ dictId dataId,
         mkStaged (chunkId E cs) dictId dataId ∈ aw_staged arcW'
         ∧ (∀ r, r ∈ aw_staged arcW' → sc_hash r = chunkId E cs →
                 r = mkStaged (chunkId E cs) dictId dataId)
         ∧ (pairwiseDisjoint (groupIds <$> cgList) →
            (N.of_nat (length (aw_spans arcW')) < 2 ^ 32)%N →
            (length (aw_spans arcW) < N.to_nat dictId)%nat
            ∧ aw_spans arcW' !! Nat.pred (N.to_nat dictId)
              = Some (zCompress E (cg_dict E cg))
            ∧ aw_spans arcW' !! Nat.pred (N.to_nat dataId)
              = Some (zCompressDict E (dataOf E chunkCache (chunkId E cs))
                        (cg_cDict E cg))))
  ∧ (∀ pairs cgList0 (w0 w1 : world S F),
       EnvOk V →
       (∀ h b, cs_get (csc_cs chunkCache) h = Ok (Some b) → hashOf E b = h ∧ h ∈ A) →
       convertToChunkGroups V (AddAll pairs NewChunkRelations) chunkCache defaultDict w0
       = (Ok cgList0, w1) →
       cgList = sortGroups V cgList0 →
       pairwiseDisjoint (groupIds <$> cgList)
       ∧ ∀ cg cs, cg ∈ cgList → ¬ materialized cg → cs ∈ cg_chks E cg →
                  chunkId E cs ∈ A ∧ chunkId E cs ∉ materializedIds cgList).
Proof.
  intros Hrun Hseen Hstaged Haddr Hperm.
  split; [|split; [|split; [|split]]].
  - intros n st cg w0 st' w0' Hstep.
    destruct (writeGroup_budget V _ _ _ _ _ _ _ Hstep) as [Hyes Hno].
    split; [split|split].
    + intros Hmat. by destruct (Hyes Hmat) as [_ Hspans].
    + intros [spans Hspans]. destruct (decide (materialized cg)) as [|Hn]; [done|].
      destruct (Hno Hn) as (Haw & _). rewrite Haw in Hspans.
      apply (f_equal length) in Hspans. rewrite length_app in Hspans. simpl in Hspans. lia.
    + intros Hn. by destruct (Hno Hn) as (? & ? & _).
    + intros Hmat.
      destruct (writeGroup_exact V _ _ _ _ _ _ _ Hstep Hmat) as (Hext & Hall & Hg & _).
      done.
  - destruct (writeDataToArchive_Ok V _ _ _ _ _ _ _ _ _ _ _ Hrun Hseen Hstaged)
      as (A' & awg & spans & _ & _ & Hgc & _). done.
  - intros cg cs Hcg Hnmat Hcs HinA Hnotmat.
    destruct (writeDataToArchive_Ok V _ _ _ _ _ _ _ _ _ _ _ Hrun Hseen Hstaged)
      as (A' & awg & spans & Haddr' & Hinv & _ & _ & Hspans & Hres & Hext).
    assert (A' = A) as -> by congruence.
    set (h := chunkId E cs) in *.
    set (l := drainOrder V (A ∖ aw_seen awg)) in *.
    assert (h ∉ aw_seen awg) as Hnseen.
    { intros Hin. apply Hnotmat. by apply (gi_mat _ _ _ _ _ Hinv). }
    assert (h ∈ l) as Hl.
    { unfold l. rewrite Hperm. apply elem_of_elements. set_solver. }
    assert (NoDup l) as Hnd.
    { unfold l. rewrite Hperm. apply NoDup_elements. }
    apply list_elem_of_lookup in Hl as [i Hi].
    exists (u32 (N.of_nat (length (aw_spans awg) + i) + 1)).
    split; [|split].
    + rewrite (ext_staged _ _ _ _ Hext). apply elem_of_app. right.
      by apply drained_lookup.
    + intros r Hr Hh. rewrite (ext_staged _ _ _ _ Hext) in Hr.
      apply elem_of_app in Hr as [Hr|Hr].
      * exfalso. apply Hnseen. rewrite (gi_seen _ _ _ _ _ Hinv).
        apply elem_of_list_to_set. rewrite <- Hh. by apply list_elem_of_fmap_2.
      * apply drained_elem in Hr as (j & h' & Hj & ->). simpl in Hh. subst h'.
        by rewrite (NoDup_lookup _ _ _ _ Hnd Hi Hj).
    + intros Hsmall. rewrite (ext_spans _ _ _ _ Hext) in Hsmall |- *.
      rewrite length_app, length_fmap in Hsmall.
      apply lookup_lt_Some in Hi as Hlt.
      rewrite u32_small by lia.
      replace (Nat.pred (N.to_nat (N.of_nat (length (aw_spans awg) + i) + 1)))
        with (length (aw_spans awg) + i)%nat by lia.
      rewrite lookup_app_r by lia.
      replace (length (aw_spans awg) + i - length (aw_spans awg))%nat with i by lia.
      rewrite list_lookup_fmap, Hi. done.
  - intros cg cs Hcg Hmat Hcs.
    destruct (writeDataToArchive_staged V _ _ _ _ _ _ _ _ _ _ _ _ Hrun Hseen Hstaged Haddr Hperm)
      as [Hnd _].
    assert (chunkId E cs ∈ groupIds cg) as Hh.
    { unfold groupIds. apply elem_of_list_to_set. by apply list_elem_of_fmap_2. }
    assert (∃ r, r ∈ aw_staged arcW' ∧ sc_hash r = chunkId E cs) as (r & Hr & Hhr).
    { unfold writeDataToArchive in Hrun.
      apply bindM_Ok in Hrun as (A0 & w1 & _ & Hrest).
      apply bindM_Ok in Hrest as (st & w2 & Hgroups & Hrest).
      apply bindM_Ok in Hrest as ([ungrouped aw2] & w3 & Hdrain & [= <- <- <- <- <-]).
      unfold compressChunksInParallel in Hdrain.
      apply bindM_Ok in Hdrain as ([c aw3] & w4 & Hfold & [= <- <- <-]).
      apply drainFold_Ok in Hfold as [_ Hext].
      destruct (writeGroups_seen V _ _ _ _ _ _ _ Hgroups) as [_ Hall].
      specialize (Hall cg Hcg Hmat _ Hh).
      assert (chunkId E cs ∈ aw_seen aw3) as Hin.
      { rewrite (ext_seen _ _ _ _ Hext). set_solver. }
      clear Hall.
      destruct (writeGroups_Ok V _ _ A0 _ ∅ 0%N _ _ _ _ Hgroups)
        as (Hinv & _ & spans & staged & Hextg).
      { simpl. split; rewrite ?Hseen, ?Hstaged.
        - set_solver.
        - by rewrite size_empty.
        - done.
        - done.
        - apply NoDup_nil_2. }
      { done. }
      rewrite (ext_seen _ _ _ _ Hext), (gi_seen _ _ _ _ _ Hinv), <- list_to_set_app_L,
        <- fmap_app, <- (ext_staged _ _ _ _ Hext) in Hin.
      apply elem_of_list_to_set, list_elem_of_fmap in Hin as (r & Hhr & Hr). eauto. }
    exists (sc_dict r), (sc_data r).
    assert (r = mkStaged (chunkId E cs) (sc_dict r) (sc_data r)) as Hreq.
    { destruct r. simpl in *. by subst. }
    split; [by rewrite <- Hreq|]. split.
    + intros r' Hr' Hhr'. rewrite <- Hreq.
      apply (NoDup_fmap_eq sc_hash (aw_staged arcW')); [done..|congruence].
    + intros Hpd Hbound.
      destruct (writeDataToArchive_entries V _ _ _ _ _ _ _ _ _ _ _ Hrun Hseen Hstaged Hbound)
        as [_ Hmem].
      destruct (Hmem cg _ Hcg Hmat Hh) as (r2 & Hr2 & Hh2 & cg2 & Hcg2 & Hmat2 & Hin2 & Hent).
      assert (r2 = r) as ->.
      { apply (NoDup_fmap_eq sc_hash (aw_staged arcW')); [done..|congruence]. }
      assert (cg2 = cg) as ->.
      { apply (pairwiseDisjoint_same cgList _ _ (chunkId E cs)); [done..|congruence|done]. }
      rewrite Hhr in Hent. by destruct Hent as (? & _ & ? & ? & _).
  - intros pairs cgList0 w0 w1 [HrangeH HrangeR HsortS HsortG _ _] Hsrc Hconv ->.
    assert (pairwiseDisjoint (groupIds <$> sortGroups V cgList0)) as Hpd.
    { eapply pairwiseDisjoint_perm; [symmetry; apply fmap_Permutation, HsortG|].
      eapply (convertToChunkGroups_disjoint V); [apply AddAll_wf|done..| |done].
      intros h b Hb. by destruct (Hsrc _ _ Hb). }
    split; [done|].
    intros cg cs Hcg Hn Hcs.
    split.
    + rewrite HsortG in Hcg.
      destruct (convertToChunkGroups_ids V _ _ _ _ _ _ HsortS Hconv cg cs Hcg Hcs)
        as (c & [h Hget] & ->).
      unfold cache_get in Hget.
      destruct (cs_get (csc_cs chunkCache) h) as [[b|]| | |] eqn:Hb; try done.
      injection Hget as <-. simpl. by destruct (Hsrc _ _ Hb) as [-> ?].
    + apply (abandoned_not_materialized _ cg); [done..|].
      unfold groupIds. apply elem_of_list_to_set. by apply list_elem_of_fmap_2.
Qed.


Section Convert.
Context {E : Externals} {S F : Type} (V : Env E S F).

(** What a successful conversion has done: the writer [arcW] holds what
    [writeDataToArchive] returned when it was flushed, and the count is
    [grouped + singles]. *)
Lemma convert_Ok cs idx dag path (w : world S F) finalPath name cnt w' :
  convertTableFileToArchive V cs idx dag path w = (Ok (finalPath, name, cnt), w') →
  ∃ samples cgList0 aw1 sid (wg : world S F) gc grouped singles aw2 (wd : world S F)
    arcW fileName (wf : world S F),
    gatherSamples E cs idx 0 (N.to_nat (N.min (chunkCount idx) maxSamples)) = Ok samples
    ∧ (minSamples ≤ N.of_nat (length samples))%N
    ∧ convertToChunkGroups V dag (mkCache cs) (buildDictionary E samples) w = (Ok cgList0, wg)
    ∧ aw_seen aw1 = ∅ ∧ aw_staged aw1 = []
    ∧ writeDataToArchive V (mkCache cs) (sortGroups V cgList0) sid
        (buildDictionary E samples) aw1 wg = (Ok (gc, grouped, singles, aw2), wd)
    ∧ aw_staged arcW = aw_staged aw2
    ∧ w_fs wd = w_fs w
    ∧ flushToFile V arcW fileName (w_fs w) = (Ok (), w_fs wf)
    ∧ cnt = u32_add grouped singles
    ∧ w_fs w' = w_fs wf
    ∧ w_progress w'
      = w_progress wf ++ (if decide (cnt ≠ chunkCount idx)
                          then [MsgDuplicates (u32_sub (chunkCount idx) cnt)] else []).
Proof.
  unfold convertTableFileToArchive.
  intros ([cache samples] & w1 & [Hgather ->]%lift_Ok & Hrest)%bindM_Ok.
  unfold gatherAllChunks in Hgather.
  apply obind_Ok in Hgather as (samples' & Hsamples & Hgather).
  apply obind_Ok in Hgather as (cache' & [= <-] & [= <- <-]).
  destruct (decide (minSamples ≤ N.of_nat (length samples'))%N) as [Hmin|]; [|done].
  apply bindM_Ok in Hrest as (dcd & w1 & [Hcd ->]%lift_Ok & Hrest).
  unfold NewCDict in Hcd. destruct (zNewCDict E _); [done|]. injection Hcd as <-.
  apply bindM_Ok in Hrest as (cgList0 & wg & Hgroups & Hrest).
  apply bindM_Ok in Hrest as (aw0 & w1 & [Hnew ->]%lift_Ok & Hrest).
  injection Hnew as <-.
  apply bindM_Ok in Hrest as ([sid aw1] & w1 & [Hspan ->]%lift_Ok & Hrest).
  apply writeByteSpan_Ok in Hspan as [_ Hext1].
  apply bindM_Ok in Hrest as ([[[gc grouped] singles] aw2] & wd & Hdata & Hrest).
  apply bindM_Ok in Hrest as (aw3 & wf & Hflush & Hrest).
  apply bindM_Ok in Hrest as ([] & w5 & Hdiag & Hrest).
  apply bindM_Ok in Hrest as (name' & w6 & [Hname ->]%lift_Ok & [= <- <- <- <-]).
  unfold indexFinalizeFlushArchive in Hflush.
  apply bindM_Ok in Hflush as (aw4 & w7 & [Hfin ->]%lift_Ok & Hflush).
  apply bindM_Ok in Hflush as (fileName & w7 & [Hfile ->]%lift_Ok & Hflush).
  unfold flush in Hflush.
  destruct (flushToFile V aw4 fileName (w_fs wd)) as [[[]| | |] fs] eqn:Hff; try done.
  injection Hflush as <- <-.
  assert (aw_staged aw4 = aw_staged aw2) as Hst4.
  { unfold indexFinalize in Hfin. simpl in Hfin.
    destruct (jsonMarshal E _); [|done..]. simpl in Hfin. by injection Hfin as <-. }
  destruct (quiet_writeData V (mkCache cs) (sortGroups V cgList0) sid
              (buildDictionary E samples') aw1 wg) as [m1 Hq1].
  rewrite Hdata in Hq1. simpl in Hq1.
  destruct (quiet_convertToChunkGroups V dag (mkCache cs) (buildDictionary E samples') w)
    as [m2 Hq2].
  rewrite Hgroups in Hq2. simpl in Hq2.
  assert (w_fs wd = w_fs w) as Hfs by (rewrite Hq1; simpl; by rewrite Hq2).
  exists samples', cgList0, aw1, sid, wg, gc, grouped, singles, aw2, wd, aw4, fileName,
    (mkWorld (w_store wd) fs (w_progress wd) (w_trace wd)).
  split; [done|]. split; [done|]. split; [done|].
  split; [rewrite (ext_seen _ _ _ _ Hext1); simpl; seen_solve|].
  split; [rewrite (ext_staged _ _ _ _ Hext1); done|].
  split; [done|]. split; [done|]. split; [done|].
  split; [by rewrite <- Hfs|]. split; [done|].
  simpl in Hdiag. destruct (decide (u32_add grouped singles ≠ chunkCount idx)).
  - injection Hdiag as <-. done.
  - injection Hdiag as <-. simpl. by rewrite app_nil_r.
Qed.
End Convert.

(** C5. Dedup-preserving count: for a source that lists every chunk it
    resolves, the count a conversion returns is the number of distinct hashes
    of the source index; it is at most [idx.chunkCount()], with equality
    exactly when the index has no duplicate entry; the archive flushed has
    that many index entries, one per distinct hash; and when the count falls
    short the last progress message reports the difference. *)
Theorem dedup_preserving_count {E : Externals} {S F : Type} (V : Env E S F)
    (cs : chunkSource) (idx : tableIndex) (dagGroups : ChunkRelations) (path : string)
    (w : world S F) (finalPath : string) (name : Hash) (cnt : N) (w' : world S F)
    (hs : list Hash) :
  convertTableFileToArchive V cs idx dagGroups path w = (Ok (finalPath, name, cnt), w') →
  cs_index cs = Ok idx →
  readEntries idx 0 (N.to_nat (chunkCount idx)) = Ok hs →
  (chunkCount idx < 2 ^ 32)%N →
  (∀ h b, cs_get cs h = Ok (Some b) → hashOf E b ∈ hs) →
  (∀ l, sortScores V l ≡ₚ l) →
  (∀ l, sortGroups V l ≡ₚ l) →
  (∀ s, drainOrder V s ≡ₚ elements s) →
  cnt = N.of_nat (size (list_to_set hs : gset Hash))
  ∧ (cnt ≤ chunkCount idx)%N
  ∧ (cnt = chunkCount idx ↔ NoDup hs)
  ∧ (∃ arcW fileName,
       (flushToFile V arcW fileName (w_fs w)).1 = Ok ()
       ∧ w_fs w' = (flushToFile V arcW fileName (w_fs w)).2
       ∧ N.of_nat (length (aw_staged arcW)) = cnt
       ∧ NoDup (sc_hash <$> aw_staged arcW)
       ∧ (∀ h, h ∈ sc_hash <$> aw_staged arcW ↔ h ∈ hs))
  ∧ (cnt ≠ chunkCount idx →
     ∃ pre, w_progress w' = pre ++ [MsgDuplicates (chunkCount idx - cnt)]).
Proof.
  intros Hrun Hidx Hread Hbound Hcons HsortS HsortG Hdrain.
  destruct (convert_Ok V _ _ _ _ _ _ _ _ _ Hrun)
    as (samples & cgList0 & aw1 & sid & wg & gc & grouped & singles & aw2 & wd & arcW
        & fileName & wf & Hsamples & Hmin & Hgroups & Hseen1 & Hstaged1 & Hdata & Hst
        & Hfswd & Hflush & Hcnt & Hfs & Hprog).
  destruct (writeDataToArchive_Ok V _ _ _ _ _ _ _ _ _ _ _ Hdata Hseen1 Hstaged1)
    as (A & awg & spans & Haddr & Hinv & _ & Hsingles & _ & _ & Hext).
  assert (A = list_to_set hs) as HA.
  { unfold cache_addresses in Haddr. simpl in Haddr. rewrite Hidx in Haddr. simpl in Haddr.
    rewrite Hread in Haddr. simpl in Haddr. injection Haddr as <-.
    rewrite insertAll_set. by rewrite (left_id_L ∅ (∪)). }
  assert (materializedIds (sortGroups V cgList0) ⊆ A) as Hmat.
  { apply materializedIds_subseteq. intros cg sc Hcg Hsc.
    rewrite HsortG in Hcg.
    destruct (convertToChunkGroups_ids V _ _ _ _ _ _ HsortS Hgroups cg sc Hcg Hsc)
      as (c & [h Hget] & ->).
    unfold cache_get in Hget. simpl in Hget.
    destruct (cs_get cs h) as [[b|]| | |] eqn:Hb; try done.
    injection Hget as <-. simpl. rewrite HA. apply elem_of_list_to_set. by eapply Hcons. }
  pose proof (gi_mat _ _ _ _ _ Hinv) as Hseen.
  pose proof (gi_count _ _ _ _ _ Hinv) as Hgrouped.
  assert (aw_seen awg ⊆ A) as HseenA by set_solver.
  destruct (size_list_to_set_le hs) as [Hle Heq].
  apply readEntries_length in Hread as Hlen.
  assert (size (aw_seen awg) + size (A ∖ aw_seen awg) = size A)%nat as Hsize.
  { rewrite size_difference by done. apply subseteq_size in HseenA. lia. }
  assert (cnt = N.of_nat (size A)) as HcntA.
  { rewrite Hcnt, Hgrouped, Hsingles. unfold u32_add, u32.
    rewrite <- N.Div0.add_mod.
    replace (N.of_nat (size (aw_seen awg)) + N.of_nat (size (A ∖ aw_seen awg)))%N
      with (N.of_nat (size A)) by lia.
    apply N.mod_small. rewrite HA. lia. }
  rewrite HA in HcntA.
  split; [done|]. split; [lia|]. split.
  { rewrite <- Heq. lia. }
  split.
  - exists arcW, fileName. rewrite Hflush. simpl.
    split; [done|]. split; [done|].
    rewrite Hst, (ext_staged _ _ _ _ Hext).
    pose proof (gi_seen _ _ _ _ _ Hinv) as Hsg.
    pose proof (gi_nodup _ _ _ _ _ Hinv) as Hnd.
    assert (length (aw_staged awg) = size (aw_seen awg)) as Hlg.
    { rewrite Hsg, size_list_to_set by done. by rewrite length_fmap. }
    split; [|split].
    + rewrite length_app, Hlg.
      replace (length (drained sid (length (aw_spans awg)) (drainOrder V (A ∖ aw_seen awg))))
        with (size (A ∖ aw_seen awg)).
      * rewrite HcntA, <- HA. lia.
      * rewrite <- (length_fmap sc_hash), drained_hashes, Hdrain. done.
    + rewrite fmap_app, drained_hashes. apply NoDup_app. split; [done|]. split.
      * intros h Hh. rewrite Hdrain, elem_of_elements.
        apply (elem_of_list_to_set (C:=gset Hash)) in Hh. rewrite <- Hsg in Hh. set_solver.
      * rewrite Hdrain. apply NoDup_elements.
    + intros h. rewrite fmap_app, drained_hashes, elem_of_app, Hdrain, elem_of_elements.
      rewrite <- (elem_of_list_to_set (C:=gset Hash) h (sc_hash <$> aw_staged awg)), <- Hsg.
      rewrite <- (elem_of_list_to_set (C:=gset Hash) h hs), <- HA.
      split; [set_solver|]. intros HhA.
      destruct (decide (h ∈ aw_seen awg)); [by left|right; set_solver].
  - intros Hne. exists (w_progress wf). rewrite Hprog.
    rewrite decide_True by done. do 3 f_equal.
    unfold u32_sub, u32.
    replace (2 ^ 32 + chunkCount idx - cnt)%N
      with ((chunkCount idx - cnt) + 1 * 2 ^ 32)%N by lia.
    rewrite N.Div0.mod_add. apply N.mod_small. lia.
Qed.

(** ** Skipping a small table file *)

(** C3 (as amended). Not-enough-chunks skip: when the index of a source
    container has fewer than 25 entries (duplicates counted) and its samples
    read without error, the conversion stops with [errNotEnoughChunks], the
    container is skipped with the two progress messages, the block store, the
    file system and the trace being left alone, and the loop goes on with the
    remaining containers. *)
Theorem notEnoughChunks_skip {E : Externals} {S F : Type} (V : Env E S F)
    (dagGroups : ChunkRelations) (purge : bool) (path : string) (tf : Hash)
    (cs : chunkSource) (idx : tableIndex) (w : world S F) (rest : list Hash) :
  isJournalAddr E tf = false →
  upstreamLookup V (w_store w) tf = Some cs →
  cs_isArchive cs = false →
  cs_index cs = Ok idx →
  (chunkCount idx < minSamples)%N →
  (∀ j, (j < chunkCount idx)%N → ∃ h o, indexEntry idx j = Ok h ∧ cs_get cs h = Ok o) →
  let w' := mkWorld (w_store w) (w_fs w)
              (w_progress w ++ [MsgArchiving tf; MsgNotEnoughChunks (cs_hash cs)])
              (w_trace w) in
  (∀ w0 : world S F,
     convertTableFileToArchive V cs idx dagGroups path w0 = (Err errNotEnoughChunks, w0))
  ∧ archiveTableFile V dagGroups purge path tf w = (Ok (), w')
  ∧ foldM (λ _ tf, archiveTableFile V dagGroups purge path tf) () (tf :: rest) w
    = foldM (λ _ tf, archiveTableFile V dagGroups purge path tf) () rest w'.
Proof.
  intros Hj Hlook Harc Hidx Hlt Hread w'.
  split; [|split].
  - intros w0. by apply convert_notEnoughChunks.
  - by apply (archiveTableFile_notEnoughChunks V dagGroups purge path tf cs idx w).
  - simpl. unfold bindM at 1.
    by rewrite (archiveTableFile_notEnoughChunks V dagGroups purge path tf cs idx w) by done.
Qed.

Lemma notEnoughChunks_skip_witness :
  (archiveSingleBlockStore (Toy.env elements Toy.clock) NewChunkRelations false
     (Toy.world0 (take 3 Toy.entries30))).1 = Ok ().
Proof.
  assert (∀ j, (j < chunkCount (Toy.indexOf (take 3 Toy.entries30)))%N →
               ∃ h o, indexEntry (Toy.indexOf (take 3 Toy.entries30)) j = Ok h
                      ∧ cs_get (Toy.tableFile 77 (take 3 Toy.entries30)) h = Ok o) as Hread.
  { intros j Hj. simpl in Hj.
    assert (j = 0 ∨ j = 1 ∨ j = 2)%N as Hcases by lia.
    destruct Hcases as [Hc|[Hc|Hc]]; rewrite Hc;
      eexists _, _; split; vm_compute; reflexivity. }
  pose proof (notEnoughChunks_skip (Toy.env elements Toy.clock) NewChunkRelations
                false "noms" 77 (Toy.tableFile 77 (take 3 Toy.entries30))
                (Toy.indexOf (take 3 Toy.entries30)) (Toy.world0 (take 3 Toy.entries30)) []
                eq_refl eq_refl eq_refl eq_refl eq_refl Hread) as (_ & _ & Hloop).
  exact (f_equal fst Hloop).
Defined.

(** A table file with 30 index entries over 5 distinct chunks is converted,
    verified and swapped in with chunk count 5. *)
Lemma notEnoughChunks_distinct_counterexample :
  (size (list_to_set (Toy.digest <$> Toy.entriesDup) : gset Hash) < 25)%nat
  ∧ Toy.convert elements Toy.entriesDup NewChunkRelations
    = Ok ("noms/451548251886848894364662551.darc", 451548251886848894364662551%N, 5%N)
  ∧ Toy.convert elements Toy.entriesDup NewChunkRelations ≠ Err errNotEnoughChunks
  ∧ Toy.manifest (w_store (archiveSingleBlockStore (Toy.env elements Toy.clock)
                             NewChunkRelations false (Toy.world0 Toy.entriesDup)).2)
    = [mkSpec 451548251886848894364662551 5].
Proof.
  split; [vm_compute; lia|].
  split; [vm_compute; reflexivity|].
  split; [vm_compute; discriminate|].
  vm_compute; reflexivity.
Qed.

(** ** The order of the ungrouped pass *)

Lemma extends_unique aw aw1 aw2 spans staged :
  extends aw aw1 spans staged → extends aw aw2 spans staged → aw1 = aw2.
Proof.
  intros [] []. destruct aw1, aw2. simpl in *. congruence.
Qed.

Lemma drained_dicts sid next l r : r ∈ drained sid next l → sc_dict r = sid.
Proof. intros (i & h & _ & ->)%drained_elem. done. Qed.

Lemma drained_pairs sid next l :
  (λ r, (sc_hash r, sc_dict r)) <$> drained sid next l = (λ h, (h, sid)) <$> l.
Proof.
  revert next. induction l as [|h l IH]; intros next; simpl; [done|].
  f_equal. apply IH.
Qed.

(** Two builds of the same table file with the same samples and the same
    clock: without relations, differing in the order in which the
    compression workers deliver; and with relations, differing in the order
    in which [range] walks a hash set. *)
Lemma deterministic_address_counterexample :
  Toy.convert elements Toy.entries30 NewChunkRelations
  = Ok ("noms/31291960331647528469794364.darc", 31291960331647528469794364%N, 30%N)
  ∧ Toy.convert (λ s, reverse (elements s)) Toy.entries30 NewChunkRelations
    = Ok ("noms/137019794182725418602619404.darc", 137019794182725418602619404%N, 30%N)
  ∧ (∀ s : gset Hash, reverse (elements s) ≡ₚ elements s)
  ∧ 31291960331647528469794364%N ≠ 137019794182725418602619404%N
  ∧ (let V := Toy.env elements Toy.clock in
     let h (i : nat) := Toy.digest (Toy.chunkData i) in
     let g (i : nat) := Toy.digest (Toy.sharedData i) in
     let dag := AddAll [(g 0%nat, g 1%nat); (h 2%nat, h 3%nat); (g 1%nat, g 2%nat)]
                  NewChunkRelations in
     let build (V : Env Toy.ext Toy.store Toy.fileSystem) :=
       (convertTableFileToArchive V (Toy.tableFile 77 Toy.entries33)
          (Toy.indexOf Toy.entries33) dag "noms" (Toy.world0 Toy.entries33)).1 in
     build V
     = Ok ("noms/48677145774100060396140671.darc", 48677145774100060396140671%N, 33%N)
     ∧ build (withRange V (λ s, reverse (elements s)))
       = Ok ("noms/119388384906144452725849173.darc", 119388384906144452725849173%N, 33%N)
     ∧ 48677145774100060396140671%N ≠ 119388384906144452725849173%N).
Proof.
  split; [vm_compute; reflexivity|].
  split; [vm_compute; reflexivity|].
  split; [intros s; apply reverse_Permutation|].
  split; [discriminate|].
  split; [vm_compute; reflexivity|].
  split; [vm_compute; reflexivity|].
  discriminate.
Qed.

(** ** The properties at work on the small instance *)

Lemma verification_gates_swap_witness :
  let w := Toy.world0 Toy.entries30 in
  let w' := (archiveSingleBlockStore (Toy.env elements Toy.clock) NewChunkRelations false w).2 in
  w_trace w = []
  ∧ ∀ pre tf newSpecs post,
      w_trace w' = pre ++ EvSwap tf newSpecs :: post →
      ∃ pre', pre = pre' ++ [EvVerify tf None].
Proof.
  intros w w'. split; [reflexivity|].
  exact (proj1 (verification_gates_swap (Toy.env elements Toy.clock) NewChunkRelations
                  false w eq_refl)).
Defined.

Lemma swapSpecs_frame_witness :
  ∃ before entry after,
    [mkSpec 1 10; mkSpec 2 20; mkSpec 3 30] = before ++ entry :: after
    ∧ ts_name entry = 2%N
    ∧ (archiveSwapSpecs Toy.ext "noms" 2 9 5 true [mkSpec 1 10; mkSpec 2 20; mkSpec 3 30]).1
      = before ++ mkSpec 9 5 :: after
    ∧ (unArchiveSwapSpecs Toy.ext "noms" 2 9 5 [mkSpec 1 10; mkSpec 2 20; mkSpec 3 30]).1
      = before ++ mkSpec 9 5 :: after.
Proof.
  apply swapSpecs_frame.
  - apply (bool_decide_unpack _). vm_compute. exact I.
  - apply (bool_decide_unpack _). vm_compute. exact I.
Defined.

Lemma padSamples_terminates_iff_nonempty_witness :
  rebuild Toy.ext (λ l, l)
    (mkGroup Toy.ext [] [] [mkScore Toy.ext 5 None 0 0; mkScore Toy.ext 6 None 0 0]
       None 0 None 0 0)
    (mkCache (Toy.tableFile 77 Toy.entries30)) [] = Diverge.
Proof.
  apply (proj1 (proj2 (proj2 (padSamples_terminates_iff_nonempty Toy.ext (λ l, l)
                                (mkCache (Toy.tableFile 77 Toy.entries30)) _ [] [] [] 0)))).
  intros cs [->|[->|[]%elem_of_nil]%elem_of_cons]%elem_of_cons; vm_compute; reflexivity.
Defined.

Lemma tableFile_lists name entries h b :
  cs_get (Toy.tableFile name entries) h = Ok (Some b) → Toy.digest b ∈ Toy.digest <$> entries.
Proof.
  simpl. intros [= Hfind].
  destruct (list_find _ entries) as [[i b']|] eqn:Hf; simpl in Hfind; [|done].
  injection Hfind as ->.
  apply list_find_Some in Hf as (Hi & _ & _).
  apply list_elem_of_fmap_2. by eapply list_elem_of_lookup_2.
Qed.

Lemma dedup_preserving_count_witness :
  let V := Toy.env elements Toy.clock in
  let cs := Toy.tableFile 77 Toy.entries31 in
  let idx := Toy.indexOf Toy.entries31 in
  let w := Toy.world0 Toy.entries31 in
  ∃ finalPath name w',
    convertTableFileToArchive V cs idx NewChunkRelations "noms" w = (Ok (finalPath, name, 30%N), w')
    ∧ chunkCount idx = 31%N
    ∧ (30 ≤ chunkCount idx)%N
    ∧ ∃ pre, w_progress w' = pre ++ [MsgDuplicates (chunkCount idx - 30)].
Proof.
  intros V cs idx w.
  assert (∃ finalPath name w',
            convertTableFileToArchive V cs idx NewChunkRelations "noms" w
            = (Ok (finalPath, name, 30%N), w')) as (finalPath & name & w' & Hrun).
  { vm_compute. eexists _, _, _. reflexivity. }
  assert (readEntries idx 0 (N.to_nat (chunkCount idx)) = Ok (Toy.digest <$> Toy.entries31))
    as Hread by (vm_compute; reflexivity).
  pose proof (dedup_preserving_count V cs idx NewChunkRelations "noms" w finalPath name 30%N w'
                (Toy.digest <$> Toy.entries31) Hrun eq_refl Hread
                ltac:(vm_compute; reflexivity)
                (tableFile_lists 77 Toy.entries31)
                (λ l, reflexivity l) (λ l, reflexivity l) (λ s, reflexivity (elements s)))
    as (_ & Hle & _ & _ & Hdiag).
  exists finalPath, name, w'.
  split; [exact Hrun|]. split; [reflexivity|]. split; [exact Hle|].
  apply Hdiag. vm_compute. discriminate.
Defined.

Lemma isOk_eta {A W} (r : outcome A * W) (d : A) :
  isOk r.1 = true → r = (Ok (match r.1 with Ok a => a | _ => d end), r.2).
Proof. by destruct r as [[] ?]. Qed.

Lemma Toy_env_ok now : EnvOk (Toy.env elements now).
Proof. by split; intros; simpl; try apply reverse_Permutation. Qed.

Lemma tableFile_addressed name entries h b :
  cs_get (Toy.tableFile name entries) h = Ok (Some b) →
  Toy.digest b = h ∧ h ∈ (list_to_set (Toy.digest <$> entries) : gset Hash).
Proof.
  simpl. intros [= Hfind].
  destruct (list_find _ entries) as [[i b']|] eqn:Hf; simpl in Hfind; [|done].
  injection Hfind as ->.
  apply list_find_Some in Hf as (Hi & <- & _). split; [done|].
  apply elem_of_list_to_set, list_elem_of_fmap_2. by eapply list_elem_of_lookup_2.
Qed.

Lemma group_budget_correctness_witness :
  let V := Toy.env elements Toy.clock in
  let cache := mkCache (Toy.tableFile 77 Toy.entries33) in
  let h (i : nat) := Toy.digest (Toy.chunkData i) in
  let g (i : nat) := Toy.digest (Toy.sharedData i) in
  let pairs := [(g 0%nat, g 1%nat); (h 2%nat, h 3%nat); (g 1%nat, g 2%nat)] in
  let built := convertToChunkGroups V (AddAll pairs NewChunkRelations) cache []
                 (Toy.world0 Toy.entries33) in
  let cgList0 := match built.1 with Ok l => l | _ => [] end in
  let cgList := sortGroups V cgList0 in
  let arcW := mkWriter [[]] [] ∅ [] [] None EmptyString in
  (λ cg, bool_decide (materialized cg)) <$> cgList = [false; true]
  ∧ ∃ grouped singles arcW' w',
      writeDataToArchive V cache cgList 1%N [] arcW built.2
      = (Ok (1%N, grouped, singles, arcW'), w')
      ∧ (∃ dataId, mkStaged (h 2%nat) 1%N dataId ∈ aw_staged arcW')
      ∧ ∃ cg m dictId dataId,
          cgList !! 1%nat = Some cg ∧ cg_chks Toy.ext cg !! 0%nat = Some m
          ∧ mkStaged (chunkId Toy.ext m) dictId dataId ∈ aw_staged arcW'
          ∧ (1 < N.to_nat dictId)%nat
          ∧ aw_spans arcW' !! Nat.pred (N.to_nat dictId)
            = Some (zCompress Toy.ext (cg_dict Toy.ext cg))
          ∧ aw_spans arcW' !! Nat.pred (N.to_nat dataId)
            = Some (zCompressDict Toy.ext (dataOf Toy.ext cache (chunkId Toy.ext m))
                      (cg_cDict Toy.ext cg)).
Proof.
  intros V cache h g pairs built cgList0 cgList arcW.
  set (A := list_to_set (Toy.digest <$> Toy.entries33) : gset Hash).
  set (res := writeDataToArchive V cache cgList 1%N [] arcW built.2).
  assert (isOk built.1 = true) as Hbuilt by (vm_compute; reflexivity).
  assert ((λ cg, bool_decide (materialized cg)) <$> cgList = [false; true]) as Hmat
    by (vm_compute; reflexivity).
  assert (match res.1 with
          | Ok (gc, _, _, aw) => N.eqb gc 1 && N.ltb (N.of_nat (length (aw_spans aw))) (2 ^ 32)
          | _ => false
          end = true) as Hres
    by (vm_compute; reflexivity).
  assert (match cgList !! 0%nat with
          | Some c0 => match cg_chks Toy.ext c0 !! 0%nat with
                       | Some m => N.eqb (chunkId Toy.ext m) (h 2%nat)
                       | None => false
                       end
          | None => false
          end = true) as Hfirst by (vm_compute; reflexivity).
  assert (match cgList !! 1%nat with
          | Some c1 => match cg_chks Toy.ext c1 !! 0%nat with Some _ => true | None => false end
          | None => false
          end = true) as Hsecond by (vm_compute; reflexivity).
  assert (cache_addresses cache = Ok A) as Haddr by (vm_compute; reflexivity).
  assert (EnvOk V) as Hok by exact (Toy_env_ok Toy.clock).
  assert (∀ h b, cs_get (csc_cs cache) h = Ok (Some b) → hashOf Toy.ext b = h ∧ h ∈ A)
    as Hsrc by exact (tableFile_addressed 77 Toy.entries33).
  assert (built = (Ok cgList0, built.2)) as Hconv by exact (isOk_eta built [] Hbuilt).
  destruct (cgList !! 0%nat) as [c0|] eqn:Hc0; [|discriminate Hfirst].
  destruct (cg_chks Toy.ext c0 !! 0%nat) as [m|] eqn:Hm; [|discriminate Hfirst].
  apply N.eqb_eq in Hfirst.
  destruct (cgList !! 1%nat) as [c1|] eqn:Hc1; [|discriminate Hsecond].
  destruct (cg_chks Toy.ext c1 !! 0%nat) as [m1|] eqn:Hm1; [|discriminate Hsecond].
  assert (c0 ∈ cgList) as Hin0 by (by eapply list_elem_of_lookup_2).
  assert (c1 ∈ cgList) as Hin1 by (by eapply list_elem_of_lookup_2).
  assert (¬ materialized c0) as Hn0.
  { apply (f_equal (λ l, l !! 0%nat)) in Hmat. rewrite list_lookup_fmap, Hc0 in Hmat.
    simpl in Hmat. injection Hmat as Hmat. by apply bool_decide_eq_false in Hmat. }
  assert (materialized c1) as Hy1.
  { apply (f_equal (λ l, l !! 1%nat)) in Hmat. rewrite list_lookup_fmap, Hc1 in Hmat.
    simpl in Hmat. injection Hmat as Hmat. by apply bool_decide_eq_true in Hmat. }
  assert (m ∈ cg_chks Toy.ext c0) as Hmin by (by eapply list_elem_of_lookup_2).
  assert (m1 ∈ cg_chks Toy.ext c1) as Hmin1 by (by eapply list_elem_of_lookup_2).
  destruct res as [[[[[gc grouped] singles] arcW']| | |] w'] eqn:Hrun;
    try discriminate Hres.
  simpl in Hres. apply andb_true_iff in Hres as [Hgc Hbound].
  apply N.eqb_eq in Hgc. subst gc. apply N.ltb_lt in Hbound.
  pose proof (group_budget_correctness V cache cgList 1%N [] arcW
                built.2 1%N grouped singles arcW' w' A
                Hrun eq_refl eq_refl Haddr (λ s, reflexivity (elements s)))
    as (_ & _ & Hmember & Hown & Hpipe).
  destruct (Hpipe pairs cgList0 (Toy.world0 Toy.entries33) built.2 Hok Hsrc Hconv eq_refl)
    as [Hpd Hab].
  destruct (Hab c0 m Hin0 Hn0 Hmin) as [HinA Hnot].
  destruct (Hmember c0 m Hin0 Hn0 Hmin HinA Hnot) as (dataId & Hin & _).
  destruct (Hown c1 m1 Hin1 Hy1 Hmin1) as (dictId1 & dataId1 & Hin1' & _ & Hspans).
  destruct (Hspans Hpd Hbound) as (Hnew & Hd & Hx).
  split; [exact Hmat|].
  exists grouped, singles, arcW', w'.
  split; [reflexivity|]. split; [exists dataId; by rewrite <- Hfirst|].
  exists c1, m1, dictId1, dataId1.
  split; [reflexivity|]. split; [exact Hm1|]. split; [exact Hin1'|].
  split; [exact Hnew|]. split; [exact Hd|exact Hx].
Defined.

(** * Further properties *)

Lemma Add_dom cr a b :
  wfRelations cr →
  dom (manyToGroup (Add a b cr)) = dom (manyToGroup cr) ∪ {[a; b]}.
Proof.
  intros Hwf. unfold Add.
  destruct (manyToGroup cr !! a) as [pa|] eqn:Ha, (manyToGroup cr !! b) as [pb|] eqn:Hb; simpl.
  - apply (elem_of_dom_2 (D:=gset Hash)) in Ha as Ha', Hb as Hb'.
    destruct (decide (pa = pb)); [set_solver|]. simpl.
    apply set_eq. intros h. rewrite elem_of_dom, lookup_repoint.
    destruct (decide _) as [Hin|Hnin].
    + split; [intros _|by eauto]. apply elem_of_union. left.
      rewrite NewHashSet_nil, (left_id_L ∅ (∪)) in Hin.
      apply elem_of_union in Hin as [Hin|Hin].
      * apply (wf_closed cr Hwf a pa h Ha) in Hin. by eapply elem_of_dom_2.
      * apply (wf_closed cr Hwf b pb h Hb) in Hin. by eapply elem_of_dom_2.
    + rewrite <- elem_of_dom. set_solver.
  - apply (elem_of_dom_2 (D:=gset Hash)) in Ha as Ha'. rewrite dom_insert_L. set_solver.
  - apply (elem_of_dom_2 (D:=gset Hash)) in Hb as Hb'. rewrite dom_insert_L. set_solver.
  - rewrite !dom_insert_L. set_solver.
Qed.

Lemma AddAll_dom pairs :
  dom (manyToGroup (AddAll pairs NewChunkRelations)) = mentioned pairs.
Proof.
  unfold mentioned.
  induction pairs as [|[a b] pairs IH] using rev_ind.
  - simpl. by rewrite dom_empty_L.
  - rewrite AddAll_snoc, Add_dom by apply AddAll_wf. rewrite IH.
    rewrite !fmap_app, !list_to_set_app_L. simpl. set_solver.
Qed.

(** X1. [Contains] and [Count] after any sequence of [Add] calls: a hash
    is known exactly when some call mentioned it, and [Count] is the number
    of distinct hashes mentioned. *)
Theorem chunkRelations_known_hashes (pairs : list (Hash * Hash)) (h : Hash) :
  let cr := AddAll pairs NewChunkRelations in
  (Contains cr h = true ↔ ∃ a b, (a, b) ∈ pairs ∧ (h = a ∨ h = b))
  ∧ Count cr = size (mentioned pairs)
  ∧ (Count cr ≤ 2 * length pairs)%nat.
Proof.
  intros cr. pose proof (AddAll_dom pairs) as Hdom. fold cr in Hdom.
  split; [|split].
  - unfold Contains. rewrite bool_decide_eq_true, <- elem_of_dom, Hdom.
    unfold mentioned. rewrite elem_of_list_to_set, elem_of_app, !list_elem_of_fmap.
    split.
    + intros [([a b] & -> & Hin)|([a b] & -> & Hin)]; exists a, b; auto.
    + intros (a & b & Hin & [->| ->]); [left|right]; by exists (a, b).
  - unfold Count. by rewrite <- Hdom, size_dom.
  - unfold Count. rewrite <- size_dom, Hdom. unfold mentioned.
    etrans; [apply size_list_to_set_le|].
    rewrite length_app, !length_fmap. lia.
Qed.

(** X2. [Add] is symmetric: [Add(a, b)] and [Add(b, a)] leave the relations
    in the same state. *)
Theorem chunkRelations_Add_symmetric (cr : ChunkRelations) (a b : Hash) :
  Add a b cr = Add b a cr.
Proof.
  unfold Add.
  destruct (manyToGroup cr !! a) as [pa|] eqn:Ha, (manyToGroup cr !! b) as [pb|] eqn:Hb;
    try done.
  - destruct (decide (pa = pb)) as [->|Hne].
    + by rewrite decide_True.
    + rewrite decide_False by done. simpl.
      replace (NewHashSet [] ∪ deref (groupHeap cr) pb ∪ deref (groupHeap cr) pa)
        with (NewHashSet [] ∪ deref (groupHeap cr) pa ∪ deref (groupHeap cr) pb)
        by set_solver.
      done.
  - f_equal.
    + destruct (decide (a = b)) as [->|Hne]; [done|]. by apply insert_insert_ne.
    + f_equal. f_equal. unfold NewHashSet. simpl. set_solver.
Qed.

(** X3. Repeating a call changes nothing: on relations built by [Add], a
    pair whose hashes are already related leaves the state as it is, and so
    does a second [Add(a, b)] right after the first. *)
Theorem chunkRelations_Add_idempotent (pairs : list (Hash * Hash)) (a b : Hash) :
  let cr := AddAll pairs NewChunkRelations in
  (related pairs a b → Add a b cr = cr)
  ∧ Add a b (Add a b cr) = Add a b cr.
Proof.
  assert (∀ ps x y, related ps x y →
            Add x y (AddAll ps NewChunkRelations) = AddAll ps NewChunkRelations) as Habs.
  { intros ps x y (p & Hx & Hy)%sameGroup_related.
    unfold Add. rewrite Hx, Hy. by rewrite decide_True. }
  intros cr. split; [apply Habs|].
  unfold cr. rewrite <- AddAll_snoc. apply Habs.
  apply related_pair, elem_of_app. right. constructor.
Qed.

Lemma related_incl pairs pairs' x y :
  (∀ ab, ab ∈ pairs → ab ∈ pairs') → related pairs x y → related pairs' x y.
Proof.
  intros Hincl. induction 1.
  - apply related_pair. auto.
  - eapply related_refl_l. eauto.
  - eapply related_refl_r. eauto.
  - by apply related_sym.
  - by eapply related_trans.
Qed.

Lemma related_known pairs x y :
  related pairs x y → x ∈ mentioned pairs ∧ y ∈ mentioned pairs.
Proof.
  unfold mentioned.
  induction 1 as [a b Hin|a b Hin|a b Hin|? ? _ IH|? ? ? _ IH1 _ IH2].
  - split; apply elem_of_list_to_set, elem_of_app.
    + left. by apply (list_elem_of_fmap_2 fst _ (a, b)).
    + right. by apply (list_elem_of_fmap_2 snd _ (a, b)).
  - assert (a ∈ (list_to_set (pairs.*1 ++ pairs.*2) : gset Hash)); [|done].
    apply elem_of_list_to_set, elem_of_app. left. by apply (list_elem_of_fmap_2 fst _ (a, b)).
  - assert (b ∈ (list_to_set (pairs.*1 ++ pairs.*2) : gset Hash)); [|done].
    apply elem_of_list_to_set, elem_of_app. right. by apply (list_elem_of_fmap_2 snd _ (a, b)).
  - tauto.
  - tauto.
Qed.

Section GroupsFacts.
Context (pairs : list (Hash * Hash)) (kvs : list (Hash * nat)).
Local Abbreviation cr := (AddAll pairs NewChunkRelations).
Hypothesis Hkvs : kvs ≡ₚ map_to_list (manyToGroup cr).

Lemma class_of_known h p y :
  manyToGroup cr !! h = Some p →
  y ∈ deref (groupHeap cr) p ↔ related pairs h y.
Proof.
  intros Hh. pose proof (AddAll_wf pairs) as Hwf.
  rewrite (wf_elem_iff cr h p y Hwf Hh), <- sameGroup_related.
  rewrite <- (sameGroup_known cr y h p Hh).
  split; apply sameGroup_sym.
Qed.

(** A set is returned by [groups] exactly when it is the class of a hash
    some call mentioned. *)
Lemma groups_in_class g :
  g ∈ groups_in kvs (groupHeap cr)
  ↔ ∃ h, h ∈ mentioned pairs ∧ ∀ y, y ∈ g ↔ related pairs h y.
Proof.
  rewrite groups_in_ptrs, list_elem_of_fmap. split.
  - intros (p & -> & Hp).
    apply (groupPtrs_range (manyToGroup cr) kvs p Hkvs) in Hp as [h Hh].
    exists h. split.
    + rewrite <- AddAll_dom. by eapply elem_of_dom_2.
    + intros y. by apply class_of_known.
  - intros (h & Hh & Hg).
    rewrite <- AddAll_dom in Hh. apply elem_of_dom in Hh as [p Hp].
    exists p. split.
    + apply set_eq. intros y. rewrite Hg. symmetry. by apply class_of_known.
    + apply (groupPtrs_range (manyToGroup cr) kvs p Hkvs). eauto.
Qed.

Lemma groups_in_disjoint : pairwiseDisjoint (groups_in kvs (groupHeap cr)).
Proof.
  pose proof (AddAll_wf pairs) as Hwf.
  rewrite groups_in_ptrs.
  assert (NoDup (groupPtrs_in kvs)) as Hnd by (apply groupPtrs_fold_NoDup; constructor).
  assert (∀ p, p ∈ groupPtrs_in kvs → ∃ h, manyToGroup cr !! h = Some p) as Hrange.
  { intros p Hp. by apply (groupPtrs_range (manyToGroup cr) kvs p Hkvs). }
  induction (groupPtrs_in kvs) as [|p ps IH]; simpl; [done|].
  apply NoDup_cons in Hnd as [Hp Hnd].
  split.
  - intros y (q & -> & Hq)%list_elem_of_fmap.
    destruct (Hrange p) as [h1 H1]; [constructor|].
    destruct (Hrange q) as [h2 H2]; [by constructor|].
    eapply wf_disjoint; [done..|]. by intros ->.
  - apply IH; [done|]. intros q Hq. apply Hrange. by constructor.
Qed.

Lemma groups_in_nonempty g : g ∈ groups_in kvs (groupHeap cr) → g ≠ ∅.
Proof.
  intros (h & Hh & Hg)%groups_in_class Hempty.
  assert (h ∈ g) as Hin; [|set_solver].
  apply Hg. rewrite <- AddAll_dom in Hh. apply elem_of_dom in Hh as [p Hp].
  apply sameGroup_related. by exists p.
Qed.

Lemma groups_in_NoDup : NoDup (groups_in kvs (groupHeap cr)).
Proof.
  apply NoDup_alt. intros i j g Hi Hj.
  destruct (decide (i = j)) as [|Hne]; [done|exfalso].
  pose proof (pairwiseDisjoint_lookup _ i j g g groups_in_disjoint Hne Hi Hj) as Hdisj.
  apply (groups_in_nonempty g); [by eapply list_elem_of_lookup_2|]. set_solver.
Qed.
End GroupsFacts.

(** X4. [groups()] partitions the known hashes: a hash is known exactly
    when one of the returned sets holds it, sets at different positions
    share no hash, and no returned set is empty. *)
Theorem chunkRelations_groups_partition (pairs : list (Hash * Hash))
    (kvs : list (Hash * nat)) :
  let cr := AddAll pairs NewChunkRelations in
  let gs := groups_in kvs (groupHeap cr) in
  kvs ≡ₚ map_to_list (manyToGroup cr) →
  (∀ h, Contains cr h = true ↔ ∃ g, g ∈ gs ∧ h ∈ g)
  ∧ (∀ i j g g', i ≠ j → gs !! i = Some g → gs !! j = Some g' → g ## g')
  ∧ (∀ g, g ∈ gs → g ≠ ∅)
  ∧ (∀ g x y, g ∈ gs → x ∈ g → (y ∈ g ↔ related pairs x y)).
Proof.
  intros cr gs Hkvs. split; [|split; [|split]].
  - intros h. unfold Contains. rewrite bool_decide_eq_true. split.
    + intros [p Hp]. exists (deref (groupHeap cr) p). split.
      * unfold gs. rewrite groups_in_ptrs. apply list_elem_of_fmap_2.
        apply (groupPtrs_range (manyToGroup cr) kvs p Hkvs). eauto.
      * by apply (wf_member cr (AddAll_wf pairs)).
    + intros (g & (h0 & Hh0 & Hg)%(groups_in_class pairs kvs Hkvs) & Hin).
      apply Hg, related_known in Hin as [_ Hin].
      rewrite <- AddAll_dom in Hin. by apply elem_of_dom in Hin.
  - intros i j g g' Hne Hi Hj.
    exact (pairwiseDisjoint_lookup _ i j g g' (groups_in_disjoint pairs kvs Hkvs) Hne Hi Hj).
  - intros g. by apply groups_in_nonempty.
  - intros g x y (h & _ & Hg)%(groups_in_class pairs kvs Hkvs) Hx.
    rewrite Hg. apply Hg in Hx. split.
    + intros Hy. eapply related_trans; [by apply related_sym|done].
    + intros Hxy. by eapply related_trans.
Qed.

(** X5. The groups depend on the pairs only: two sequences of [Add] calls
    with the same pairs in any order, and any two orders of walking the map,
    give the same sets, up to the order of the returned list. *)
Theorem chunkRelations_groups_order_independent (pairs pairs' : list (Hash * Hash))
    (kvs kvs' : list (Hash * nat)) :
  let cr := AddAll pairs NewChunkRelations in
  let cr' := AddAll pairs' NewChunkRelations in
  pairs ≡ₚ pairs' →
  kvs ≡ₚ map_to_list (manyToGroup cr) →
  kvs' ≡ₚ map_to_list (manyToGroup cr') →
  groups_in kvs (groupHeap cr) ≡ₚ groups_in kvs' (groupHeap cr').
Proof.
  intros cr cr' Hperm Hkvs Hkvs'.
  apply list.NoDup_Permutation;
    [exact (groups_in_NoDup pairs kvs Hkvs)|exact (groups_in_NoDup pairs' kvs' Hkvs')|].
  assert (mentioned pairs = mentioned pairs') as Hm.
  { unfold mentioned. apply set_eq. intros h.
    rewrite !elem_of_list_to_set. by rewrite Hperm. }
  assert (∀ x y, related pairs x y ↔ related pairs' x y) as Hrel.
  { intros x y. split; apply related_incl; intros ab; by rewrite Hperm. }
  intros g. unfold cr, cr'.
  rewrite (groups_in_class pairs kvs Hkvs g), (groups_in_class pairs' kvs' Hkvs' g).
  split; intros (h & Hh & Hg); exists h.
  - rewrite <- Hm. split; [done|]. intros y. by rewrite Hg, Hrel.
  - rewrite Hm. split; [done|]. intros y. by rewrite Hg, Hrel.
Qed.

Lemma sumZ_app {A} (f : A → Z) l1 l2 : sumZ f (l1 ++ l2) = (sumZ f l1 + sumZ f l2)%Z.
Proof. induction l1 as [|x l1 IH]; simpl; [done|]. rewrite IH. lia. Qed.

Lemma sumZ_perm {A} (f : A → Z) l1 l2 : l1 ≡ₚ l2 → sumZ f l1 = sumZ f l2.
Proof. induction 1; simpl; lia. Qed.

Section RebuildMore.
Context (E : Externals) (sortScores : list (chunkCmpScore E) → list (chunkCmpScore E)).
Hypothesis HsortS : ∀ l, sortScores l ≡ₚ l.
Implicit Types (csc : simpleChunkSourceCache) (cg : chunkGroup E).

Lemma resolveChunks_omap csc scs acc chks :
  resolveChunks E csc scs acc = Ok chks → chks = acc ++ omap (resolvedChunk E csc) scs.
Proof.
  revert acc. induction scs as [|sc scs IH]; intros acc; simpl.
  - intros [= <-]. by rewrite app_nil_r.
  - intros (chk & Hget & Hrest)%obind_Ok. unfold resolvedChunk at 1. rewrite Hget.
    destruct chk as [c|].
    + rewrite (IH _ Hrest). by rewrite <- app_assoc.
    + by apply IH.
Qed.

Lemma scoreFold_spec cDict dd chks scored raw ds nds :
  foldl (scoreStep E cDict dd) (scored, raw, ds, nds) chks
  = (scored ++ (scoreOf E cDict dd <$> chks),
     raw + sumZ (λ c, blen (c_data c)) chks,
     ds + sumZ (dictCmpSize E) (scoreOf E cDict dd <$> chks),
     nds + sumZ (defaultDictCmpSize E) (scoreOf E cDict dd <$> chks))%Z.
Proof.
  revert scored raw ds nds. induction chks as [|c chks IH]; intros scored raw ds nds; simpl.
  - by rewrite app_nil_r, !Z.add_0_r.
  - rewrite IH. simpl. rewrite <- app_assoc. simpl. by rewrite !Z.add_assoc.
Qed.

(** What a [rebuild] that returns has computed. *)
Lemma rebuild_Ok cg csc dd cg' :
  rebuild E sortScores cg csc dd = Ok cg' →
  ∃ samples,
    let chks := omap (resolvedChunk E csc) (cg_chks E cg) in
    let dct := buildDictionary E samples in
    let scored := scoreOf E dct dd <$> chks in
    let raw := sumZ (λ c, blen (c_data c)) chks in
    chks ≠ []
    ∧ padSamples chks = Ok samples
    ∧ cg_dict E cg' = dct ∧ cg_cDict E cg' = dct
    ∧ cg_chks E cg' = sortScores scored
    ∧ totalBytesSavedWDict E cg'
      = (raw - (blen (zCompress E dct) + sumZ (dictCmpSize E) scored))%Z
    ∧ totalBytesSavedDefaultDict E cg' = (raw - sumZ (defaultDictCmpSize E) scored)%Z
    ∧ avgRawChunkSize E cg' = Z.quot raw (Z.of_nat (length chks)).
Proof.
  unfold rebuild. intros (chks & Hres & Hrest)%obind_Ok.
  apply resolveChunks_omap in Hres. simpl in Hres. subst chks.
  apply obind_Ok in Hrest as (samples & Hpad & Hrest).
  apply obind_Ok in Hrest as (cDict & HcDict & Hrest).
  assert (cDict = buildDictionary E samples) as ->.
  { unfold NewCDict in HcDict. destruct (zNewCDict E _); [done|]. by injection HcDict. }
  rewrite scoreFold_spec in Hrest.
  destruct (decide _) as [|Hne]; [done|]. injection Hrest as <-.
  exists samples. simpl. split; [by intros Heq; rewrite Heq in Hne|].
  split; [done|]. repeat split; try done; f_equal; lia.
Qed.
(** The members [rebuild] keeps. *)
Lemma rebuild_kept cg csc dd cg' :
  rebuild E sortScores cg csc dd = Ok cg' →
  chunkId E <$> cg_chks E cg' ≡ₚ c_hash <$> omap (resolvedChunk E csc) (cg_chks E cg)
  ∧ length (cg_chks E cg') = length (omap (resolvedChunk E csc) (cg_chks E cg))
  ∧ omap (resolvedChunk E csc) (cg_chks E cg) ≠ [].
Proof.
  intros Hre.
  destruct (rebuild_Ok cg csc dd cg' Hre) as (samples & Hne & _ & _ & _ & Hchks & _).
  assert (cg_chks E cg' ≡ₚ scoreOf E (buildDictionary E samples) dd
                             <$> omap (resolvedChunk E csc) (cg_chks E cg)) as Hperm.
  { rewrite Hchks. apply HsortS. }
  split; [|split; [|done]].
  - rewrite Hperm, <- list_fmap_compose. done.
  - by rewrite Hperm, length_fmap.
Qed.
End RebuildMore.

(** X6. The members of a rebuilt group: [rebuild] keeps one entry for each
    member the cache resolves and drops the others without a word; an entry
    carries the hash of the resolved chunk and that chunk's compressed sizes
    under the new group dictionary and under the default dictionary.  The
    group dictionary is trained on the resolved chunks, padded. *)
Theorem rebuild_members (E : Externals)
    (sortScores : list (chunkCmpScore E) → list (chunkCmpScore E))
    (cg cg' : chunkGroup E) (csc : simpleChunkSourceCache) (defaultDict : bytes) :
  (∀ l, sortScores l ≡ₚ l) →
  rebuild E sortScores cg csc defaultDict = Ok cg' →
  let chks := omap (resolvedChunk E csc) (cg_chks E cg) in
  cg_chks E cg' ≡ₚ scoreOf E (cg_cDict E cg') defaultDict <$> chks
  ∧ chunkId E <$> cg_chks E cg' ≡ₚ c_hash <$> chks
  ∧ length (cg_chks E cg') = length chks
  ∧ chks ≠ []
  ∧ (∃ samples, padSamples chks = Ok samples
                ∧ cg_dict E cg' = buildDictionary E samples
                ∧ cg_cDict E cg' = cg_dict E cg').
Proof.
  intros HsortS Hre chks.
  destruct (rebuild_Ok E sortScores cg csc defaultDict cg' Hre)
    as (samples & Hne & Hpad & Hdict & HcDict & Hchks & _).
  assert (cg_chks E cg' ≡ₚ scoreOf E (cg_cDict E cg') defaultDict <$> chks) as Hperm.
  { rewrite Hchks, HcDict. apply HsortS. }
  split; [done|]. split; [|split; [|split]].
  - rewrite Hperm, <- list_fmap_compose. done.
  - by rewrite Hperm, length_fmap.
  - done.
  - exists samples. by rewrite Hdict, HcDict.
Qed.

(** X7. The budget test on a rebuilt group: the bytes saved with the group
    dictionary count the compressed dictionary as a cost, so the group passes
    [totalBytesSavedWDict > totalBytesSavedDefaultDict] exactly when its
    members' sizes under the default dictionary sum to more than the
    compressed group dictionary plus their sizes under the group
    dictionary. *)
Theorem rebuild_budget (E : Externals)
    (sortScores : list (chunkCmpScore E) → list (chunkCmpScore E))
    (cg cg' : chunkGroup E) (csc : simpleChunkSourceCache) (defaultDict : bytes) :
  (∀ l, sortScores l ≡ₚ l) →
  rebuild E sortScores cg csc defaultDict = Ok cg' →
  let raw := sumZ (λ c, blen (c_data c)) (omap (resolvedChunk E csc) (cg_chks E cg)) in
  let dictCost := blen (zCompress E (cg_dict E cg')) in
  totalBytesSavedWDict E cg'
  = (raw - (dictCost + sumZ (dictCmpSize E) (cg_chks E cg')))%Z
  ∧ totalBytesSavedDefaultDict E cg'
    = (raw - sumZ (defaultDictCmpSize E) (cg_chks E cg'))%Z
  ∧ (materialized cg' ↔
     (dictCost + sumZ (dictCmpSize E) (cg_chks E cg')
      < sumZ (defaultDictCmpSize E) (cg_chks E cg'))%Z).
Proof.
  intros HsortS Hre raw dictCost.
  destruct (rebuild_Ok E sortScores cg csc defaultDict cg' Hre)
    as (samples & Hne & Hpad & Hdict & HcDict & Hchks & HW & HD & _).
  assert (sumZ (dictCmpSize E) (cg_chks E cg')
          = sumZ (dictCmpSize E)
              (scoreOf E (buildDictionary E samples) defaultDict
                 <$> omap (resolvedChunk E csc) (cg_chks E cg))) as H1.
  { rewrite Hchks. apply sumZ_perm, HsortS. }
  assert (sumZ (defaultDictCmpSize E) (cg_chks E cg')
          = sumZ (defaultDictCmpSize E)
              (scoreOf E (buildDictionary E samples) defaultDict
                 <$> omap (resolvedChunk E csc) (cg_chks E cg))) as H2.
  { rewrite Hchks. apply sumZ_perm, HsortS. }
  unfold dictCost, raw. rewrite H1, H2, Hdict.
  split; [done|]. split; [done|].
  unfold materialized. rewrite HW, HD. lia.
Qed.

(** X8. [rebuild] never panics unless the cache does: the division
    [raw / len(chks)] is not reached with no resolved chunk, because
    [padSamples] does not return on the empty list. *)
Theorem rebuild_never_panics (E : Externals)
    (sortScores : list (chunkCmpScore E) → list (chunkCmpScore E))
    (cg : chunkGroup E) (csc : simpleChunkSourceCache) (defaultDict : bytes) :
  (∀ sc, sc ∈ cg_chks E cg → cache_get E csc (chunkId E sc) ≠ Panic) →
  rebuild E sortScores cg csc defaultDict ≠ Panic.
Proof.
  intros Hcache. unfold rebuild.
  assert (∀ scs acc, (∀ sc, sc ∈ scs → cache_get E csc (chunkId E sc) ≠ Panic) →
                     resolveChunks E csc scs acc ≠ Panic) as Hres.
  { induction scs as [|sc scs IH]; intros acc Hall; simpl; [done|].
    pose proof (Hall sc ltac:(constructor)) as Hsc.
    destruct (cache_get E csc (chunkId E sc)) as [[c|]|e| |]; simpl; try done;
      apply IH; intros sc' Hin; apply Hall; by constructor. }
  specialize (Hres (cg_chks E cg) [] Hcache).
  destruct (resolveChunks E csc (cg_chks E cg) []) as [chks|e| |]; simpl; try done.
  destruct chks as [|c chks]; [done|].
  rewrite padSamples_nonempty by done. simpl.
  unfold NewCDict. destruct (zNewCDict E _); simpl; [done|].
  destruct (foldl _ _ _) as [[[scored raw] ds] nds]. simpl. done.
Qed.

Section CacheFacts.
Context (E : Externals) {C : Type} (L : lruCache C) (contents : C → gmap Hash Chunk).
Hypothesis Hsound : lruSound L contents.

Lemma csc_get_coherent cs cache h :
  coherent E cs (contents cache) →
  (csc_get E L cs cache h).1 = cache_get E (mkCache cs) h
  ∧ coherent E cs (contents (csc_get E L cs cache h).2).
Proof.
  intros Hco. unfold csc_get.
  pose proof (lru_Get_sound L contents Hsound cache h) as Hget.
  pose proof (lru_Get_keeps L contents Hsound cache h) as Hkeep.
  destruct (lru_Get L cache h) as [[chk|] cache1]; simpl in *.
  - split.
    + symmetry. apply Hco. by apply Hget.
    + intros k c Hk. apply Hco. by eapply lookup_weaken.
  - assert (coherent E cs (contents cache1)) as Hco1.
    { intros k c Hk. apply Hco. by eapply lookup_weaken. }
    unfold cache_get. simpl.
    destruct (cs_get cs h) as [[b|]|e| |] eqn:Hb; simpl; try done.
    split; [done|].
    intros k c Hk.
    pose proof (lookup_weaken _ _ _ _ Hk
                  (lru_Add_only L contents Hsound cache1 h (NewChunk E b))) as Hk'.
    apply lookup_insert_Some in Hk' as [[<- <-]|[_ Hk']].
    + unfold cache_get. simpl. by rewrite Hb.
    + by apply Hco1.
Qed.

Lemma csc_gets_coherent cs cache hs :
  coherent E cs (contents cache) →
  (csc_gets E L cs cache hs).1 = cache_get E (mkCache cs) <$> hs
  ∧ coherent E cs (contents (csc_gets E L cs cache hs).2).
Proof.
  revert cache. induction hs as [|h hs IH]; intros cache Hco; simpl; [done|].
  destruct (csc_get_coherent cs cache h Hco) as [Hr Hco1].
  destruct (csc_get E L cs cache h) as [r cache1]. simpl in *.
  destruct (IH cache1 Hco1) as [Hrs Hco2].
  destruct (csc_gets E L cs cache1 hs) as [rs cache2]. simpl in *.
  split; [by rewrite Hr, Hrs|done].
Qed.
End CacheFacts.

(** X10. The cache is transparent: starting from an empty cache, whatever
    was asked before and whatever the cache has forgotten since, [get]
    returns what the chunk source holds under the hash: the chunk of the
    bytes [cs.get] returns, nil for bytes that are nil, and the error of
    [cs.get]. *)
Theorem cache_get_transparent (E : Externals) {C : Type} (L : lruCache C)
    (contents : C → gmap Hash Chunk) (cs : chunkSource) (empty : C)
    (before : list Hash) (h : Hash) :
  lruSound L contents →
  contents empty = ∅ →
  let cache := (csc_gets E L cs empty before).2 in
  (csc_gets E L cs empty before).1 = cache_get E (mkCache cs) <$> before
  ∧ (csc_get E L cs cache h).1
    = match cs_get cs h with
      | Ok (Some b) => Ok (Some (NewChunk E b))
      | Ok None => Ok None
      | Err e => Err e
      | Panic => Panic
      | Diverge => Diverge
      end.
Proof.
  intros Hsound Hempty cache.
  assert (coherent E cs (contents empty)) as Hco.
  { intros k c Hk. by rewrite Hempty, lookup_empty in Hk. }
  destruct (csc_gets_coherent E L contents Hsound cs empty before Hco) as [Hrs Hco1].
  split; [done|].
  destruct (csc_get_coherent E L contents Hsound cs cache h Hco1) as [-> _].
  unfold cache_get. simpl. by destruct (cs_get cs h) as [[b|]|e| |].
Qed.

Lemma oneSlot_sound : lruSound Toy2.oneSlot Toy2.oneSlotContents.
Proof.
  split.
  - intros [[k c]|] h chk; simpl; [|done].
    destruct (decide (k = h)) as [->|]; simpl; [|done].
    intros [= ->]. by rewrite lookup_singleton_eq.
  - intros [[k c]|] h; simpl; reflexivity.
  - intros c h chk. simpl. rewrite <- insert_empty. apply insert_mono, map_empty_subseteq.
Qed.

Lemma cache_get_transparent_witness :
  let cs := Toy.tableFile 77 Toy.entries30 in
  let h (i : nat) := Toy.digest (Toy.chunkData i) in
  (csc_get Toy.ext Toy2.oneSlot cs
     (csc_gets Toy.ext Toy2.oneSlot cs None [h 1%nat; h 2%nat; 5; h 1%nat]).2 (h 2%nat)).1
  = match cs_get cs (h 2%nat) with
    | Ok (Some b) => Ok (Some (NewChunk Toy.ext b))
    | Ok None => Ok None
    | Err e => Err e
    | Panic => Panic
    | Diverge => Diverge
    end.
Proof.
  intros cs h.
  apply (cache_get_transparent Toy.ext Toy2.oneSlot Toy2.oneSlotContents cs None
           [h 1%nat; h 2%nat; 5; h 1%nat] (h 2%nat) oneSlot_sound eq_refl).
Defined.

Lemma resolveChunks_snoc_unresolved E csc scs sc acc :
  cache_get E csc (chunkId E sc) = Ok None →
  resolveChunks E csc (scs ++ [sc]) acc = resolveChunks E csc scs acc.
Proof.
  intros Hsc. revert acc. induction scs as [|s scs IH]; intros acc; simpl.
  - by rewrite Hsc.
  - destruct (cache_get E csc (chunkId E s)) as [[c|]|e| |]; simpl; try done; apply IH.
Qed.

(** X9. [addChunk] looks only at the hash of the chunk it is given: the
    data is fetched again through the cache.  A chunk the source does not
    hold is dropped without a word, the call being a plain [rebuild]; a chunk
    the source holds gets one more entry, also when it is a member already;
    and when [rebuild] fails the group keeps the placeholder entry, its
    dictionary and its totals being those from before the call. *)
Theorem addChunk_behaviour (E : Externals)
    (sortScores : list (chunkCmpScore E) → list (chunkCmpScore E))
    (cg : chunkGroup E) (csc : simpleChunkSourceCache) (c : Chunk) (defaultDict : bytes) :
  (∀ l, sortScores l ≡ₚ l) →
  let members (g : chunkGroup E) := chunkId E <$> cg_chks E g in
  (cache_get E csc (c_hash c) = Ok None →
     ∀ cg', rebuild E sortScores cg csc defaultDict = Ok cg' →
            addChunk E sortScores cg csc c defaultDict = (Ok (), cg'))
  ∧ (∀ c0 cg', cache_get E csc (c_hash c) = Ok (Some c0) →
       addChunk E sortScores cg csc c defaultDict = (Ok (), cg') →
       members cg' ≡ₚ (c_hash <$> omap (resolvedChunk E csc) (cg_chks E cg)) ++ [c_hash c0])
  ∧ (∀ e cg1, addChunk E sortScores cg csc c defaultDict = (Err e, cg1) →
       cg_chks E cg1 = cg_chks E cg ++ [mkScore E (c_hash c) None 0 0]
       ∧ cg_dict E cg1 = cg_dict E cg
       ∧ totalBytesSavedWDict E cg1 = totalBytesSavedWDict E cg
       ∧ totalBytesSavedDefaultDict E cg1 = totalBytesSavedDefaultDict E cg).
Proof.
  intros HsortS members. unfold addChunk.
  set (cg1 := mkGroup E _ _ _ _ _ _ _ _).
  split; [|split].
  - intros Hnone cg' Hre.
    assert (rebuild E sortScores cg1 csc defaultDict = rebuild E sortScores cg csc defaultDict)
      as ->.
    { unfold rebuild, cg1. cbn [cg_chks].
      by rewrite (resolveChunks_snoc_unresolved E csc (cg_chks E cg)
                    (mkScore E (c_hash c) None 0 0) [] Hnone). }
    by rewrite Hre.
  - intros c0 cg' Hsome Hadd.
    destruct (rebuild E sortScores cg1 csc defaultDict) as [cg2|e| |] eqn:Hre; try done.
    injection Hadd as <-.
    destruct (rebuild_kept E sortScores HsortS cg1 csc defaultDict cg2 Hre) as (Hids & _).
    unfold members. rewrite Hids. unfold cg1. cbn [cg_chks].
    rewrite omap_app, fmap_app. simpl. unfold resolvedChunk at 2. simpl.
    by rewrite Hsome.
  - intros e cg2 Hadd.
    destruct (rebuild E sortScores cg1 csc defaultDict) as [cg3|e'| |] eqn:Hre; try done.
    by injection Hadd as <- <-.
Qed.

Lemma readEntries_lookup idx i n l :
  readEntries idx i n = Ok l →
  ∀ k, (k < n)%nat → ∃ h, indexEntry idx (i + N.of_nat k) = Ok h ∧ l !! k = Some h.
Proof.
  revert i l. induction n as [|n IH]; intros i l; simpl.
  - intros _ k Hk. lia.
  - intros (h & Hh & Hrest)%obind_Ok.
    apply obind_Ok in Hrest as (rest & Hrest & [= <-]).
    intros [|k] Hk.
    + exists h. by rewrite N.add_0_r.
    + destruct (IH _ _ Hrest k ltac:(lia)) as (h' & Hh' & Hl).
      exists h'. split; [|done]. rewrite <- Hh'. f_equal. lia.
Qed.

Lemma readEntries_total idx i n :
  (∀ k, (k < n)%nat → ∃ h, indexEntry idx (i + N.of_nat k) = Ok h) →
  ∃ l, readEntries idx i n = Ok l.
Proof.
  revert i. induction n as [|n IH]; intros i Hall; simpl; [eauto|].
  destruct (Hall 0%nat ltac:(lia)) as [h Hh]. rewrite N.add_0_r in Hh. rewrite Hh. simpl.
  destruct (IH (i + 1)) as [l ->]; [|simpl; eauto].
  intros k Hk. destruct (Hall (Datatypes.S k) ltac:(lia)) as [h' Hh'].
  exists h'. rewrite <- Hh'. f_equal. lia.
Qed.

Lemma readEntries_first_error idx i n k e :
  (k < n)%nat →
  indexEntry idx (i + N.of_nat k) = Err e →
  (∀ j, (j < k)%nat → ∃ h, indexEntry idx (i + N.of_nat j) = Ok h) →
  readEntries idx i n = Err e.
Proof.
  revert i k. induction n as [|n IH]; intros i k Hk Herr Hbefore; [lia|]. simpl.
  destruct k as [|k].
  - rewrite N.add_0_r in Herr. by rewrite Herr.
  - destruct (Hbefore 0%nat ltac:(lia)) as [h Hh]. rewrite N.add_0_r in Hh.
    rewrite Hh. simpl.
    rewrite (IH (i + 1) k); [done|lia| |].
    + rewrite <- Herr. f_equal. lia.
    + intros j Hj. destruct (Hbefore (Datatypes.S j) ltac:(lia)) as [h' Hh'].
      exists h'. rewrite <- Hh'. f_equal. lia.
Qed.
(** X11. [addresses]: when every index entry reads, the result is the set
    of the hashes the index lists, duplicates merged, so it has at most
    [chunkCount] members; the first entry that fails to read makes the call
    fail with that entry's error. *)
Theorem cache_addresses_spec (csc : simpleChunkSourceCache) (idx : tableIndex) :
  cs_index (csc_cs csc) = Ok idx →
  ((∀ i, (i < chunkCount idx)%N → ∃ h, indexEntry idx i = Ok h) →
     ∃ A, cache_addresses csc = Ok A
          ∧ (∀ h, h ∈ A ↔ ∃ i, (i < chunkCount idx)%N ∧ indexEntry idx i = Ok h)
          ∧ (N.of_nat (size A) ≤ chunkCount idx)%N)
  ∧ (∀ i e, (i < chunkCount idx)%N → indexEntry idx i = Err e →
       (∀ j, (j < i)%N → ∃ h, indexEntry idx j = Ok h) →
       cache_addresses csc = Err e).
Proof.
  intros Hidx. unfold cache_addresses. rewrite Hidx. simpl. split.
  - intros Hall.
    destruct (readEntries_total idx 0 (N.to_nat (chunkCount idx))) as [l Hl].
    { intros k Hk. apply Hall. lia. }
    rewrite Hl. simpl. eexists. split; [done|].
    rewrite insertAll_set, (left_id_L ∅ (∪)).
    pose proof (readEntries_length _ _ _ _ Hl) as Hlen.
    split.
    + intros h. rewrite elem_of_list_to_set, list_elem_of_lookup. split.
      * intros [k Hk]. apply lookup_lt_Some in Hk as Hlt.
        destruct (readEntries_lookup _ _ _ _ Hl k ltac:(lia)) as (h' & Hh' & Hk').
        exists (N.of_nat k). split; [lia|]. rewrite N.add_0_l in Hh'.
        rewrite Hk in Hk'. by injection Hk' as <-.
      * intros (i & Hi & Hh). exists (N.to_nat i).
        destruct (readEntries_lookup _ _ _ _ Hl (N.to_nat i) ltac:(lia)) as (h' & Hh' & Hk').
        rewrite N.add_0_l, N2Nat.id in Hh'. rewrite Hh in Hh'. by injection Hh' as <-.
    + destruct (size_list_to_set_le l) as [Hle _]. lia.
  - intros i e Hi Herr Hbefore.
    rewrite (readEntries_first_error idx 0 (N.to_nat (chunkCount idx)) (N.to_nat i) e);
      [done|lia| |].
    + simpl. by rewrite N2Nat.id.
    + intros j Hj. destruct (Hbefore (N.of_nat j) ltac:(lia)) as [h Hh]. eauto.
Qed.

(** X12. [gatherAllChunks]: the default samples are the first
    [min(chunkCount, 1000)] index entries in index order, duplicates
    included; a sample is the chunk of the bytes [cs.get] returns for the
    entry, and the chunk of the empty byte string when [cs.get] returns nil;
    the cache returned wraps the source itself. *)
Theorem gatherAllChunks_samples (E : Externals) (cs : chunkSource) (idx : tableIndex)
    (chkCache : simpleChunkSourceCache) (defaultSamples : list Chunk) :
  gatherAllChunks E cs idx = Ok (chkCache, defaultSamples) →
  chkCache = mkCache cs
  ∧ length defaultSamples = N.to_nat (N.min (chunkCount idx) maxSamples)
  ∧ (length defaultSamples ≤ 1000)%nat
  ∧ ∀ i, (i < length defaultSamples)%nat →
      ∃ h b, indexEntry idx (N.of_nat i) = Ok h
             ∧ cs_get cs h = Ok b
             ∧ defaultSamples !! i = Some (NewChunk E (default [] b)).
Proof.
  unfold gatherAllChunks. intros (samples & Hs & Hrest)%obind_Ok.
  injection Hrest as <- <-.
  assert (∀ n i l, gatherSamples E cs idx i n = Ok l →
            length l = n ∧
            ∀ k, (k < n)%nat →
              ∃ h b, indexEntry idx (i + N.of_nat k) = Ok h ∧ cs_get cs h = Ok b
                     ∧ l !! k = Some (NewChunk E (default [] b))) as Hgen.
  { induction n as [|n IH]; intros i l; simpl.
    - intros [= <-]. split; [done|]. intros k Hk. lia.
    - intros (chk & Hchk & Hr)%obind_Ok.
      apply obind_Ok in Hr as (rest & Hr & [= <-]).
      destruct (IH _ _ Hr) as [Hlen Hall]. split; [simpl; by rewrite Hlen|].
      intros [|k] Hk.
      + unfold gatherSample in Hchk.
        apply obind_Ok in Hchk as (h & Hh & Hchk).
        apply obind_Ok in Hchk as (b & Hb & [= <-]).
        exists h, b. by rewrite N.add_0_r.
      + destruct (Hall k ltac:(lia)) as (h & b & Hh & Hb & Hl).
        exists h, b. split; [|done]. rewrite <- Hh. f_equal. lia. }
  destruct (Hgen _ _ _ Hs) as [Hlen Hall].
  split; [done|]. split; [done|]. split.
  - rewrite Hlen. unfold maxSamples. lia.
  - intros i Hi. rewrite Hlen in Hi. destruct (Hall i Hi) as (h & b & Hh & Hb & Hl).
    exists h, b. by rewrite N.add_0_l in Hh.
Qed.

Lemma stageMsgs_snoc stage total from k :
  stageMsgs stage total from (Datatypes.S k)
  = stageMsgs stage total from k ++ [MsgStage stage total (u32 (N.of_nat (from + k) + 1))].
Proof.
  unfold stageMsgs. rewrite seq_S, fmap_app. simpl. do 4 f_equal. lia.
Qed.

Lemma stageMsgs_cons stage total from k :
  stageMsgs stage total from (Datatypes.S k)
  = MsgStage stage total (u32 (N.of_nat from + 1)) :: stageMsgs stage total (Datatypes.S from) k.
Proof. unfold stageMsgs. simpl. do 3 f_equal. lia. Qed.

Section GroupCount.
Context {E : Externals} {S F : Type} (V : Env E S F).

Lemma buildGroups_count cache dd gc gs result k (w : world S F) result' n' w' :
  foldM (buildGroup V cache dd gc) (result, u32 (N.of_nat k)) gs w = (Ok (result', n'), w') →
  ∃ new, result' = result ++ new
         ∧ length new = length (filter (λ hs : gset Hash, (1 < size hs)%nat) gs)
         ∧ n' = u32 (N.of_nat (k + length new))
         ∧ w' = mkWorld (w_store w) (w_fs w)
                  (w_progress w
                   ++ stageMsgs "Building Chunk Group Dictionaries" gc k (length new))
                  (w_trace w).
Proof.
  revert result k w. induction gs as [|hs gs IH]; intros result k w; simpl.
  - intros [= <- <- <-]. exists []. rewrite !app_nil_r, Nat.add_0_r.
    split; [done|]. split; [done|]. split; [done|]. by destruct w.
  - intros ([result1 n1] & w1 & Hstep & Hrest)%bindM_Ok.
    unfold buildGroup in Hstep.
    destruct (ctxDone V _); [done|].
    rewrite filter_cons. destruct (decide (1 < size hs)%nat) as [Hbig|Hsmall].
    + apply bindM_Ok in Hstep as (chkGrp & w2 & [Hnew ->]%lift_Ok & Hstep).
      apply bindM_Ok in Hstep as ([] & w2 & [= <-] & [= <- <- <-]).
      rewrite u32_add_u32 in Hrest.
      replace (N.of_nat k + 1) with (N.of_nat (Datatypes.S k)) in Hrest by lia.
      destruct (IH _ _ _ Hrest) as (new & -> & Hlen & -> & ->). simpl.
      exists (chkGrp :: new). rewrite <- app_assoc. split; [done|].
      split; [simpl; by rewrite Hlen|]. split; [simpl; do 2 f_equal; lia|].
      f_equal. rewrite <- app_assoc. f_equal.
    + injection Hstep as <- <- <-. by apply IH.
Qed.
End GroupCount.

(** X13. [convertToChunkGroups]: a run that returns has built one chunk
    group for each relation group of more than one hash, in the order of
    [groups()]; it changes nothing but the progress channel, where it sends
    one "Building Chunk Group Dictionaries" message per group built, counting
    from 1, the total being the number of all relation groups, or the single
    message "Chunk Grouping Skipped" when there is no relation group. *)
Theorem convertToChunkGroups_count {E : Externals} {S F : Type} (V : Env E S F)
    (cr : ChunkRelations) (chks : simpleChunkSourceCache) (defaultDict : bytes)
    (w : world S F) (cgList : list (chunkGroup E)) (w' : world S F) :
  convertToChunkGroups V cr chks defaultDict w = (Ok cgList, w') →
  let gs := groups V cr in
  length cgList = length (filter (λ hs : gset Hash, (1 < size hs)%nat) gs)
  ∧ w_store w' = w_store w ∧ w_fs w' = w_fs w ∧ w_trace w' = w_trace w
  ∧ w_progress w'
    = w_progress w ++
      (if decide (0 < length gs)%nat then
         stageMsgs "Building Chunk Group Dictionaries" (u32 (N.of_nat (length gs)))
           0 (length cgList)
       else [MsgStage "Chunk Grouping Skipped" 0 0]).
Proof.
  intros Hrun gs. unfold convertToChunkGroups in Hrun. fold gs in Hrun.
  destruct (decide (0 < length gs)%nat) as [Hpos|Hzero].
  - apply bindM_Ok in Hrun as ([result n] & w1 & Hfold & [= <- <-]).
    change 0%N with (u32 (N.of_nat 0)) in Hfold.
    destruct (buildGroups_count V _ _ _ _ _ _ _ _ _ _ Hfold) as (new & -> & Hlen & _ & ->).
    simpl. done.
  - apply bindM_Ok in Hrun as ([] & w1 & [= <-] & [= <- <-]). simpl.
    assert (gs = []) as -> by (destruct gs; [done|simpl in Hzero; lia]).
    done.
Qed.

Section VerifyMore.
Context (E : Externals) {S F : Type}.

Lemma verifyFold_prefix index cc pre rest k (w : world S F) :
  (∀ h, h ∈ pre → chunkOk E index h) →
  foldM (verifyChunk E index cc) (u32 (N.of_nat k)) (pre ++ rest) w
  = foldM (verifyChunk E index cc) (u32 (N.of_nat (k + length pre))) rest
      (mkWorld (w_store w) (w_fs w)
         (w_progress w ++ stageMsgs "Verifying Chunks" cc k (length pre)) (w_trace w)).
Proof.
  revert k w. induction pre as [|h pre IH]; intros k w Hall; simpl.
  - rewrite Nat.add_0_r, app_nil_r. by destruct w.
  - unfold bindM at 1. rewrite verifyChunk_ok by (apply Hall; constructor).
    rewrite u32_add_u32.
    replace (N.of_nat k + 1) with (N.of_nat (Datatypes.S k)) by lia.
    rewrite IH by (intros h' Hin; apply Hall; by constructor). simpl.
    replace (k + Datatypes.S (length pre))%nat with (Datatypes.S (k + length pre)) by lia.
    rewrite <- app_assoc, stageMsgs_cons. simpl.
    by replace (N.of_nat k + 1) with (N.of_nat (Datatypes.S k)) by lia.
Qed.
End VerifyMore.

(** X14. [verifyAllChunks] stops at the first hash that fails, in the
    shuffled order: it returns the error for that hash, having sent one
    "Verifying Chunks" message for each hash before it; it reads the archive
    and the index and writes nothing: the block store and the file system are
    as they were.  When every hash passes it has sent one message per
    index entry, duplicates included. *)
Theorem verifyAllChunks_first_failure {E : Externals} {S F : Type} (V : Env E S F)
    (idx : tableIndex) (archiveFile : string) (w : world S F)
    (index : archiveReader) (hashList : list Hash) :
  openArchive V (w_fs w) archiveFile = Ok index →
  readEntries idx 0 (N.to_nat (chunkCount idx)) = Ok hashList →
  let run := verifyAllChunks V idx archiveFile w in
  let sent (k : nat) :=
    mkWorld (w_store w) (w_fs w)
      (w_progress w ++ stageMsgs "Verifying Chunks" (chunkCount idx) 0 k) (w_trace w) in
  (∀ pre h post,
     shuffle V hashList = pre ++ h :: post →
     (∀ x, x ∈ pre → chunkOk E index x) →
     ¬ chunkOk E index h →
     run.2 = sent (length pre)
     ∧ run.1 ≠ Ok ()
     ∧ ((∃ o, ar_get index h = Ok o) ∨ (∃ e, ar_get index h = Err e) →
        ∃ e, run.1 = Err e ∧ verifyError h e))
  ∧ ((∀ x, x ∈ shuffle V hashList → chunkOk E index x) →
     run = (Ok (), sent (length (shuffle V hashList)))).
Proof.
  intros Hopen Hread run sent.
  assert (run = bindM (foldM (verifyChunk E index (chunkCount idx)) 0 (shuffle V hashList))
                  (λ _, ret ()) w) as Hrun.
  { unfold run, verifyAllChunks. unfold bindM at 1. rewrite Hopen.
    unfold bindM at 1. unfold lift. by rewrite Hread. }
  split.
  - intros pre h post Hsh Hpre Hbad.
    rewrite Hrun, Hsh. unfold bindM.
    change 0%N with (u32 (N.of_nat 0)).
    rewrite (verifyFold_prefix E index (chunkCount idx) pre (h :: post) 0 w Hpre).
    simpl. unfold bindM.
    destruct (verifyChunk_bad E index (chunkCount idx) (u32 (N.of_nat (length pre))) h
                (sent (length pre)) Hbad) as (r & Hr & Hnok & Herr).
    unfold sent in Hr. rewrite Hr.
    destruct r as [n'|e| |]; [by destruct (Hnok n')|..]; simpl.
    + split; [done|]. split; [done|]. intros Htot.
      destruct (Herr Htot) as (e' & [= ->] & Hv). eauto.
    + split; [done|]. split; [done|]. intros Htot.
      by destruct (Herr Htot) as (e' & [=] & _).
    + split; [done|]. split; [done|]. intros Htot.
      by destruct (Herr Htot) as (e' & [=] & _).
  - intros Hall. rewrite Hrun.
    pose proof (verifyFold_prefix E index (chunkCount idx) (shuffle V hashList) [] 0 w Hall)
      as Hfold.
    rewrite app_nil_r in Hfold. change (u32 (N.of_nat 0)) with 0%N in Hfold.
    unfold bindM. rewrite Hfold. simpl. done.
Qed.

Lemma archiveSwapStep_purge E path tf archiveName chkCnt purge specs acc pf :
  (foldl (archiveSwapStep E path tf archiveName chkCnt purge) (acc, pf) specs).2
  = if purge && bool_decide (tf ∈ ts_name <$> specs)
    then filepathJoin E path (hashString E tf) else pf.
Proof.
  revert acc pf. induction specs as [|spec specs IH]; intros acc pf.
  - destruct purge; [|done]. cbn [foldl snd andb]. case_bool_decide as Hin; [|done].
    by apply elem_of_nil in Hin.
  - cbn [foldl]. unfold archiveSwapStep at 2.
    destruct (decide (tf = ts_name spec)) as [Heq|Hne]; rewrite IH.
    + destruct purge; [|done]. cbn [andb].
      rewrite (bool_decide_eq_true_2 (tf ∈ ts_name <$> spec :: specs))
        by (rewrite fmap_cons, Heq; constructor).
      by case_bool_decide.
    + destruct purge; [|done]. cbn [andb].
      case_bool_decide as Hin.
      * rewrite bool_decide_eq_true_2; [done|]. rewrite fmap_cons. by constructor.
      * rewrite bool_decide_eq_false_2; [done|]. rewrite fmap_cons.
        by intros [?|?]%elem_of_cons.
Qed.

Lemma archiveSwapSpecs_purge E path tf archiveName chkCnt purge specs :
  (archiveSwapSpecs E path tf archiveName chkCnt purge specs).2
  = purgeFileOf E path tf purge specs.
Proof. apply archiveSwapStep_purge. Qed.

(** X15. Journal and archive files are passed over: when every table file
    of the block store is the journal or an archive already, a run of
    [archiveSingleBlockStore] returns nil and has changed nothing and sent
    nothing; so a second run over a store the first has archived does no
    work. *)
Theorem archive_skips_archived {E : Externals} {S F : Type} (V : Env E S F)
    (dagGroups : ChunkRelations) (purge : bool) (w : world S F) :
  (∀ tf, tf ∈ upstreamKeys V (w_store w) →
         isJournalAddr E tf = true
         ∨ ∃ cs, upstreamLookup V (w_store w) tf = Some cs ∧ cs_isArchive cs = true) →
  archiveSingleBlockStore V dagGroups purge w = (Ok (), w).
Proof.
  intros Hall. unfold archiveSingleBlockStore. unfold bindM, getStore.
  induction (upstreamKeys V (w_store w)) as [|tf l IH]; simpl; [done|].
  unfold bindM at 1.
  assert (archiveTableFile V dagGroups purge (bs_Path V (w_store w)) tf w = (Ok (), w)) as ->.
  { unfold archiveTableFile.
    destruct (Hall tf ltac:(constructor)) as [->|(cs & Hcs & Harc)]; [done|].
    destruct (isJournalAddr E tf); [done|].
    unfold bindM, getStore. by rewrite Hcs, Harc. }
  apply IH. intros tf' Hin. apply Hall. by constructor.
Qed.

(** X16. One table file, archived: when the conversion, the stat and the
    verification succeed and [swapTables] accepts the new list, the loop body
    hands [swapTables] the manifest with every entry named after the table
    file replaced by the archive and its chunk count, and returns nil.  The
    old file is removed only when [purge] is set, the manifest named the
    table file and the joined path is not empty; a removal that fails costs a
    "Failed to purge" message and nothing else. *)
Theorem archiveTableFile_success {E : Externals} {S F : Type} (V : Env E S F)
    (dagGroups : ChunkRelations) (purge : bool) (path : string) (tf : Hash)
    (cs : chunkSource) (idx : tableIndex) (apath : string) (aname : Hash) (cnt size : N)
    (specs : list tableSpec) (st' : S) (w0 w1 w2 : world S F) :
  isJournalAddr E tf = false →
  upstreamLookup V (w_store w0) tf = Some cs →
  cs_isArchive cs = false →
  cs_index cs = Ok idx →
  convertTableFileToArchive V cs idx dagGroups path (announced tf w0)
  = (Ok (apath, aname, cnt), w1) →
  os_Stat V (w_fs w1) apath = Ok size →
  verifyAllChunks V idx apath w1 = (Ok (), w2) →
  toSpecs V (w_store w2) = Ok specs →
  let newSpecs := replaceSpec tf (mkSpec aname cnt) <$> specs in
  let purgeFile := purgeFileOf E path tf purge specs in
  let archived := w_progress w2 ++ [MsgArchived aname (tableFileSize idx) size] in
  let trace := w_trace w0 ++ [EvVerify tf None; EvSwap tf newSpecs] in
  swapTables V (w_store w2) newSpecs = (Ok (), st') →
  w_store w2 = w_store w0
  ∧ (String.length purgeFile = 0%nat →
     archiveTableFile V dagGroups purge path tf w0
     = (Ok (), mkWorld st' (w_fs w2) archived trace))
  ∧ (∀ fs', (0 < String.length purgeFile)%nat →
       os_Remove V (w_fs w2) purgeFile = (Ok (), fs') →
       archiveTableFile V dagGroups purge path tf w0
       = (Ok (), mkWorld st' fs' archived trace))
  ∧ (∀ e fs', (0 < String.length purgeFile)%nat →
       os_Remove V (w_fs w2) purgeFile = (Err e, fs') →
       archiveTableFile V dagGroups purge path tf w0
       = (Ok (), mkWorld st' fs' (archived ++ [MsgPurgeFailed purgeFile]) trace)).
Proof.
  intros Hj Hcs Harc Hidx Hconv Hstat Hver Hspecs newSpecs purgeFile archived trace Hswap.
  pose proof (keeps_convert V cs idx dagGroups path (announced tf w0)) as [Hs1 Ht1].
  rewrite Hconv in Hs1, Ht1. simpl in Hs1, Ht1.
  pose proof (keeps_verify V idx apath w1) as [Hs2 Ht2].
  rewrite Hver in Hs2, Ht2. simpl in Hs2, Ht2.
  split; [congruence|].
  assert (∀ k : world S F → outcome unit * world S F,
            (∀ w3, w_store w3 = w_store w2 → w_fs w3 = w_fs w2 →
                   w_progress w3 = archived →
                   w_trace w3 = w_trace w0 ++ [EvVerify tf None] →
                   swapAndPurge V tf newSpecs purgeFile w3 = k w3) →
            archiveTableFile V dagGroups purge path tf w0
            = k (mkWorld (w_store w2) (w_fs w2) archived (w_trace w0 ++ [EvVerify tf None])))
    as Hbody.
  { intros k Hk. unfold archiveTableFile. rewrite Hj.
    unfold bindM at 1. unfold getStore at 1. rewrite Hcs, Harc.
    unfold bindM at 1. unfold send at 1. fold (announced tf w0).
    unfold bindM at 1. unfold lift at 1. rewrite Hidx.
    unfold bindM at 1. unfold catch at 1. rewrite Hconv.
    unfold bindM at 1. unfold catch at 1. unfold stat at 1. rewrite Hstat.
    unfold bindM at 1. unfold catch at 1. rewrite Hver.
    unfold bindM at 1. unfold record at 1.
    unfold bindM at 1. unfold send at 1.
    unfold bindM at 1. unfold getStore at 1. simpl.
    unfold bindM at 1. unfold lift at 1. rewrite Hspecs.
    rewrite archiveSwapSpecs_map, archiveSwapSpecs_purge.
    rewrite Ht2, Ht1. apply Hk; done. }
  assert (w_trace w0 ++ [EvVerify tf None] ++ [EvSwap tf newSpecs] = trace) as Htr by done.
  split; [|split].
  - intros Hlen. rewrite (Hbody (λ w3, (Ok (), mkWorld st' (w_fs w3) (w_progress w3)
                                              (w_trace w3 ++ [EvSwap tf newSpecs])))).
    + simpl. by rewrite <- app_assoc.
    + intros w3 Hs3 Hf3 Hp3 Ht3. unfold swapAndPurge, bindM, swap.
      rewrite Hs3, Hswap. rewrite decide_False by lia. done.
  - intros fs' Hlen Hrm.
    rewrite (Hbody (λ w3, (Ok (), mkWorld st' fs' (w_progress w3)
                                   (w_trace w3 ++ [EvSwap tf newSpecs])))).
    + simpl. by rewrite <- app_assoc.
    + intros w3 Hs3 Hf3 Hp3 Ht3. unfold swapAndPurge, bindM, swap.
      rewrite Hs3, Hswap. rewrite decide_True by lia.
      unfold remove. simpl. by rewrite Hf3, Hrm.
  - intros e fs' Hlen Hrm.
    rewrite (Hbody (λ w3, (Ok (), mkWorld st' fs'
                                   (w_progress w3 ++ [MsgPurgeFailed purgeFile])
                                   (w_trace w3 ++ [EvSwap tf newSpecs])))).
    + simpl. by rewrite <- app_assoc.
    + intros w3 Hs3 Hf3 Hp3 Ht3. unfold swapAndPurge, bindM, swap.
      rewrite Hs3, Hswap. rewrite decide_True by lia.
      unfold remove. simpl. by rewrite Hf3, Hrm.
Qed.

Section StoreBySwaps.
Context {E : Externals} {S F : Type} (V : Env E S F).

Lemma archiveTableFile_store dag purge path tf (w : world S F) r w' :
  archiveTableFile V dag purge path tf w = (r, w') →
  ∃ evs, w_trace w' = w_trace w ++ evs
         ∧ w_store w' = foldl (applySwap V) (w_store w) evs.
Proof.
  assert (∀ w1 : world S F, w_trace w1 = w_trace w → w_store w1 = w_store w →
            ∃ evs, w_trace w1 = w_trace w ++ evs
                   ∧ w_store w1 = foldl (applySwap V) (w_store w) evs) as Hsame.
  { intros w1 Ht Hs. exists []. by rewrite app_nil_r. }
  unfold archiveTableFile.
  destruct (isJournalAddr E tf); [intros [= <- <-]; by apply Hsame|].
  unfold bindM at 1. unfold getStore at 1.
  destruct (upstreamLookup V (w_store w) tf) as [cs|]; [|intros [= <- <-]; by apply Hsame].
  destruct (cs_isArchive cs); [intros [= <- <-]; by apply Hsame|].
  unfold bindM at 1. unfold send at 1.
  set (w0 := mkWorld (w_store w) (w_fs w) (w_progress w ++ [MsgArchiving tf]) (w_trace w)).
  unfold bindM at 1. unfold lift at 1.
  destruct (cs_index cs) as [idx|e| |]; try (intros [= <- <-]; by apply Hsame).
  unfold bindM at 1. unfold catch at 1.
  pose proof (keeps_convert V cs idx dag path w0) as [Hs1 Ht1].
  destruct (convertTableFileToArchive V cs idx dag path w0) as [[[[apath aname] cnt]|e| |] w1];
    simpl in Hs1, Ht1; try (intros [= <- <-]; by apply Hsame).
  2:{ destruct (isNotEnoughChunks e); intros [= <- <-]; by apply Hsame. }
  unfold bindM at 1. unfold catch at 1. unfold stat at 1.
  destruct (os_Stat V (w_fs w1) apath) as [size|e| |]; try (intros [= <- <-]; by apply Hsame).
  unfold bindM at 1. unfold catch at 1.
  pose proof (keeps_verify V idx apath w1) as [Hs2 Ht2].
  assert (∀ ev (w3 : world S F) , w_trace w3 = w_trace w ++ [EvVerify tf ev] →
            w_store w3 = w_store w →
            ∃ evs, w_trace w3 = w_trace w ++ evs
                   ∧ w_store w3 = foldl (applySwap V) (w_store w) evs) as Hver.
  { intros ev w3 Ht Hs. by exists [EvVerify tf ev]. }
  destruct (verifyAllChunks V idx apath w1) as [[[]|e| |] w2];
    simpl in Hs2, Ht2; try (intros [= <- <-]; apply Hsame; congruence).
  2:{ intros [= <- <-]. apply (Hver (Some e)); simpl; congruence. }
  unfold bindM at 1. unfold record at 1.
  unfold bindM at 1. unfold send at 1.
  unfold bindM at 1. unfold getStore at 1. simpl.
  unfold bindM at 1. unfold lift at 1.
  assert (∀ newSpecs purgeFile (w3 : world S F),
            w_trace w3 = w_trace w ++ [EvVerify tf None] → w_store w3 = w_store w →
            swapAndPurge V tf newSpecs purgeFile w3 = (r, w') →
            ∃ evs, w_trace w' = w_trace w ++ evs
                   ∧ w_store w' = foldl (applySwap V) (w_store w) evs) as Hswap.
  { intros newSpecs purgeFile w3 Ht3 Hs3. unfold swapAndPurge.
    unfold bindM at 1. unfold swap at 1.
    destruct (swapTables V (w_store w3) newSpecs) as [rs st] eqn:Hst.
    assert (∀ w4 : world S F, w_trace w4 = w_trace w3 ++ [EvSwap tf newSpecs] →
              w_store w4 = st →
              ∃ evs, w_trace w4 = w_trace w ++ evs
                     ∧ w_store w4 = foldl (applySwap V) (w_store w) evs) as Hdone.
    { intros w4 Ht4 Hs4. exists [EvVerify tf None; EvSwap tf newSpecs].
      rewrite Ht4, Ht3, <- app_assoc. split; [done|]. simpl.
      by rewrite <- Hs3, Hst. }
    destruct rs as [[]|e| |]; try (intros [= <- <-]; by apply Hdone).
    destruct (decide _); [|intros [= <- <-]; by apply Hdone].
    unfold bindM, remove. simpl.
    destruct (os_Remove V (w_fs w3) purgeFile) as [[[]|e| |] fs];
      intros [= <- <-]; by apply Hdone. }
  destruct (toSpecs V (w_store w2)) as [specs|e| |].
  - intros Hrun. refine (Hswap _ _ _ _ _ Hrun); simpl; congruence.
  - intros Hrun. refine (Hswap _ _ _ _ _ Hrun); simpl; congruence.
  - intros [= <- <-]. apply (Hver None); simpl; congruence.
  - intros [= <- <-]. apply (Hver None); simpl; congruence.
Qed.

Lemma archiveLoop_store dag purge path allFiles (w : world S F) r w' :
  foldM (λ _ tf, archiveTableFile V dag purge path tf) () allFiles w = (r, w') →
  ∃ evs, w_trace w' = w_trace w ++ evs
         ∧ w_store w' = foldl (applySwap V) (w_store w) evs.
Proof.
  revert w. induction allFiles as [|tf allFiles IH]; intros w; simpl.
  - intros [= <- <-]. exists []. by rewrite app_nil_r.
  - unfold bindM at 1.
    destruct (archiveTableFile V dag purge path tf w) as [rb wb] eqn:Hbody.
    apply archiveTableFile_store in Hbody as (evs1 & Ht1 & Hs1).
    destruct rb as [[]|e| |]; try (intros [= <- <-]; eauto).
    intros (evs2 & Ht2 & Hs2)%IH.
    exists (evs1 ++ evs2). rewrite Ht2, Ht1, Hs2, Hs1, foldl_app, app_assoc. done.
Qed.
End StoreBySwaps.

(** X17. The block store changes through [swapTables] only: after a run of
    [archiveSingleBlockStore], however it ends, the block store is the one
    the run started with, taken through the recorded [swapTables] calls in
    their order; conversion, verification and purge leave it alone. *)
Theorem archive_store_by_swaps {E : Externals} {S F : Type} (V : Env E S F)
    (dagGroups : ChunkRelations) (purge : bool) (w : world S F) :
  let w' := (archiveSingleBlockStore V dagGroups purge w).2 in
  ∃ evs, w_trace w' = w_trace w ++ evs
         ∧ w_store w' = foldl (applySwap V) (w_store w) evs
         ∧ ((∀ tf specs, EvSwap tf specs ∉ evs) → w_store w' = w_store w).
Proof.
  intros w'. unfold w', archiveSingleBlockStore, bindM, getStore.
  destruct (foldM _ () (upstreamKeys V (w_store w)) w) as [r wf] eqn:Hrun.
  apply archiveLoop_store in Hrun as (evs & Ht & Hs).
  simpl. exists evs. split; [done|]. split; [done|].
  rewrite Hs. clear Ht Hs.
  induction evs as [|ev evs IH] using rev_ind; intros Hno; [reflexivity|].
  rewrite foldl_app. simpl.
  destruct ev as [tf e|tf specs]; simpl.
  - apply IH. intros tf' specs' Hin. apply (Hno tf' specs'). apply elem_of_app. by left.
  - exfalso. apply (Hno tf specs). apply elem_of_app. right. constructor.
Qed.

Lemma unArchiveSwapStep_purge E outPath id newTF chkCnt specs acc pf :
  (foldl (unArchiveSwapStep E outPath id newTF chkCnt) (acc, pf) specs).2
  = if bool_decide (id ∈ ts_name <$> specs)
    then filepathJoin E outPath (hashString E id +:+ ArchiveFileSuffix E) else pf.
Proof.
  revert acc pf. induction specs as [|spec specs IH]; intros acc pf.
  - cbn [foldl snd]. case_bool_decide as Hin; [|done]. by apply elem_of_nil in Hin.
  - cbn [foldl]. unfold unArchiveSwapStep at 2.
    destruct (decide (id = ts_name spec)) as [Heq|Hne]; rewrite IH.
    + rewrite (bool_decide_eq_true_2 (id ∈ ts_name <$> spec :: specs))
        by (rewrite fmap_cons, Heq; constructor).
      by case_bool_decide.
    + case_bool_decide as Hin.
      * rewrite bool_decide_eq_true_2; [done|]. rewrite fmap_cons. by constructor.
      * rewrite bool_decide_eq_false_2; [done|]. rewrite fmap_cons.
        by intros [?|?]%elem_of_cons.
Qed.

Lemma unArchiveSwapSpecs_purge E outPath id newTF chkCnt specs :
  (unArchiveSwapSpecs E outPath id newTF chkCnt specs).2 = archiveFileOf E outPath id specs.
Proof. apply unArchiveSwapStep_purge. Qed.

(** X18. Classic table files are passed over: when every table file of the
    block store is the journal, is not an archive or is missing from the
    source set, a run of [unArchiveSingleBlockStore] returns nil and has
    changed nothing and sent nothing. *)
Theorem unArchive_skips_tables {E : Externals} {S F T : Type} (V : Env E S F)
    (U : UnArchiveEnv F T) (w : world S F) :
  (∀ id, id ∈ upstreamKeys V (w_store w) →
         isJournalAddr E id = true
         ∨ upstreamLookup V (w_store w) id = None
         ∨ ∃ cs, upstreamLookup V (w_store w) id = Some cs ∧ cs_isArchive cs = false) →
  unArchiveSingleBlockStore V U w = (Ok (), w).
Proof.
  intros Hall. unfold unArchiveSingleBlockStore, bindM, getStore.
  induction (upstreamKeys V (w_store w)) as [|id l IH]; simpl; [done|].
  unfold bindM at 1.
  assert (unArchiveTableFile V U (bs_Path V (w_store w)) id w = (Ok (), w)) as ->.
  { unfold unArchiveTableFile.
    destruct (isJournalAddr E id) eqn:Hj; [done|].
    unfold bindM, getStore.
    destruct (Hall id ltac:(constructor)) as [Hj'|[->|(cs & -> & ->)]]; [congruence|done..]. }
  apply IH. intros id' Hin. apply Hall. by constructor.
Qed.

(** X20. One archive, un-archived: when the count, the writer, the
    iteration, [Finish], the flush and [swapTables] succeed, the loop body
    hands [swapTables] the manifest with every entry named after the archive
    replaced by the new table file and the chunk count [arc.count()] gave,
    without any verification, and returns nil.  [os.Remove] is then called on
    the archive's file, and on the empty path when the manifest did not name
    the archive; a removal that fails costs a "Failed to purge" message and
    nothing else. *)
Theorem unArchiveTableFile_success {E : Externals} {S F T : Type} (V : Env E S F)
    (U : UnArchiveEnv F T) (outPath : string) (id : Hash) (cs : chunkSource)
    (chkCnt : N) (t0 t1 t2 : T) (newId : string) (fs1 : F)
    (specs : list tableSpec) (st' : S) (w0 : world S F) :
  isJournalAddr E id = false →
  upstreamLookup V (w_store w0) id = Some cs →
  cs_isArchive cs = true →
  arc_count U cs = Ok chkCnt →
  NewCmpChunkTableWriter U = Ok t0 →
  arc_iterate U cs (tw_AddChunk U) t0 = (Ok (), t1) →
  tw_Finish U t1 = (Ok newId, t2) →
  tw_FlushToFile U t2 (filepathJoin E outPath newId) (w_fs w0) = (Ok (), fs1) →
  toSpecs V (w_store w0) = Ok specs →
  let newSpecs := replaceSpec id (mkSpec (hashParse U newId) chkCnt) <$> specs in
  let purgeFile := archiveFileOf E outPath id specs in
  let trace := w_trace w0 ++ [EvSwap id newSpecs] in
  swapTables V (w_store w0) newSpecs = (Ok (), st') →
  (∀ fs', os_Remove V fs1 purgeFile = (Ok (), fs') →
     unArchiveTableFile V U outPath id w0
     = (Ok (), mkWorld st' fs' (w_progress w0) trace))
  ∧ (∀ e fs', os_Remove V fs1 purgeFile = (Err e, fs') →
       unArchiveTableFile V U outPath id w0
       = (Ok (), mkWorld st' fs' (w_progress w0 ++ [MsgPurgeFailed purgeFile]) trace)).
Proof.
  intros Hj Hcs Harc Hcount Hnew Hiter Hfin Hflush Hspecs newSpecs purgeFile trace Hswap.
  assert (∀ k : world S F → outcome unit * world S F,
            (∀ w3, w_store w3 = w_store w0 → w_fs w3 = fs1 →
                   w_progress w3 = w_progress w0 → w_trace w3 = w_trace w0 →
                   swapAndRemove V id newSpecs purgeFile w3 = k w3) →
            unArchiveTableFile V U outPath id w0
            = k (mkWorld (w_store w0) fs1 (w_progress w0) (w_trace w0))) as Hbody.
  { intros k Hk. unfold unArchiveTableFile. rewrite Hj.
    unfold bindM at 1. unfold getStore at 1. rewrite Hcs, Harc. cbn [negb].
    unfold bindM at 1. unfold lift at 1. rewrite Hcount.
    unfold bindM at 1. unfold lift at 1. rewrite Hnew.
    rewrite Hiter. cbn [fst snd].
    unfold bindM at 1. unfold lift at 1.
    rewrite Hfin. cbn [fst snd].
    unfold bindM at 1. unfold lift at 1.
    unfold bindM at 1. unfold flushTable at 1. rewrite Hflush.
    unfold bindM at 1. unfold getStore at 1. simpl.
    unfold bindM at 1. unfold lift at 1. rewrite Hspecs.
    rewrite unArchiveSwapSpecs_map, unArchiveSwapSpecs_purge.
    apply Hk; done. }
  split.
  - intros fs' Hrm.
    rewrite (Hbody (λ w3, (Ok (), mkWorld st' fs' (w_progress w3)
                                   (w_trace w3 ++ [EvSwap id newSpecs])))); [done|].
    intros w3 Hs3 Hf3 Hp3 Ht3. unfold swapAndRemove, bindM, swap.
    rewrite Hs3, Hswap. unfold remove. simpl. by rewrite Hf3, Hrm.
  - intros e fs' Hrm.
    rewrite (Hbody (λ w3, (Ok (), mkWorld st' fs'
                                   (w_progress w3 ++ [MsgPurgeFailed purgeFile])
                                   (w_trace w3 ++ [EvSwap id newSpecs])))); [done|].
    intros w3 Hs3 Hf3 Hp3 Ht3. unfold swapAndRemove, bindM, swap.
    rewrite Hs3, Hswap. unfold remove. simpl. by rewrite Hf3, Hrm.
Qed.

Section UnArchiveStore.
Context {E : Externals} {S F T : Type} (V : Env E S F) (U : UnArchiveEnv F T).

Lemma unArchiveTableFile_store outPath id (w : world S F) r w' :
  unArchiveTableFile V U outPath id w = (r, w') →
  (w_trace w' = w_trace w ∧ w_store w' = w_store w ∧ r ≠ Ok () ∨
   w_trace w' = w_trace w ∧ w' = w ∧ r = Ok ())
  ∨ (∃ newSpecs, w_trace w' = w_trace w ++ [EvSwap id newSpecs]
                 ∧ w_store w' = (swapTables V (w_store w) newSpecs).2).
Proof.
  unfold unArchiveTableFile.
  destruct (isJournalAddr E id); [intros [= <- <-]; left; right; done|].
  unfold bindM at 1. unfold getStore at 1.
  destruct (upstreamLookup V (w_store w) id) as [cs|]; [|intros [= <- <-]; left; right; done].
  destruct (cs_isArchive cs); cbn [negb]; [|intros [= <- <-]; left; right; done].
  unfold bindM at 1. unfold lift at 1.
  destruct (arc_count U cs) as [chkCnt|e| |]; try (intros [= <- <-]; left; left; done).
  unfold bindM at 1. unfold lift at 1.
  destruct (NewCmpChunkTableWriter U) as [t0|e| |]; try (intros [= <- <-]; left; left; done).
  destruct (arc_iterate U cs (tw_AddChunk U) t0) as [ri t1]. cbn [fst snd].
  unfold bindM at 1. unfold lift at 1.
  destruct ri as [[]|e| |]; try (intros [= <- <-]; left; left; done).
  destruct (tw_Finish U t1) as [rf t2]. cbn [fst snd].
  unfold bindM at 1. unfold lift at 1.
  destruct rf as [newId|e| |]; try (intros [= <- <-]; left; left; done).
  unfold bindM at 1. unfold flushTable at 1.
  destruct (tw_FlushToFile U t2 _ (w_fs w)) as [rfl fs1].
  destruct rfl as [[]|e| |]; try (intros [= <- <-]; left; left; done).
  unfold bindM at 1. unfold getStore at 1. simpl.
  unfold bindM at 1. unfold lift at 1.
  assert (∀ newSpecs purgeFile (w3 : world S F),
            w_trace w3 = w_trace w → w_store w3 = w_store w →
            swapAndRemove V id newSpecs purgeFile w3 = (r, w') →
            ∃ newSpecs, w_trace w' = w_trace w ++ [EvSwap id newSpecs]
                        ∧ w_store w' = (swapTables V (w_store w) newSpecs).2) as Hswap.
  { intros newSpecs purgeFile w3 Ht3 Hs3. unfold swapAndRemove.
    unfold bindM at 1. unfold swap at 1.
    destruct (swapTables V (w_store w3) newSpecs) as [rs st] eqn:Hst.
    rewrite Hs3 in Hst.
    destruct rs as [[]|e| |];
      try (intros [= <- <-]; exists newSpecs; simpl; by rewrite Ht3, Hst).
    unfold bindM, remove. simpl.
    destruct (os_Remove V (w_fs w3) purgeFile) as [[[]|e| |] fs];
      intros [= <- <-]; exists newSpecs; simpl; by rewrite Ht3, Hst. }
  destruct (toSpecs V (w_store w)) as [specs|e| |].
  - intros Hrun. right. by refine (Hswap _ _ _ _ _ Hrun).
  - intros Hrun. right. by refine (Hswap _ _ _ _ _ Hrun).
  - intros [= <- <-]. left; left. done.
  - intros [= <- <-]. left; left. done.
Qed.

Lemma unArchiveLoop_store outPath allFiles (w : world S F) r w' :
  foldM (λ _ id, unArchiveTableFile V U outPath id) () allFiles w = (r, w') →
  ∃ evs, w_trace w' = w_trace w ++ evs
         ∧ w_store w' = foldl (applySwap V) (w_store w) evs
         ∧ (∀ ev, ev ∈ evs → ∃ id specs, ev = EvSwap id specs)
         ∧ (evs = [] → r ≠ Ok () ∨ w' = w).
Proof.
  revert w. induction allFiles as [|id allFiles IH]; intros w; simpl.
  - intros [= <- <-]. exists []. rewrite app_nil_r. split; [done|]. split; [done|].
    split; [by intros ev ?%elem_of_nil|]. by right.
  - unfold bindM at 1.
    destruct (unArchiveTableFile V U outPath id w) as [rb wb] eqn:Hbody.
    apply unArchiveTableFile_store in Hbody
      as [[(Ht1 & Hs1 & Hr)|(Ht1 & -> & ->)]|(newSpecs & Ht1 & Hs1)].
    + destruct rb as [[]|e| |]; [done|..]; intros [= <- <-]; exists [];
        rewrite app_nil_r; (split; [done|]); (split; [done|]);
        (split; [by intros ev ?%elem_of_nil|]); by left.
    + apply IH.
    + assert (∀ wf rf, (rf, wf) = (r, w') →
                (∀ evs2, w_trace wf = w_trace wb ++ evs2 →
                         w_store wf = foldl (applySwap V) (w_store wb) evs2 →
                         (∀ ev, ev ∈ evs2 → ∃ id specs, ev = EvSwap id specs) →
                ∃ evs, w_trace w' = w_trace w ++ evs
                       ∧ w_store w' = foldl (applySwap V) (w_store w) evs
                       ∧ (∀ ev, ev ∈ evs → ∃ id specs, ev = EvSwap id specs)
                       ∧ (evs = [] → r ≠ Ok () ∨ w' = w))) as Hdone.
      { intros wf rf [= <- <-] evs2 Ht2 Hs2 Hall2.
        exists (EvSwap id newSpecs :: evs2).
        rewrite Ht2, Ht1, <- app_assoc. split; [done|].
        split; [simpl; by rewrite Hs2, Hs1|].
        split; [|done].
        intros ev [->|Hin]%elem_of_cons; [eauto|by apply Hall2]. }
      destruct rb as [[]|e| |].
      * intros Hrest. destruct (IH _ Hrest) as (evs2 & Ht2 & Hs2 & Hall2 & _).
        by eapply (Hdone w' r).
      * intros Heq. eapply (Hdone _ _ Heq []); [by rewrite app_nil_r|done|].
        by intros ev ?%elem_of_nil.
      * intros Heq. eapply (Hdone _ _ Heq []); [by rewrite app_nil_r|done|].
        by intros ev ?%elem_of_nil.
      * intros Heq. eapply (Hdone _ _ Heq []); [by rewrite app_nil_r|done|].
        by intros ev ?%elem_of_nil.
Qed.
End UnArchiveStore.

(** X19. Un-archiving changes the block store through [swapTables] only,
    and never verifies: after a run of [unArchiveSingleBlockStore], however
    it ends, the calls recorded are swaps, the block store is the one the run
    started with taken through them in their order, and a run that failed
    before its first swap has left the block store as it was. *)
Theorem unArchive_store_by_swaps {E : Externals} {S F T : Type} (V : Env E S F)
    (U : UnArchiveEnv F T) (w : world S F) :
  let r := (unArchiveSingleBlockStore V U w).1 in
  let w' := (unArchiveSingleBlockStore V U w).2 in
  ∃ evs, w_trace w' = w_trace w ++ evs
         ∧ w_store w' = foldl (applySwap V) (w_store w) evs
         ∧ (∀ ev, ev ∈ evs → ∃ id specs, ev = EvSwap id specs)
         ∧ (evs = [] → w_store w' = w_store w).
Proof.
  intros r w'. unfold r, w', unArchiveSingleBlockStore, bindM, getStore.
  destruct (foldM _ () (upstreamKeys V (w_store w)) w) as [rf wf] eqn:Hrun.
  apply unArchiveLoop_store in Hrun as (evs & Ht & Hs & Hall & _).
  simpl. exists evs. split; [done|]. split; [done|]. split; [done|].
  intros ->. by rewrite Hs.
Qed.

Section WritesOnce.
Context {E : Externals} {S F : Type} (V : Env E S F).
Local Abbreviation M := (@M S F).

Lemma quiet_writesOnce {A} (m : M A) : quiet m → writesOnce V m.
Proof. intros Hq w. destruct (Hq w) as [msgs ->]. exists msgs. exists (w_fs w). eauto. Qed.

Lemma writesOnce_quiet_bind {A B} (m : M A) (k : A → M B) :
  quiet m → (∀ a, writesOnce V (k a)) → writesOnce V (bindM m k).
Proof.
  intros Hm Hk w. unfold bindM. destruct (Hm w) as [msgs Hw].
  destruct (m w) as [[a|e| |] w1]; simpl in Hw; subst w1;
    try (by exists msgs; exists (w_fs w); eauto).
  destruct (Hk a (mkWorld (w_store w) (w_fs w) (w_progress w ++ msgs) (w_trace w)))
    as (msgs2 & fs & -> & Hfs). simpl in *.
  exists (msgs ++ msgs2). exists fs. by rewrite app_assoc.
Qed.

Lemma writesOnce_bind_quiet {A B} (m : M A) (k : A → M B) :
  writesOnce V m → (∀ a, quiet (k a)) → writesOnce V (bindM m k).
Proof.
  intros Hm Hk w. unfold bindM. destruct (Hm w) as (msgs & fs & Hw & Hfs).
  destruct (m w) as [[a|e| |] w1]; simpl in Hw; subst w1;
    try (by exists msgs; exists fs; eauto).
  destruct (Hk a (mkWorld (w_store w) fs (w_progress w ++ msgs) (w_trace w)))
    as (msgs2 & ->). simpl.
  exists (msgs ++ msgs2). exists fs. by rewrite app_assoc.
Qed.

Lemma writesOnce_flush arcW fileName : writesOnce V (flush V arcW fileName).
Proof.
  intros w. unfold flush. exists []. exists (flushToFile V arcW fileName (w_fs w)).2.
  rewrite app_nil_r. split; [|eauto].
  by destruct (flushToFile V arcW fileName (w_fs w)) as [[[]|e| |] fs].
Qed.

Lemma writesOnce_convert cs idx dag path :
  writesOnce V (convertTableFileToArchive V cs idx dag path).
Proof.
  unfold convertTableFileToArchive.
  apply writesOnce_quiet_bind; [apply quiet_lift|intros [allChunks defaultSamples]].
  destruct (decide _); [|apply quiet_writesOnce, quiet_fail].
  apply writesOnce_quiet_bind; [apply quiet_lift|intros defaultCDict].
  apply writesOnce_quiet_bind; [apply quiet_convertToChunkGroups|intros cgList].
  apply writesOnce_quiet_bind; [apply quiet_lift|intros arcW].
  apply writesOnce_quiet_bind; [apply quiet_lift|intros [sid arcW']].
  apply writesOnce_quiet_bind; [apply quiet_writeData|intros [[[gc grouped] singles] arcW'']].
  apply writesOnce_bind_quiet.
  - unfold indexFinalizeFlushArchive.
    apply writesOnce_quiet_bind; [apply quiet_lift|intros arcW3].
    apply writesOnce_quiet_bind; [apply quiet_lift|intros fileName].
    apply writesOnce_flush.
  - intros arcW3.
    apply quiet_bind; [destruct (decide _); [apply quiet_send|apply quiet_ret]|intros _].
    apply quiet_bind; [apply quiet_lift|intros name]. apply quiet_ret.
Qed.
End WritesOnce.

(** X21. A conversion writes one file at most: whatever
    [convertTableFileToArchive] returns, the block store is as it was, the
    progress channel has only grown, and the file system is either untouched
    or what one call of [flushToFile] made of it; no file is removed. *)
Theorem convert_writes_once {E : Externals} {S F : Type} (V : Env E S F)
    (cs : chunkSource) (idx : tableIndex) (dagGroups : ChunkRelations) (path : string)
    (w : world S F) :
  let w' := (convertTableFileToArchive V cs idx dagGroups path w).2 in
  w_store w' = w_store w
  ∧ w_trace w' = w_trace w
  ∧ (∃ msgs, w_progress w' = w_progress w ++ msgs)
  ∧ (w_fs w' = w_fs w
     ∨ ∃ arcW fileName, w_fs w' = (flushToFile V arcW fileName (w_fs w)).2).
Proof.
  intros w'. destruct (writesOnce_convert V cs idx dagGroups path w) as (msgs & fs & Hw & Hfs).
  unfold w'. rewrite Hw. simpl. eauto.
Qed.

Section NoPurge.
Context {E : Externals} {S F : Type} (V : Env E S F) (rm : F → string → outcome unit * F).

Lemma swapAndPurge_empty tf newSpecs (w : world S F) :
  swapAndPurge (withRemove V rm) tf newSpecs EmptyString w
  = swapAndPurge V tf newSpecs EmptyString w.
Proof. reflexivity. Qed.

Lemma archiveTableFile_no_purge dag path tf (w : world S F) :
  archiveTableFile (withRemove V rm) dag false path tf w
  = archiveTableFile V dag false path tf w.
Proof.
  unfold archiveTableFile.
  change (convertTableFileToArchive (withRemove V rm)) with (convertTableFileToArchive V).
  change (verifyAllChunks (withRemove V rm)) with (verifyAllChunks V).
  change (upstreamLookup (withRemove V rm)) with (upstreamLookup V).
  change (toSpecs (withRemove V rm)) with (toSpecs V).
  change (stat (withRemove V rm)) with (stat V).
  unfold bindM, getStore, send, lift, catch, stat, record, fail, ret.
  repeat case_match; try done;
    rewrite !archiveSwapSpecs_purge; unfold purgeFileOf; simpl; apply swapAndPurge_empty.
Qed.
End NoPurge.

(** X22. With [purge] unset nothing is ever removed: a run of
    [archiveSingleBlockStore] does not call [os.Remove], so it goes the same
    way and ends in the same state whatever [os.Remove] would do. *)
Theorem archive_without_purge_never_removes {E : Externals} {S F : Type} (V : Env E S F)
    (rm : F → string → outcome unit * F) (dagGroups : ChunkRelations) (w : world S F) :
  archiveSingleBlockStore (withRemove V rm) dagGroups false w
  = archiveSingleBlockStore V dagGroups false w.
Proof.
  unfold archiveSingleBlockStore, bindM, getStore.
  change (bs_Path (withRemove V rm)) with (bs_Path V).
  change (upstreamKeys (withRemove V rm)) with (upstreamKeys V).
  generalize (bs_Path V (w_store w)). intros path.
  generalize (upstreamKeys V (w_store w)). intros allFiles.
  revert w. induction allFiles as [|tf allFiles IH]; intros w; simpl; [done|].
  unfold bindM. rewrite archiveTableFile_no_purge.
  by destruct (archiveTableFile V dagGroups false path tf w) as [[[]|e| |] w1].
Qed.

Lemma chunkRelations_groups_partition_witness :
  let pairs : list (Hash * Hash) := [(1, 2); (3, 4); (2, 5); (6, 6)] in
  let cr := AddAll pairs NewChunkRelations in
  Contains cr 5 = true
  ↔ ∃ g, g ∈ groups_in (map_to_list (manyToGroup cr)) (groupHeap cr) ∧ 5 ∈ g.
Proof.
  intros pairs cr.
  apply (chunkRelations_groups_partition pairs (map_to_list (manyToGroup cr))).
  reflexivity.
Defined.

Lemma chunkRelations_groups_order_independent_witness :
  let pairs : list (Hash * Hash) := [(1, 2); (3, 4); (2, 5)] in
  let pairs' : list (Hash * Hash) := [(2, 5); (1, 2); (3, 4)] in
  let cr := AddAll pairs NewChunkRelations in
  let cr' := AddAll pairs' NewChunkRelations in
  groups_in (map_to_list (manyToGroup cr)) (groupHeap cr)
  ≡ₚ groups_in (reverse (map_to_list (manyToGroup cr'))) (groupHeap cr').
Proof.
  intros pairs pairs' cr cr'.
  apply (chunkRelations_groups_order_independent pairs pairs'
           (map_to_list (manyToGroup cr)) (reverse (map_to_list (manyToGroup cr')))).
  - exact (Permutation_app_comm [(1%N, 2%N); (3%N, 4%N)] [(2%N, 5%N)]).
  - reflexivity.
  - apply reverse_Permutation.
Defined.

Lemma rebuild_members_witness :
  let cache := mkCache (Toy.tableFile 77 Toy.entries33) in
  let g (i : nat) := Toy.digest (Toy.sharedData i) in
  let cg := mkGroup Toy.ext [] []
              ((λ h, mkScore Toy.ext h None 0 0) <$> [g 0%nat; 12345; g 1%nat])
              None 0 None 0 0 in
  ∃ cg', rebuild Toy.ext id cg cache [] = Ok cg'
         ∧ chunkId Toy.ext <$> cg_chks Toy.ext cg'
           ≡ₚ c_hash <$> omap (resolvedChunk Toy.ext cache) (cg_chks Toy.ext cg).
Proof.
  intros cache g cg.
  assert (isOk (rebuild Toy.ext id cg cache []) = true) as Hok by (vm_compute; reflexivity).
  destruct (rebuild Toy.ext id cg cache []) as [cg'|e| |] eqn:Hre; try discriminate Hok.
  exists cg'. split; [reflexivity|].
  exact (proj1 (proj2 (rebuild_members Toy.ext id cg cg' cache []
                         (λ l, reflexivity l) Hre))).
Defined.

Lemma rebuild_budget_witness :
  let cache := mkCache (Toy.tableFile 77 Toy.entries33) in
  let g (i : nat) := Toy.digest (Toy.sharedData i) in
  let cg := mkGroup Toy.ext [] []
              ((λ h, mkScore Toy.ext h None 0 0) <$> [g 0%nat; g 1%nat; g 2%nat])
              None 0 None 0 0 in
  ∃ cg', rebuild Toy.ext id cg cache [] = Ok cg'
         ∧ (materialized cg' ↔
            (blen (zCompress Toy.ext (cg_dict Toy.ext cg'))
             + sumZ (dictCmpSize Toy.ext) (cg_chks Toy.ext cg')
             < sumZ (defaultDictCmpSize Toy.ext) (cg_chks Toy.ext cg'))%Z).
Proof.
  intros cache g cg.
  assert (isOk (rebuild Toy.ext id cg cache []) = true) as Hok by (vm_compute; reflexivity).
  destruct (rebuild Toy.ext id cg cache []) as [cg'|e| |] eqn:Hre; try discriminate Hok.
  exists cg'. split; [reflexivity|].
  exact (proj2 (proj2 (rebuild_budget Toy.ext id cg cg' cache []
                         (λ l, reflexivity l) Hre))).
Defined.

Lemma toy_cache_no_panic name entries h :
  cache_get Toy.ext (mkCache (Toy.tableFile name entries)) h ≠ Panic.
Proof.
  unfold cache_get. simpl. by destruct (list_find _ entries ≫= _).
Qed.

Lemma rebuild_never_panics_witness :
  let cache := mkCache (Toy.tableFile 77 Toy.entries33) in
  let cg := mkGroup Toy.ext [] [] [mkScore Toy.ext 12345 None 0 0] None 0 None 0 0 in
  rebuild Toy.ext id cg cache [] = Diverge
  ∧ rebuild Toy.ext id cg cache [] ≠ Panic.
Proof.
  intros cache cg. split; [vm_compute; reflexivity|].
  apply (rebuild_never_panics Toy.ext id cg cache []).
  intros sc _. apply toy_cache_no_panic.
Defined.

Lemma addChunk_behaviour_witness :
  let cache := mkCache (Toy.tableFile 77 Toy.entries33) in
  let g (i : nat) := Toy.digest (Toy.sharedData i) in
  let cg := mkGroup Toy.ext [] []
              ((λ h, mkScore Toy.ext h None 0 0) <$> [g 0%nat; g 1%nat])
              None 0 None 0 0 in
  let stranger := mkChunk 12345 [] in
  ∃ cg', rebuild Toy.ext id cg cache [] = Ok cg'
         ∧ addChunk Toy.ext id cg cache stranger [] = (Ok (), cg').
Proof.
  intros cache g cg stranger.
  assert (isOk (rebuild Toy.ext id cg cache []) = true) as Hok by (vm_compute; reflexivity).
  destruct (rebuild Toy.ext id cg cache []) as [cg'|e| |] eqn:Hre; try discriminate Hok.
  exists cg'. split; [reflexivity|].
  apply (proj1 (addChunk_behaviour Toy.ext id cg cache stranger [] (λ l, reflexivity l))).
  - vm_compute. reflexivity.
  - exact Hre.
Defined.

Lemma cache_addresses_spec_witness :
  let csc := mkCache (Toy.tableFile 77 Toy.entries31) in
  let idx := Toy.indexOf Toy.entries31 in
  ∃ A, cache_addresses csc = Ok A
       ∧ (∀ h, h ∈ A ↔ ∃ i, (i < chunkCount idx)%N ∧ indexEntry idx i = Ok h)
       ∧ (N.of_nat (size A) ≤ chunkCount idx)%N.
Proof.
  intros csc idx.
  apply (proj1 (cache_addresses_spec csc idx eq_refl)).
  intros i Hi. change (chunkCount idx) with 31%N in Hi.
  destruct (lookup_lt_is_Some_2 Toy.entries31 (N.to_nat i)) as [b Hb].
  { change (length Toy.entries31) with 31%nat. lia. }
  exists (Toy.digest b). cbn. by rewrite Hb.
Defined.

Lemma gatherAllChunks_samples_witness :
  let cs := Toy.tableFile 77 Toy.entries31 in
  let idx := Toy.indexOf Toy.entries31 in
  ∃ chkCache defaultSamples,
    gatherAllChunks Toy.ext cs idx = Ok (chkCache, defaultSamples)
    ∧ length defaultSamples = 31%nat.
Proof.
  intros cs idx.
  assert (isOk (gatherAllChunks Toy.ext cs idx) = true) as Hok by (vm_compute; reflexivity).
  destruct (gatherAllChunks Toy.ext cs idx) as [[chkCache samples]|e| |] eqn:Hg;
    try discriminate Hok.
  exists chkCache, samples. split; [reflexivity|].
  exact (proj1 (proj2 (gatherAllChunks_samples Toy.ext cs idx chkCache samples Hg))).
Defined.

Lemma convertToChunkGroups_count_witness :
  let V := Toy.env elements Toy.clock in
  let cache := mkCache (Toy.tableFile 77 Toy.entries33) in
  let h (i : nat) := Toy.digest (Toy.chunkData i) in
  let g (i : nat) := Toy.digest (Toy.sharedData i) in
  let dag := AddAll [(g 0%nat, g 1%nat); (h 2%nat, h 3%nat); (h 7%nat, h 7%nat)]
               NewChunkRelations in
  ∃ cgList w',
    convertToChunkGroups V dag cache [] (Toy.world0 Toy.entries33) = (Ok cgList, w')
    ∧ length cgList = length (filter (λ hs : gset Hash, (1 < size hs)%nat) (groups V dag)).
Proof.
  intros V cache h g dag.
  assert (isOk (convertToChunkGroups V dag cache [] (Toy.world0 Toy.entries33)).1 = true)
    as Hok by (vm_compute; reflexivity).
  destruct (convertToChunkGroups V dag cache [] (Toy.world0 Toy.entries33))
    as [[cgList|e| |] w'] eqn:Hrun; try discriminate Hok.
  exists cgList, w'. split; [reflexivity|].
  exact (proj1 (convertToChunkGroups_count V dag cache [] (Toy.world0 Toy.entries33)
                  cgList w' Hrun)).
Defined.

Lemma archive_skips_archived_witness :
  archiveSingleBlockStore (Toy.env elements Toy.clock) NewChunkRelations true
    Toy3.worldArchived
  = (Ok (), Toy3.worldArchived).
Proof.
  apply (archive_skips_archived (Toy.env elements Toy.clock) NewChunkRelations true
           Toy3.worldArchived).
  intros tf Hin. right. exists Toy3.archivedSource.
  simpl in Hin. apply list_elem_of_singleton in Hin as ->. split; reflexivity.
Defined.

Lemma unArchive_skips_tables_witness :
  unArchiveSingleBlockStore (Toy.env elements Toy.clock) Toy3.unEnv
    (Toy.world0 Toy.entries30)
  = (Ok (), Toy.world0 Toy.entries30).
Proof.
  apply (unArchive_skips_tables (Toy.env elements Toy.clock) Toy3.unEnv
           (Toy.world0 Toy.entries30)).
  intros id Hin. right. right. exists (Toy.tableFile 77 Toy.entries30).
  simpl in Hin. apply list_elem_of_singleton in Hin as ->. split; reflexivity.
Defined.

Lemma unArchiveTableFile_success_witness :
  let V := Toy.env elements Toy.clock in
  let w := (unArchiveTableFile V Toy3.unEnv "noms" 5 Toy3.worldArchived).2 in
  (unArchiveTableFile V Toy3.unEnv "noms" 5 Toy3.worldArchived).1 = Ok ()
  ∧ ts_chunkCount <$> Toy.manifest (w_store w) = [30%N]
  ∧ w_trace w = [EvSwap 5 (Toy.manifest (w_store w))]
  ∧ Toy.lookupFile (w_fs w) "noms/5.darc" = None.
Proof.
  intros V w.
  set (t1 := NewChunk Toy.ext <$> Toy.entries30).
  set (newId := pretty (Toy.digest (mjoin (c_data <$> t1)))).
  set (fs1 := (filepathJoin Toy.ext "noms" newId,
               mkWriter (c_data <$> t1) [] ∅ [] [] None (filepathJoin Toy.ext "noms" newId))
              :: w_fs Toy3.worldArchived).
  set (specs := [mkSpec 5 30]).
  set (newSpecs := replaceSpec 5 (mkSpec (hashParse Toy3.unEnv newId) 30) <$> specs).
  set (purgeFile := archiveFileOf Toy.ext "noms" 5 specs).
  assert (isJournalAddr Toy.ext 5 = false) as H1 by (vm_compute; reflexivity).
  assert (upstreamLookup V (w_store Toy3.worldArchived) 5 = Some Toy3.archivedSource) as H2 by reflexivity.
  assert (arc_count Toy3.unEnv Toy3.archivedSource = Ok 30) as H3 by reflexivity.
  assert (arc_iterate Toy3.unEnv Toy3.archivedSource (tw_AddChunk Toy3.unEnv) []
          = (Ok (), t1)) as Hiter by (vm_compute; reflexivity).
  assert (tw_Finish Toy3.unEnv t1 = (Ok newId, t1)) as H4 by reflexivity.
  assert (tw_FlushToFile Toy3.unEnv t1 (filepathJoin Toy.ext "noms" newId) (w_fs Toy3.worldArchived) = (Ok (), fs1)) as H5 by reflexivity.
  assert (toSpecs V (w_store Toy3.worldArchived) = Ok specs) as H6 by reflexivity.
  assert (swapTables V (w_store Toy3.worldArchived) newSpecs = (Ok (), Toy.mkStore newSpecs (Toy.files (w_store Toy3.worldArchived)))) as H7 by reflexivity.
  assert (os_Remove V fs1 purgeFile = (Ok (), filter (λ f, f.1 ≠ purgeFile) fs1)) as H8 by reflexivity.
  pose proof (proj1 (unArchiveTableFile_success V Toy3.unEnv "noms" 5 Toy3.archivedSource
                30 [] t1 t1 newId fs1 specs
                (Toy.mkStore newSpecs (Toy.files (w_store Toy3.worldArchived)))
                Toy3.worldArchived
                H1 H2 eq_refl H3 eq_refl Hiter H4 H5 H6 H7)
                (filter (λ f, f.1 ≠ purgeFile) fs1) H8) as Hrun.
  unfold w. rewrite Hrun. vm_compute. split; [reflexivity|]. split; [reflexivity|]. split; reflexivity.
Defined.

Lemma archiveTableFile_success_witness :
  let V := Toy.env elements Toy.clock in
  let w0 := Toy.world0 Toy.entries30 in
  (archiveTableFile V NewChunkRelations true "noms" 77 w0).1 = Ok ()
  ∧ Toy.lookupFile (w_fs (archiveTableFile V NewChunkRelations true "noms" 77 w0).2)
      "noms/77" = None.
Proof.
  intros V w0.
  set (cs := Toy.tableFile 77 Toy.entries30).
  set (idx := Toy.indexOf Toy.entries30).
  assert (match convertTableFileToArchive V cs idx NewChunkRelations "noms" (announced 77 w0) with
          | (Ok (apath, _, _), w1) =>
              match os_Stat V (w_fs w1) apath with
              | Ok _ => isOk (verifyAllChunks V idx apath w1).1
              | _ => false
              end
          | _ => false
          end = true) as Hcheck by (vm_compute; reflexivity).
  destruct (convertTableFileToArchive V cs idx NewChunkRelations "noms" (announced 77 w0))
    as [[[[apath aname] cnt]|e| |] w1] eqn:Hconv; try discriminate Hcheck.
  destruct (os_Stat V (w_fs w1) apath) as [size|e| |] eqn:Hstat; try discriminate Hcheck.
  destruct (verifyAllChunks V idx apath w1) as [[[]|e| |] w2] eqn:Hver;
    try discriminate Hcheck.
  set (specs := Toy.manifest (w_store w2)).
  set (newSpecs := replaceSpec 77 (mkSpec aname cnt) <$> specs).
  set (purgeFile := purgeFileOf Toy.ext "noms" 77 true specs).
  pose proof (archiveTableFile_success V NewChunkRelations true "noms" 77 cs idx apath
                aname cnt size specs (Toy.mkStore newSpecs (Toy.files (w_store w2)))
                w0 w1 w2 eq_refl eq_refl eq_refl eq_refl Hconv Hstat Hver eq_refl eq_refl)
    as (Hstore & _ & Hrm & _).
  assert (purgeFile = "noms/77") as Hpf.
  { unfold purgeFile, specs. rewrite Hstore. vm_compute. reflexivity. }
  rewrite (Hrm (filter (λ f, f.1 ≠ purgeFile) (w_fs w2))).
  - split; [reflexivity|]. cbn [snd w_fs].
    unfold Toy.lookupFile.
    destruct (list_find _ (filter _ (w_fs w2))) as [[i f]|] eqn:Hfind; [|reflexivity].
    apply list_find_Some in Hfind as (Hi & Hf & _).
    apply list_elem_of_lookup_2, list_elem_of_filter in Hi as [Hne _].
    exfalso. apply Hne. rewrite Hpf. exact Hf.
  - change (0 < String.length purgeFile)%nat. rewrite Hpf. simpl. lia.
  - reflexivity.
Defined.

Lemma verifyAllChunks_first_failure_witness :
  let V := Toy.env elements Toy.clock in
  let w1 := (convertTableFileToArchive V (Toy.tableFile 77 Toy.entries30)
               (Toy.indexOf Toy.entries30) NewChunkRelations "noms"
               (Toy.world0 Toy.entries30)).2 in
  let file := "noms/31291960331647528469794364.darc" in
  (verifyAllChunks V (Toy.indexOf Toy.entries33) file w1).1 ≠ Ok ()
  ∧ w_progress (verifyAllChunks V (Toy.indexOf Toy.entries33) file w1).2 = w_progress w1.
Proof.
  intros V w1 file.
  set (h := Toy.digest (Toy.sharedData 2)).
  set (hashList := Toy.digest <$> Toy.entries33).
  assert (match openArchive V (w_fs w1) file with
          | Ok index => negb (ar_has index h)
          | _ => false
          end = true) as Hcheck by (vm_compute; reflexivity).
  destruct (openArchive V (w_fs w1) file) as [index|e| |] eqn:Hopen; try discriminate Hcheck.
  assert (readEntries (Toy.indexOf Toy.entries33) 0
            (N.to_nat (chunkCount (Toy.indexOf Toy.entries33))) = Ok hashList) as Hread
    by (vm_compute; reflexivity).
  assert (shuffle V hashList = [] ++ h :: tail (reverse hashList)) as Hsh
    by (vm_compute; reflexivity).
  assert (¬ chunkOk Toy.ext index h) as Hbad.
  { intros [Hhas _]. rewrite Hhas in Hcheck. discriminate Hcheck. }
  destruct (proj1 (verifyAllChunks_first_failure V (Toy.indexOf Toy.entries33) file w1
                     index hashList Hopen Hread) [] h (tail (reverse hashList)) Hsh
              (λ x Hx, False_ind _ (proj1 (elem_of_nil x) Hx)) Hbad) as (Hw & Hr & _).
  split; [exact Hr|]. rewrite Hw. simpl. apply app_nil_r.
Defined.

Lemma resolved_hashes E csc (hs : list Hash) :
  (∀ h b, cs_get (csc_cs csc) h = Ok (Some b) → hashOf E b = h) →
  c_hash <$> omap (resolvedChunk E csc) ((λ h, mkScore E h None 0%Z 0%Z) <$> hs)
  = filter (λ h, is_Some (match cs_get (csc_cs csc) h with Ok o => o | _ => None end)) hs.
Proof.
  intros Haddr. induction hs as [|h hs IH]; [done|].
  rewrite fmap_cons, filter_cons. cbn [omap list_omap].
  unfold resolvedChunk at 1. unfold cache_get. cbn [chunkId].
  destruct (cs_get (csc_cs csc) h) as [[b|]|e| |] eqn:Hb.
  - rewrite decide_True by eauto. rewrite fmap_cons. cbn [c_hash NewChunk].
    rewrite (Haddr _ _ Hb). f_equal. apply IH.
  - rewrite decide_False by (by intros [? ?]). apply IH.
  - rewrite decide_False by (by intros [? ?]). apply IH.
  - rewrite decide_False by (by intros [? ?]). apply IH.
  - rewrite decide_False by (by intros [? ?]). apply IH.
Qed.

(** X23. A group holds the related hashes the table file holds: over a
    source that resolves a hash to a chunk of that hash, the members of the
    group [newChunkGroup] builds from a set of hashes are the hashes of the
    set that the source resolves, each once; the hashes of chunks that live
    in other table files are left out, and at least one member remains. *)
Theorem newChunkGroup_members (E : Externals)
    (sortScores : list (chunkCmpScore E) → list (chunkCmpScore E))
    (chunkCache : simpleChunkSourceCache) (chks : list Hash) (defaultDict : bytes)
    (cg : chunkGroup E) :
  (∀ l, sortScores l ≡ₚ l) →
  (∀ h b, cs_get (csc_cs chunkCache) h = Ok (Some b) → hashOf E b = h) →
  newChunkGroup E sortScores chunkCache chks defaultDict = Ok cg →
  let members := chunkId E <$> cg_chks E cg in
  (∀ h, h ∈ members ↔ h ∈ chks ∧ ∃ b, cs_get (csc_cs chunkCache) h = Ok (Some b))
  ∧ (NoDup chks → NoDup members)
  ∧ members ≠ [].
Proof.
  intros HsortS Haddr Hnew members. unfold newChunkGroup in Hnew.
  destruct (rebuild_kept E sortScores HsortS _ chunkCache defaultDict cg Hnew)
    as (Hids & Hlen & Hne).
  cbn [cg_chks] in Hids, Hlen, Hne.
  rewrite (resolved_hashes E chunkCache chks Haddr) in Hids.
  fold members in Hids.
  split; [|split].
  - intros h. rewrite Hids, list_elem_of_filter. split.
    + intros [[o Ho] Hin]. split; [done|].
      destruct (cs_get (csc_cs chunkCache) h) as [[b|]| | |]; try done. eauto.
    + intros [Hin [b Hb]]. split; [|done]. rewrite Hb. eauto.
  - intros Hnd. rewrite Hids. by apply NoDup_filter.
  - intros Hnil. apply Hne. apply (f_equal length) in Hnil.
    unfold members in Hnil. rewrite length_fmap, Hlen in Hnil. simpl in Hnil.
    by apply nil_length_inv.
Qed.

Lemma newChunkGroup_members_witness :
  let cache := mkCache (Toy.tableFile 77 Toy.entries33) in
  let g (i : nat) := Toy.digest (Toy.sharedData i) in
  ∃ cg, newChunkGroup Toy.ext id cache [g 0%nat; 12345; g 1%nat] [] = Ok cg
        ∧ NoDup (chunkId Toy.ext <$> cg_chks Toy.ext cg).
Proof.
  intros cache g.
  assert (isOk (newChunkGroup Toy.ext id cache [g 0%nat; 12345; g 1%nat] []) = true) as Hok
    by (vm_compute; reflexivity).
  destruct (newChunkGroup Toy.ext id cache [g 0%nat; 12345; g 1%nat] []) as [cg|e| |] eqn:Hnew;
    try discriminate Hok.
  exists cg. split; [reflexivity|].
  apply (proj1 (proj2 (newChunkGroup_members Toy.ext id cache [g 0%nat; 12345; g 1%nat] [] cg
                         (λ l, reflexivity l)
                         (λ h b Hb, proj1 (tableFile_addressed 77 Toy.entries33 h b Hb)) Hnew))).
  apply (bool_decide_unpack _). vm_compute. exact I.
Defined.

(** * The archive a conversion leaves *)

Section Shape.
Context {E : Externals} {S F : Type} (V : Env E S F).




End Shape.

Section Dictionaries.
Context {E : Externals} {S F : Type} (V : Env E S F).




Lemma indexFinalize_Ok aw origin aw' :
  indexFinalize V aw origin = Ok aw' →
  aw_spans aw' = aw_spans aw ∧ aw_staged aw' = aw_staged aw ∧ aw_seen aw' = aw_seen aw.
Proof.
  unfold indexFinalize. simpl.
  destruct (jsonMarshal E _); [|done..]. simpl. by intros [= <-].
Qed.

(** The steps of a successful conversion. *)
Lemma convert_run cs idx dag path (w : world S F) finalPath name cnt w' :
  convertTableFileToArchive V cs idx dag path w = (Ok (finalPath, name, cnt), w') →
  ∃ samples cgList0 sid aw1 (wg : world S F) gc grouped singles aw2 (wd : world S F) arcW,
    gatherSamples E cs idx 0 (N.to_nat (N.min (chunkCount idx) maxSamples)) = Ok samples
    ∧ (minSamples ≤ N.of_nat (length samples))%N
    ∧ convertToChunkGroups V dag (mkCache cs) (buildDictionary E samples) w = (Ok cgList0, wg)
    ∧ writeByteSpan E (mkWriter [] [] ∅ [] [] None EmptyString)
        (zCompress E (buildDictionary E samples)) = Ok (sid, aw1)
    ∧ writeDataToArchive V (mkCache cs) (sortGroups V cgList0) sid
        (buildDictionary E samples) aw1 wg = (Ok (gc, grouped, singles, aw2), wd)
    ∧ indexFinalize V aw2 (cs_hash cs) = Ok arcW
    ∧ genFileName E arcW path = Ok finalPath
    ∧ flushToFile V arcW finalPath (w_fs wd) = (Ok (), w_fs w')
    ∧ getName arcW = Ok name
    ∧ cnt = u32_add grouped singles
    ∧ w_fs wd = w_fs w.
Proof.
  unfold convertTableFileToArchive.
  intros ([cache samples] & w1 & [Hgather ->]%lift_Ok & Hrest)%bindM_Ok.
  unfold gatherAllChunks in Hgather.
  apply obind_Ok in Hgather as (samples' & Hsamples & Hgather).
  apply obind_Ok in Hgather as (cache' & [= <-] & [= <- <-]).
  destruct (decide (minSamples ≤ N.of_nat (length samples'))%N) as [Hmin|]; [|done].
  apply bindM_Ok in Hrest as (dcd & w1 & [Hcd ->]%lift_Ok & Hrest).
  unfold NewCDict in Hcd. destruct (zNewCDict E _); [done|]. injection Hcd as <-.
  apply bindM_Ok in Hrest as (cgList0 & wg & Hgroups & Hrest).
  apply bindM_Ok in Hrest as (aw0 & w1 & [Hnew ->]%lift_Ok & Hrest).
  injection Hnew as <-.
  apply bindM_Ok in Hrest as ([sid aw1] & w1 & [Hspan ->]%lift_Ok & Hrest).
  apply bindM_Ok in Hrest as ([[[gc grouped] singles] aw2] & wd & Hdata & Hrest).
  apply bindM_Ok in Hrest as (aw3 & wf & Hflush & Hrest).
  apply bindM_Ok in Hrest as ([] & w5 & Hdiag & Hrest).
  apply bindM_Ok in Hrest as (name' & w6 & [Hname ->]%lift_Ok & [= <- <- <- <-]).
  unfold indexFinalizeFlushArchive in Hflush.
  apply bindM_Ok in Hflush as (aw4 & w7 & [Hfin ->]%lift_Ok & Hflush).
  apply bindM_Ok in Hflush as (fileName & w7 & [Hfile ->]%lift_Ok & Hflush).
  unfold flush in Hflush.
  destruct (flushToFile V aw4 fileName (w_fs wd)) as [[[]| | |] fs] eqn:Hff; try done.
  injection Hflush as <- <-.
  assert (w_fs w5 = fs) as Hfs5.
  { simpl in Hdiag. destruct (decide _); by injection Hdiag as <-. }
  destruct (quiet_writeData V (mkCache cs) (sortGroups V cgList0) sid
              (buildDictionary E samples') aw1 wg) as [m1 Hq1].
  rewrite Hdata in Hq1. simpl in Hq1.
  destruct (quiet_convertToChunkGroups V dag (mkCache cs) (buildDictionary E samples') w)
    as [m2 Hq2].
  rewrite Hgroups in Hq2. simpl in Hq2.
  assert (w_fs wd = w_fs w) as Hfs by (rewrite Hq1; simpl; by rewrite Hq2).
  exists samples', cgList0, sid, aw1, wg, gc, grouped, singles, aw2, wd, aw4.
  simpl. rewrite Hfs5.
  split; [done|]. split; [done|]. split; [done|]. split; [done|]. split; [done|].
  split; [done|]. split; [done|]. split; [done|]. split; [|done].
  unfold getName in *. done.
Qed.
End Dictionaries.



Section RoundTrip.
Context {E : Externals} {S F : Type} (V : Env E S F).


End RoundTrip.


(** ** Two builds *)

Section Agree.
Context {S1 F1 S2 F2 : Type}.
Local Abbreviation M1 := (@M S1 F1).
Local Abbreviation M2 := (@M S2 F2).

Lemma agreeM_ret {A} (a : A) : agreeM (ret a : M1 A) (ret a : M2 A).
Proof. intros w1 w2 a1 a2 w1' w2' [= <- _] [= <- _]. done. Qed.

Lemma agreeM_lift {A} (o : outcome A) : agreeM (lift o : M1 A) (lift o : M2 A).
Proof. intros w1 w2 a1 a2 w1' w2' [= -> _] [= ? _]. congruence. Qed.

Lemma agreeM_fail_l {A} e (m : M2 A) : agreeM (fail e : M1 A) m.
Proof. intros w1 w2 a1 a2 w1' w2' [=]. Qed.

Lemma agreeM_fail_r {A} e (m : M1 A) : agreeM m (fail e : M2 A).
Proof. intros w1 w2 a1 a2 w1' w2' _ [=]. Qed.

Lemma agreeM_send msg : agreeM (send msg : M1 ()) (send msg : M2 ()).
Proof. intros w1 w2 [] [] w1' w2' _ _. done. Qed.

Lemma agreeM_bind {A B} (m1 : M1 A) (m2 : M2 A) (k1 : A → M1 B) (k2 : A → M2 B) :
  agreeM m1 m2 → (∀ a, agreeM (k1 a) (k2 a)) → agreeM (bindM m1 k1) (bindM m2 k2).
Proof.
  intros Hm Hk w1 w2 b1 b2 w1' w2'.
  intros (a1 & u1 & H1 & K1)%bindM_Ok (a2 & u2 & H2 & K2)%bindM_Ok.
  rewrite (Hm _ _ _ _ _ _ H1 H2) in K1. by eapply Hk.
Qed.

Lemma agreeM_foldM {A B} (f1 : B → A → M1 B) (f2 : B → A → M2 B) b l :
  (∀ b a, agreeM (f1 b a) (f2 b a)) → agreeM (foldM f1 b l) (foldM f2 b l).
Proof.
  intros Hf. revert b. induction l as [|a l IH]; intros b; simpl.
  - apply agreeM_ret.
  - apply agreeM_bind; [apply Hf|apply IH].
Qed.
End Agree.

Lemma rebuild_ext (E : Externals) (s1 s2 : list (chunkCmpScore E) → list (chunkCmpScore E))
    cg cache dd :
  (∀ l, s1 l = s2 l) → rebuild E s1 cg cache dd = rebuild E s2 cg cache dd.
Proof.
  intros Hs. unfold rebuild.
  destruct (resolveChunks E cache (cg_chks E cg) []) as [chks| | |]; simpl; try done.
  destruct (padSamples chks) as [samples| | |]; simpl; try done.
  destruct (NewCDict E _) as [cDict| | |]; simpl; try done.
  destruct (foldl _ _ chks) as [[[scored raw] dictSz] noDictSz].
  by rewrite Hs.
Qed.

Section TwoBuilds.
Context {E : Externals} {S1 F1 S2 F2 : Type} (V1 : Env E S1 F1) (V2 : Env E S2 F2).
Hypothesis HrangeR : ∀ m, rangeRelations V1 m = rangeRelations V2 m.
Hypothesis HrangeH : ∀ s, rangeHashSet V1 s = rangeHashSet V2 s.
Hypothesis HsortS : ∀ l, sortScores V1 l = sortScores V2 l.
Hypothesis HsortG : ∀ l, sortGroups V1 l = sortGroups V2 l.

Lemma agreeM_buildGroup chks dd gc st hs :
  agreeM (buildGroup V1 chks dd gc st hs) (buildGroup V2 chks dd gc st hs).
Proof.
  unfold buildGroup. destruct st as [result completed].
  destruct (ctxDone V1 completed); [apply agreeM_fail_l|].
  destruct (ctxDone V2 completed); [apply agreeM_fail_r|].
  destruct (decide _); [|apply agreeM_ret].
  unfold newChunkGroup. rewrite HrangeH, (rebuild_ext E _ _ _ _ _ HsortS).
  apply agreeM_bind; [apply agreeM_lift|intros chkGrp].
  apply agreeM_bind; [apply agreeM_send|intros _]. apply agreeM_ret.
Qed.

Lemma agreeM_convertToChunkGroups cr chks dd :
  agreeM (convertToChunkGroups V1 cr chks dd) (convertToChunkGroups V2 cr chks dd).
Proof.
  unfold convertToChunkGroups, groups. rewrite HrangeR.
  destruct (decide _).
  - apply agreeM_bind; [apply agreeM_foldM; intros; apply agreeM_buildGroup|].
    intros [result n]. apply agreeM_ret.
  - apply agreeM_bind; [apply agreeM_send|intros _; apply agreeM_ret].
Qed.

Lemma agreeM_writeGroup cache n st cg :
  agreeM (writeGroup V1 cache n st cg) (writeGroup V2 cache n st cg).
Proof.
  unfold writeGroup.
  destruct (ctxDone V1 _); [apply agreeM_fail_l|].
  destruct (ctxDone V2 _); [apply agreeM_fail_r|].
  apply agreeM_bind; [apply agreeM_lift|intros st'].
  apply agreeM_bind; [apply agreeM_send|intros _]. apply agreeM_ret.
Qed.
End TwoBuilds.

Section TwoRuns.
Context {E : Externals} {S1 F1 S2 F2 : Type} (V1 : Env E S1 F1) (V2 : Env E S2 F2).

(** Two runs of [writeDataToArchive] on the same groups and writer. *)
Lemma writeDataToArchive_two cache (cgList : list (chunkGroup E)) sid dd arcW
    (w1 : world S1 F1) (w2 : world S2 F2) gc1 g1 s1 a1 w1' gc2 g2 s2 a2 w2' :
  writeDataToArchive V1 cache cgList sid dd arcW w1 = (Ok (gc1, g1, s1, a1), w1') →
  writeDataToArchive V2 cache cgList sid dd arcW w2 = (Ok (gc2, g2, s2, a2), w2') →
  (∀ s, drainOrder V1 s ≡ₚ drainOrder V2 s) →
  gc1 = gc2 ∧ g1 = g2 ∧ s1 = s2
  ∧ aw_seen a1 = aw_seen a2
  ∧ (λ r, (sc_hash r, sc_dict r)) <$> aw_staged a1
    ≡ₚ (λ r, (sc_hash r, sc_dict r)) <$> aw_staged a2
  ∧ aw_spans a1 ≡ₚ aw_spans a2
  ∧ ((∀ s, drainOrder V1 s = drainOrder V2 s) → a1 = a2).
Proof.
  unfold writeDataToArchive.
  intros (A1 & u1 & [Haddr1 ->]%lift_Ok & Hrest1)%bindM_Ok.
  intros (A2 & u2 & [Haddr2 ->]%lift_Ok & Hrest2)%bindM_Ok Hp.
  assert (A2 = A1) as -> by congruence.
  apply bindM_Ok in Hrest1 as (st1 & u1 & Hgroups1 & Hrest1).
  apply bindM_Ok in Hrest2 as (st2 & u2 & Hgroups2 & Hrest2).
  assert (st1 = st2) as ->.
  { eapply (agreeM_foldM _ _ _ _ (λ st cg, agreeM_writeGroup V1 V2 cache _ st cg));
      [exact Hgroups1|exact Hgroups2]. }
  apply bindM_Ok in Hrest1 as ([n1 b1] & v1 & Hdrain1 & [= <- <- <- <- <-]).
  apply bindM_Ok in Hrest2 as ([n2 b2] & v2 & Hdrain2 & [= <- <- <- <- <-]).
  unfold compressChunksInParallel in Hdrain1, Hdrain2.
  apply bindM_Ok in Hdrain1 as ([c1 x1] & y1 & Hfold1 & [= <- <- <-]).
  apply bindM_Ok in Hdrain2 as ([c2 x2] & y2 & Hfold2 & [= <- <- <-]).
  apply drainFold_Ok in Hfold1 as [_ Hext1].
  apply drainFold_Ok in Hfold2 as [_ Hext2].
  specialize (Hp (ws_allChunks st2)).
  split; [done|]. split; [done|]. split; [done|].
  split; [|split; [|split]].
  - rewrite (ext_seen _ _ _ _ Hext1), (ext_seen _ _ _ _ Hext2), !drained_hashes.
    f_equal. apply set_eq. intros h. rewrite !elem_of_list_to_set. by rewrite Hp.
  - rewrite (ext_staged _ _ _ _ Hext1), (ext_staged _ _ _ _ Hext2), !fmap_app, !drained_pairs.
    by rewrite Hp.
  - rewrite (ext_spans _ _ _ _ Hext1), (ext_spans _ _ _ _ Hext2). by rewrite Hp.
  - intros Heq. rewrite Heq in Hext1. by eapply extends_unique.
Qed.
End TwoRuns.

(** C9 (as amended). Two builds of one table file with the same relations,
    both returning, in which the runtime walks the relations and every hash
    set in the same order, sorts leave equal keys in the same order, and the
    compression workers deliver the same chunks in whatever order: they
    return the same chunk count; the archives they flush index the same
    hashes against the same dictionary spans and hold the same spans, up to
    the order in which the workers delivered; and when the workers deliver in
    the same order in both and the clocks agree, the archives flushed are
    equal, and so are their names and their paths.  The block stores, the
    file systems, the worlds the builds start in and the polls of the
    contexts need not have anything in common. *)
Theorem deterministic_address_two_builds {E : Externals} {S1 F1 S2 F2 : Type}
    (V1 : Env E S1 F1) (V2 : Env E S2 F2)
    (cs : chunkSource) (idx : tableIndex) (dagGroups : ChunkRelations) (path : string)
    (w1 : world S1 F1) (w2 : world S2 F2)
    (file1 file2 : string) (name1 name2 : Hash) (cnt1 cnt2 : N)
    (w1' : world S1 F1) (w2' : world S2 F2) :
  convertTableFileToArchive V1 cs idx dagGroups path w1 = (Ok (file1, name1, cnt1), w1') →
  convertTableFileToArchive V2 cs idx dagGroups path w2 = (Ok (file2, name2, cnt2), w2') →
  (∀ m, rangeRelations V1 m = rangeRelations V2 m) →
  (∀ s, rangeHashSet V1 s = rangeHashSet V2 s) →
  (∀ l, sortScores V1 l = sortScores V2 l) →
  (∀ l, sortGroups V1 l = sortGroups V2 l) →
  (∀ s, drainOrder V1 s ≡ₚ drainOrder V2 s) →
  ∃ aw1 aw2,
    flushToFile V1 aw1 file1 (w_fs w1) = (Ok (), w_fs w1')
    ∧ flushToFile V2 aw2 file2 (w_fs w2) = (Ok (), w_fs w2')
    ∧ aw_name aw1 = Some name1 ∧ aw_name aw2 = Some name2
    ∧ cnt1 = cnt2
    ∧ aw_seen aw1 = aw_seen aw2
    ∧ (λ r, (sc_hash r, sc_dict r)) <$> aw_staged aw1
      ≡ₚ (λ r, (sc_hash r, sc_dict r)) <$> aw_staged aw2
    ∧ aw_spans aw1 ≡ₚ aw_spans aw2
    ∧ ((∀ s, drainOrder V1 s = drainOrder V2 s) → timeNow V1 = timeNow V2 →
       aw1 = aw2 ∧ name1 = name2 ∧ file1 = file2).
Proof.
  intros Hrun1 Hrun2 HrangeR HrangeH HsortS HsortG Hdrain.
  destruct (convert_run V1 _ _ _ _ _ _ _ _ _ Hrun1)
    as (samples1 & cgs1 & sid1 & b1 & wg1 & gc1 & g1 & s1 & d1 & wd1 & a1
        & Hs1 & _ & Hgroups1 & Hspan1 & Hdata1 & Hfin1 & Hfile1 & Hflush1 & Hname1 & -> & Hfs1).
  destruct (convert_run V2 _ _ _ _ _ _ _ _ _ Hrun2)
    as (samples2 & cgs2 & sid2 & b2 & wg2 & gc2 & g2 & s2 & d2 & wd2 & a2
        & Hs2 & _ & Hgroups2 & Hspan2 & Hdata2 & Hfin2 & Hfile2 & Hflush2 & Hname2 & -> & Hfs2).
  assert (samples2 = samples1) as -> by congruence.
  assert (cgs1 = cgs2) as ->.
  { eapply (agreeM_convertToChunkGroups V1 V2 HrangeR HrangeH HsortS);
      [exact Hgroups1|exact Hgroups2]. }
  assert (sid2 = sid1 ∧ b2 = b1) as [-> ->] by (split; congruence).
  rewrite HsortG in Hdata1.
  destruct (writeDataToArchive_two V1 V2 _ _ _ _ _ _ _ _ _ _ _ _ _ _ _ _ _ Hdata1 Hdata2 Hdrain)
    as (-> & -> & -> & Hseen & Hstaged & Hspans & Heq).
  destruct (indexFinalize_Ok V1 _ _ _ Hfin1) as (Hsp1 & Hst1 & Hse1).
  destruct (indexFinalize_Ok V2 _ _ _ Hfin2) as (Hsp2 & Hst2 & Hse2).
  exists a1, a2. rewrite <- Hfs1, <- Hfs2.
  split; [done|]. split; [done|].
  assert (∀ aw n, getName aw = Ok n → aw_name aw = Some n) as Hget.
  { intros aw n. unfold getName. destruct (aw_name aw); [|done]. by intros [= ->]. }
  split; [by apply Hget|]. split; [by apply Hget|]. split; [done|].
  split; [congruence|]. split; [by rewrite Hst1, Hst2|]. split; [by rewrite Hsp1, Hsp2|].
  intros Hsame Hnow. specialize (Heq Hsame). subst d2.
  assert (a1 = a2) as ->.
  { unfold indexFinalize, archiveMeta in Hfin1, Hfin2. rewrite Hnow in Hfin1. congruence. }
  split; [done|]. split; congruence.
Qed.

(** ** The round trip and the two builds on the small instance *)






Lemma pair_eta3 {A B C} (x : A * B * C) : x = (x.1.1, x.1.2, x.2).
Proof. by destruct x as [[? ?] ?]. Qed.


Lemma deterministic_address_two_builds_witness :
  let V1 := Toy.env elements Toy.clock in
  let V2 := Toy.env (λ s, reverse (elements s)) Toy.clock in
  let V3 := withRemove V1 (λ fs _, (Err (errExternal 9), fs)) in
  let h (i : nat) := Toy.digest (Toy.chunkData i) in
  let g (i : nat) := Toy.digest (Toy.sharedData i) in
  let dag := AddAll [(g 0%nat, g 1%nat); (h 2%nat, h 3%nat); (g 1%nat, g 2%nat)]
               NewChunkRelations in
  let cs := Toy.tableFile 77 Toy.entries33 in
  let idx := Toy.indexOf Toy.entries33 in
  let w := Toy.world0 Toy.entries33 in
  let w3 := mkWorld (Toy.mkStore [] []) (w_fs w) [MsgStatFailed] [] in
  let r1 := convertTableFileToArchive V1 cs idx dag "noms" w in
  let r2 := convertTableFileToArchive V2 cs idx dag "noms" w in
  let r3 := convertTableFileToArchive V3 cs idx dag "noms" w3 in
  let res1 := match r1.1 with Ok a => a | _ => (EmptyString, 0, 0) end in
  let res2 := match r2.1 with Ok a => a | _ => (EmptyString, 0, 0) end in
  let res3 := match r3.1 with Ok a => a | _ => (EmptyString, 0, 0) end in
  (isOk r1.1 && isOk r2.1 && isOk r3.1 = true)
  ∧ (∃ aw1 aw2,
       flushToFile V1 aw1 res1.1.1 (w_fs w) = (Ok (), w_fs r1.2)
       ∧ flushToFile V2 aw2 res2.1.1 (w_fs w) = (Ok (), w_fs r2.2)
       ∧ res1.2 = res2.2
       ∧ aw_spans aw1 ≡ₚ aw_spans aw2
       ∧ (λ r, (sc_hash r, sc_dict r)) <$> aw_staged aw1
         ≡ₚ (λ r, (sc_hash r, sc_dict r)) <$> aw_staged aw2)
  ∧ res1.1.2 = res3.1.2 ∧ res1.1.1 = res3.1.1.
Proof.
  intros V1 V2 V3 h g dag cs idx w w3 r1 r2 r3 res1 res2 res3.
  assert (isOk r1.1 = true) as H1 by (vm_compute; reflexivity).
  assert (isOk r2.1 = true) as H2 by (vm_compute; reflexivity).
  assert (isOk r3.1 = true) as H3 by (vm_compute; reflexivity).
  assert (r1 = (Ok (res1.1.1, res1.1.2, res1.2), r1.2)) as Hrun1.
  { rewrite <- (pair_eta3 res1). exact (isOk_eta r1 (EmptyString, 0, 0) H1). }
  assert (r2 = (Ok (res2.1.1, res2.1.2, res2.2), r2.2)) as Hrun2.
  { rewrite <- (pair_eta3 res2). exact (isOk_eta r2 (EmptyString, 0, 0) H2). }
  assert (r3 = (Ok (res3.1.1, res3.1.2, res3.2), r3.2)) as Hrun3.
  { rewrite <- (pair_eta3 res3). exact (isOk_eta r3 (EmptyString, 0, 0) H3). }
  destruct (deterministic_address_two_builds V1 V2 cs idx dag "noms" w w
              res1.1.1 res2.1.1 res1.1.2 res2.1.2 res1.2 res2.2 r1.2 r2.2 Hrun1 Hrun2
              (λ m, eq_refl) (λ s, eq_refl) (λ l, eq_refl) (λ l, eq_refl)
              (λ s, symmetry (reverse_Permutation (elements s))))
    as (aw1 & aw2 & Hf1 & Hf2 & _ & _ & Hcnt & _ & Hstaged & Hspans & _).
  destruct (deterministic_address_two_builds V1 V3 cs idx dag "noms" w w3
              res1.1.1 res3.1.1 res1.1.2 res3.1.2 res1.2 res3.2 r1.2 r3.2 Hrun1 Hrun3
              (λ m, eq_refl) (λ s, eq_refl) (λ l, eq_refl) (λ l, eq_refl)
              (λ s, reflexivity (elements s)))
    as (aw1' & aw3 & _ & _ & _ & _ & _ & _ & _ & _ & Hsame).
  destruct (Hsame (λ s, eq_refl) eq_refl) as (_ & Hname & Hfile).
  split; [by rewrite H1, H2, H3|].
  split; [|split; [exact Hname|exact Hfile]].
  exists aw1, aw2.
  split; [exact Hf1|]. split; [exact Hf2|]. split; [exact Hcnt|].
  split; [exact Hspans|exact Hstaged].
Defined.
